(** * sparse: a shallow embedding of the pull parser (sparse.go, reader.go)

    The development follows the Go sources function by function.

    - A Go [string] / [[]byte] is a list of bytes, a byte being an integer
      in [0, 256).  A [rune] is an integer (Go: int32).
    - A [Reader] is a code-point source positioned on some text: the code
      points it still has to deliver, and the error it reports once they are
      used up ([io.EOF] for an in-memory text).  Its byte view, used by
      [readUntil] only, is the UTF-8 encoding of those code points.
    - [Parser.next] is a closure in Go; here it is a value of the
      enumeration [parser], and [read] is its application.
    - Go's [int] is taken to be 64 bits wide; [depth++] and [depth--] wrap. *)

From Stdlib Require Import String Ascii ZArith List Bool Lia.
Import ListNotations.
Open Scope Z_scope.

Set Warnings "-register-all".

(** ** Bytes, runes and character constants *)

Abbreviation rune := Z (only parsing).
Abbreviation byte := Z (only parsing).
Abbreviation bytes := (list Z) (only parsing).

Abbreviation NUL := 0 (only parsing).
Abbreviation BS := 8 (only parsing).
Abbreviation TAB := 9 (only parsing).
Abbreviation LF := 10 (only parsing).
Abbreviation VT := 11 (only parsing).
Abbreviation FF := 12 (only parsing).
Abbreviation CR := 13 (only parsing).
Abbreviation SP := 32 (only parsing).
Abbreviation BANG := 33 (only parsing).
Abbreviation HASH := 35 (only parsing).
Abbreviation SEMI := 59 (only parsing).
Abbreviation BACKSLASH := 92 (only parsing).
Abbreviation LBRACE := 123 (only parsing).
Abbreviation RBRACE := 125 (only parsing).

(** Text literals for statements: the bytes of an ASCII string. *)
Definition B (s : string) : bytes :=
  map (fun a => Z.of_N (N_of_ascii a)) (list_ascii_of_string s).

(** ** Go library functions the parser calls *)

Module unicode.

Definition ReplacementChar : rune := 65533.

(** [unicode.IsSpace]: the Latin-1 spaces, then the White_Space table. *)
Definition IsSpace (r : rune) : bool :=
  if (0 <=? r) && (r <=? 255) then
    (r =? TAB) || (r =? LF) || (r =? VT) || (r =? FF) || (r =? CR)
    || (r =? SP) || (r =? 133) || (r =? 160)
  else
    (r =? 5760) || ((8192 <=? r) && (r <=? 8202)) || (r =? 8232)
    || (r =? 8233) || (r =? 8239) || (r =? 8287) || (r =? 12288).

End unicode.

Module utf8.

Definition RuneError : rune := 65533.
Definition MaxRune : rune := 1114111.

(** [utf8.AppendRune] on an empty slice. *)
Definition EncodeRune (r : rune) : bytes :=
  if (0 <=? r) && (r <? 128) then [r]
  else if (0 <=? r) && (r <=? 2047) then
    [Z.lor 192 (Z.shiftr r 6); Z.lor 128 (Z.land r 63)]
  else
    let r' := if (r <? 0) || (MaxRune <? r) || ((55296 <=? r) && (r <=? 57343))
              then RuneError else r in
    if r' <=? 65535 then
      [Z.lor 224 (Z.shiftr r' 12);
       Z.lor 128 (Z.land (Z.shiftr r' 6) 63);
       Z.lor 128 (Z.land r' 63)]
    else
      [Z.lor 240 (Z.shiftr r' 18);
       Z.lor 128 (Z.land (Z.shiftr r' 12) 63);
       Z.lor 128 (Z.land (Z.shiftr r' 6) 63);
       Z.lor 128 (Z.land r' 63)].

End utf8.

(** [dropWhile] scans a list from its head; the Go code scans buffers from
    their end, hence [dropWhileEnd]. *)
Fixpoint dropWhile (f : byte -> bool) (l : bytes) : bytes :=
  match l with
  | [] => []
  | x :: t => if f x then dropWhile f t else l
  end.

Definition dropWhileEnd (f : byte -> bool) (l : bytes) : bytes :=
  rev (dropWhile f (rev l)).

Module gobytes.

(** The cutset [" \n\t\r"] of [bytes.TrimRight] in readValue. *)
Definition inCutset (c : byte) : bool :=
  (c =? SP) || (c =? LF) || (c =? TAB) || (c =? CR).

(** [bytes.TrimRight(b, " \n\t\r")]. *)
Definition TrimRight (b : bytes) : bytes := dropWhileEnd inCutset b.

(** [WriteRune] of [bytes.Buffer]. *)
Definition WriteRune (b : bytes) (r : rune) : bytes := b ++ utf8.EncodeRune r.

End gobytes.

(** [strings.NewReplacer] with one-byte patterns: every byte is replaced on
    its own, bytes without a rule are copied. *)
Fixpoint Replace (table : byte -> option bytes) (s : bytes) : bytes :=
  match s with
  | [] => []
  | c :: t =>
      match table c with
      | Some e => e ++ Replace table t
      | None => c :: Replace table t
      end
  end.

(** ** Errors, readers *)

Inductive error :=
| EOF                         (* io.EOF *)
| ErrUnexpectedNodeLeave
| ErrIO (code : nat).         (* any other error of the source *)

Definition isEOF (e : option error) : bool :=
  match e with Some EOF => true | _ => false end.

(** [err != nil && err != io.EOF] *)
Definition isFailure (e : option error) : bool :=
  match e with Some EOF => false | Some _ => true | None => false end.

Definition isNil {A} (e : option A) : bool :=
  match e with None => true | Some _ => false end.

Record Reader := mkReader {
  pending : list rune;
  fail : error
}.

(** [r.ReadRune()], the size being dropped as in every call of the parser. *)
Definition ReadRune (r : Reader) : rune * option error * Reader :=
  match pending r with
  | [] => (0, Some (fail r), r)
  | c :: rest => (c, None, mkReader rest (fail r))
  end.

(** [readUntil(r, delim)] for an ASCII [delim]: the bytes up to and including
    the first [delim], or everything and the source's error. *)
Fixpoint readUntil (rs : list rune) (fl : error) (delim : byte)
  : bytes * option error * list rune :=
  match rs with
  | [] => ([], Some fl, [])
  | c :: rest =>
      if c =? delim then ([c], None, rest)
      else
        let '(seq, err, rest') := readUntil rest fl delim in
        (utf8.EncodeRune c ++ seq, err, rest')
  end.

(** ** reader.go: the 8-bit reader *)

Module ASCIIReader.

(** The wrapped [io.Reader]: the bytes it will deliver, then its error. *)
Record t := mk { data : bytes; ioerr : error }.

(** [ReadByte]: one [Read] into a one-byte array, which stays 0 when
    nothing is read. *)
Definition ReadByte (r : t) : byte * option error * t :=
  match data r with
  | [] => (0, Some (ioerr r), r)
  | b :: rest => (b, None, mk rest (ioerr r))
  end.

Definition ReadRune (r : t) : rune * Z * option error * t :=
  let '(b, err, r') := ReadByte r in
  if negb (isNil err) then (b, 1, err, r')
  else if negb (Z.land b 8 =? 0) then (unicode.ReplacementChar, 1, None, r')
  else (b, 1, err, r').

End ASCIIReader.

(** ** Escaping tables *)

Definition valueEscaper (c : byte) : option bytes :=
  if c =? HASH then Some [BACKSLASH; HASH]
  else if c =? SEMI then Some [BACKSLASH; SEMI]
  else if c =? BS then Some [BACKSLASH; 98]
  else if c =? FF then Some [BACKSLASH; 102]
  else if c =? LF then Some [BACKSLASH; LF]
  else if c =? CR then Some [BACKSLASH; 114]
  else if c =? VT then Some [BACKSLASH; 118]
  else if c =? NUL then Some [BACKSLASH; 48]
  else None.

Definition keyEscaper (c : byte) : option bytes :=
  if c =? SP then Some [BACKSLASH; SP]
  else if c =? HASH then Some [BACKSLASH; HASH]
  else if c =? SEMI then Some [BACKSLASH; SEMI]
  else if c =? BS then Some [BACKSLASH; 98]
  else if c =? FF then Some [BACKSLASH; 102]
  else if c =? LF then Some [BACKSLASH; 110]
  else if c =? CR then Some [BACKSLASH; 114]
  else if c =? TAB then Some [BACKSLASH; 116]
  else if c =? VT then Some [BACKSLASH; 118]
  else if c =? NUL then Some [BACKSLASH; 48]
  else if c =? BANG then Some [BACKSLASH; BANG]
  else None.

(** ** Pieces *)

Inductive Piece :=
| Field (Key Value : bytes)
| Comment (text : bytes)
| NodeEnter (label : bytes)
| NodeLeave (depth : Z).

(** [Piece.String()] *)
Definition String_ (pc : Piece) : bytes :=
  match pc with
  | Field k v =>
      match v with
      | [] => Replace keyEscaper k ++ [BANG]
      | _ => Replace keyEscaper k ++ [SP] ++ Replace valueEscaper v
      end
  | Comment c => HASH :: c
  | NodeEnter s => s ++ [LBRACE]
  | NodeLeave _ => [RBRACE]
  end.

(** ** The parser *)

(** The values [Parser.next] takes. *)
Inductive parser :=
| readKeyFn                               (* readFn(p.readKey) *)
| readCommentFn (next : option parser)    (* p.readComment(next) *)
| eofReader
| errReader (err : error).

Record Parser := mkParser {
  readComments : bool;
  keepSeqWhitespace : bool;
  keepTrailingWhitespace : bool;
  depth : Z;
  next : option parser;
  buf : bytes
}.

Definition set_depth (p : Parser) (d : Z) : Parser :=
  mkParser (readComments p) (keepSeqWhitespace p) (keepTrailingWhitespace p)
           d (next p) (buf p).

Definition set_next (p : Parser) (n : option parser) : Parser :=
  mkParser (readComments p) (keepSeqWhitespace p) (keepTrailingWhitespace p)
           (depth p) n (buf p).

Definition set_buf (p : Parser) (b : bytes) : Parser :=
  mkParser (readComments p) (keepSeqWhitespace p) (keepTrailingWhitespace p)
           (depth p) (next p) b.

Inductive Configuration :=
| ReadComments (b : bool)
| TrimWhitespace (b : bool)
| CompressWhitespace (b : bool).

Definition apply (p : Parser) (cfg : Configuration) : Parser :=
  match cfg with
  | ReadComments b =>
      mkParser b (keepSeqWhitespace p) (keepTrailingWhitespace p)
               (depth p) (next p) (buf p)
  | TrimWhitespace b =>
      mkParser (readComments p) (keepSeqWhitespace p) (negb b)
               (depth p) (next p) (buf p)
  | CompressWhitespace b =>
      mkParser (readComments p) (negb b) (keepTrailingWhitespace p)
               (depth p) (next p) (buf p)
  end.

(** [Parser.Reset]: everything zeroed, the buffer emptied, then the
    configurations applied in order. *)
Definition Reset (p : Parser) (configs : list Configuration) : Parser :=
  fold_left apply configs (mkParser false false false 0 None []).

(** [NewParser] and the [var p Parser] of [Parse]. *)
Definition zeroParser : Parser := mkParser false false false 0 None [].
Definition NewParser (configs : list Configuration) : Parser :=
  Reset zeroParser configs.

(** Go's [int], 64 bits two's complement. *)
Definition maxInt : Z := 9223372036854775807.
Definition wrapInt (z : Z) : Z :=
  (z + 9223372036854775808) mod 18446744073709551616 - 9223372036854775808.

(** What a [read] returns, next to the parser and reader it leaves. *)
Record Out := mkOut {
  o_parser : Parser;
  o_reader : Reader;
  o_next : option parser;
  o_piece : option Piece;
  o_err : option error
}.

Definition enter (p : Parser) (r : Reader) (key : bytes) : Out :=
  mkOut (set_depth p (wrapInt (depth p + 1))) r
        (Some readKeyFn) (Some (NodeEnter key)) None.

Definition leave (p : Parser) (r : Reader) : Out :=
  if depth p =? 0 then
    mkOut p r (Some (errReader ErrUnexpectedNodeLeave)) None
          (Some ErrUnexpectedNodeLeave)
  else
    mkOut (set_depth p (wrapInt (depth p - 1))) r
          (Some readKeyFn) (Some (NodeLeave (depth p))) None.

(** [chompBuffer]: cut the trailing bytes that are spaces other than LF. *)
Definition chompable (c : byte) : bool :=
  negb ((c =? LF) || negb (unicode.IsSpace c)).

Definition chompBuffer (b : bytes) : bytes := dropWhileEnd chompable b.

(** The [switch c] of both accumulation loops. *)
Definition unescape (c : rune) : rune :=
  if c =? 116 then TAB          (* 't' *)
  else if c =? 110 then LF      (* 'n' *)
  else if c =? 114 then CR      (* 'r' *)
  else if c =? 98 then BS       (* 'b' *)
  else if c =? 102 then FF      (* 'f' *)
  else if c =? 48 then NUL      (* '0' *)
  else if c =? 118 then VT      (* 'v' *)
  else c.

(** The leading loop of readKey and readValue:
    [c, _, err := r.ReadRune(); for blank(c) && err == nil { ... }] *)
Definition isBlank (c : rune) : bool :=
  (c =? SP) || (c =? TAB) || (c =? LF) || (c =? CR).

Fixpoint skipBlank (rs : list rune) (fl : error)
  : rune * option error * list rune :=
  match rs with
  | [] => (0, Some fl, [])
  | c :: rest => if isBlank c then skipBlank rest fl else (c, None, rest)
  end.

(** The state of an accumulation loop between two iterations. *)
Record Acc := mkAcc {
  escape : bool;
  last : rune;
  abuf : bytes
}.

(** One pass through the body of the key loop, up to [skipWrite]. *)
Definition keyStep (keepSeq : bool) (c : rune) (a : Acc) : Acc :=
  if c =? CR then a
  else if negb (escape a) && (c =? BACKSLASH) then mkAcc true (last a) (abuf a)
  else if escape a then
    if c =? LF then
      let b := if negb keepSeq then chompBuffer (abuf a) else abuf a in
      mkAcc false c (gobytes.WriteRune b c)
    else
      let c' := unescape c in
      mkAcc false c' (gobytes.WriteRune (abuf a) c')
  else if c =? CR then a
  else if negb keepSeq && unicode.IsSpace (last a) && unicode.IsSpace c then a
  else mkAcc (escape a) c (gobytes.WriteRune (abuf a) c).

Definition isKeyEnd (c : rune) : bool :=
  (c =? SP) || (c =? BANG) || (c =? SEMI) || (c =? TAB) || (c =? LF)
  || (c =? CR) || (c =? HASH).

(** The key loop, entered with the rune [c] just read without error and the
    runes [rs] still in the source.  It returns [c], [err], what is left of
    the source and the buffer. *)
Fixpoint keyLoop (keepSeq : bool) (fl : error) (rs : list rune) (c : rune)
    (a : Acc) {struct rs} : rune * option error * list rune * bytes :=
  if negb (negb (escape a) && isKeyEnd c) then
    let a' := keyStep keepSeq c a in
    match rs with
    | [] => (0, Some fl, [], abuf a')
    | c' :: rs' => keyLoop keepSeq fl rs' c' a'
    end
  else (c, None, rs, abuf a).

(** One pass through the body of the value loop; [None] is its [break]. *)
Definition valueStep (keepSeq : bool) (c : rune) (a : Acc) : option Acc :=
  if c =? CR then Some a
  else if negb (escape a) && (c =? BACKSLASH) then
    Some (mkAcc true (last a) (abuf a))
  else if negb (escape a) && (c =? HASH) then None
  else if escape a then
    if c =? LF then
      let b := if negb keepSeq then chompBuffer (abuf a) else abuf a in
      Some (mkAcc false c (gobytes.WriteRune b c))
    else
      let c' := unescape c in
      Some (mkAcc false c' (gobytes.WriteRune (abuf a) c'))
  else if negb keepSeq && unicode.IsSpace (last a) && unicode.IsSpace c then
    Some a
  else Some (mkAcc (escape a) c (gobytes.WriteRune (abuf a) c)).

Definition isValueEnd (c : rune) : bool :=
  (c =? LF) || (c =? SEMI) || (c =? HASH).

Fixpoint valueLoop (keepSeq : bool) (fl : error) (rs : list rune) (c : rune)
    (a : Acc) {struct rs} : rune * option error * list rune * bytes :=
  if negb (negb (escape a) && isValueEnd c) then
    match valueStep keepSeq c a with
    | None => (c, None, rs, abuf a)
    | Some a' =>
        match rs with
        | [] => (0, Some fl, [], abuf a')
        | c' :: rs' => valueLoop keepSeq fl rs' c' a'
        end
    end
  else (c, None, rs, abuf a).

(** The end of readValue: the string of the Field. *)
Definition valueString (keepTrailing : bool) (b : bytes) : bytes :=
  if (0 <? Z.of_nat (length b)) then
    if negb keepTrailing then gobytes.TrimRight b else b
  else [].

Definition readValue (p : Parser) (r : Reader) (key : bytes) : Out :=
  let '(c, err, rs) := skipBlank (pending r) (fail r) in
  let r1 := mkReader rs (fail r) in
  if isFailure err then
    mkOut p r1 (option_map errReader err) None err
  else if c =? LBRACE then enter p r1 key
  else if c =? HASH then
    mkOut p r1 (Some (readCommentFn (Some readKeyFn))) (Some (Field key [])) None
  else
    let '(c2, err2, rs2, b) :=
      if isNil err
      then valueLoop (keepSeqWhitespace p) (fail r) rs c (mkAcc false 0 (buf p))
      else (c, err, rs, buf p) in
    let nx :=
      if isEOF err2 then eofReader
      else if c2 =? HASH then readCommentFn (Some readKeyFn)
      else readKeyFn in
    mkOut (set_buf p []) (mkReader rs2 (fail r)) (Some nx)
          (Some (Field key (valueString (keepTrailingWhitespace p) b))) err2.

Definition readKey (p : Parser) (r : Reader) : Out :=
  let '(c, err, rs) := skipBlank (pending r) (fail r) in
  let r1 := mkReader rs (fail r) in
  if isFailure err then mkOut p r1 (Some eofReader) None err
  else if c =? RBRACE then leave p r1
  else if c =? LBRACE then enter p r1 []
  else if c =? HASH then
    mkOut p r1 (Some (readCommentFn (Some readKeyFn))) None None
  else
    let '(c2, err2, rs2, key) :=
      if isNil err
      then keyLoop (keepSeqWhitespace p) (fail r) rs c (mkAcc false 0 (buf p))
      else (c, err, rs, buf p) in
    let p2 := set_buf p [] in
    let r2 := mkReader rs2 (fail r) in
    if (Z.of_nat (length key) =? 0) && negb (isNil err2) then
      if isEOF err2 then mkOut p2 r2 (Some eofReader) None err2
      else mkOut p2 r2 (option_map errReader err2) None err2
    else if isEOF err2 then
      mkOut p2 r2 (Some eofReader) (Some (Field key [])) err2
    else if c2 =? HASH then
      (* [next] is still nil here: [next = p.readComment(next)] *)
      mkOut p2 r2 (Some (readCommentFn None)) (Some (Field key [])) err2
    else if (c2 =? BANG) || (c2 =? SEMI) then
      mkOut p2 r2 (Some readKeyFn) (Some (Field key [])) err2
    else readValue p2 r2 key.

(** The closure returned by [p.readComment(next)]. *)
Definition readComment (p : Parser) (nx : option parser) (r : Reader) : Out :=
  let '(comment, err, rs) := readUntil (pending r) (fail r) LF in
  let comment := if isNil err then removelast comment else comment in
  let nx := if isFailure err then option_map errReader err else nx in
  let piece := if readComments p then Some (Comment comment) else None in
  mkOut p (mkReader rs (fail r)) nx piece err.

(** [p.next.read(r)] *)
Definition read (n : parser) (p : Parser) (r : Reader) : Out :=
  match n with
  | readKeyFn => readKey p r
  | readCommentFn nx => readComment p nx r
  | eofReader => mkOut p r (Some eofReader) None (Some EOF)
  | errReader e => mkOut p r (Some (errReader e)) None (Some e)
  end.

(** The loop of [Parser.Read].  [fuel] bounds its iterations; [None] is
    returned only when the bound is hit. *)
Fixpoint ReadLoop (fuel : nat) (p : Parser) (r : Reader)
    (piece : option Piece) (err : option error)
  : option (Parser * Reader * option Piece * option error) :=
  match next p, piece, err with
  | Some n, None, None =>
      match fuel with
      | O => None
      | S fuel' =>
          let o := read n p r in
          ReadLoop fuel' (set_next (o_parser o) (o_next o)) (o_reader o)
                   (o_piece o) (o_err o)
      end
  | _, _, _ => Some (p, r, piece, err)
  end.

(** [Parser.Read]: every iteration but the last consumes a rune, so one more
    than the number of pending runes is enough. *)
Definition Read (p : Parser) (r : Reader)
  : option (Parser * Reader * option Piece * option error) :=
  let p0 := if isNil (next p) then set_next p (Some readKeyFn) else p in
  ReadLoop (S (length (pending r))) p0 r None None.

(** The loop of [Parse]; a Go [[]Piece] may hold nil, hence [option Piece]. *)
Fixpoint ParseLoop (fuel : nat) (p : Parser) (r : Reader)
    (pieces : list (option Piece)) (err : option error)
  : option (list (option Piece) * option error) :=
  match err with
  | None =>
      match fuel with
      | O => None
      | S fuel' =>
          match Read p r with
          | None => None
          | Some (p', r', piece, err') =>
              ParseLoop fuel' p' r'
                        (if isNil err' then pieces ++ [piece] else pieces) err'
          end
      end
  | Some e => Some (pieces, if isEOF err then None else err)
  end.

Definition Parse (r : Reader) (configs : list Configuration)
  : option (list (option Piece) * option error) :=
  ParseLoop (S (length (pending r))) (Reset zeroParser configs) r [] None.

(** A source holding an in-memory text. *)
Definition textReader (text : list rune) : Reader := mkReader text EOF.

(** ** Runs of step calls *)

(** The calls [p.Read(r1)], [p.Read(r2)], ... on one parser, the caller
    being free to pass any source at every call: for each call the depth
    before it, the piece it returns and the depth after it. *)
Fixpoint steps (p : Parser) (rs : list Reader) : list (Z * option Piece * Z) :=
  match rs with
  | [] => []
  | r :: rs' =>
      match Read p r with
      | Some (p', _, piece, _) => (depth p, piece, depth p') :: steps p' rs'
      | None => []
      end
  end.

(** The depth discipline of one step. *)
Definition depthStep (s : Z * option Piece * Z) : Prop :=
  let '(d, piece, d') := s in
  0 <= d /\ 0 <= d' /\
  match piece with
  | Some (NodeEnter _) => d' = d + 1
  | Some (NodeLeave k) => k = d /\ 1 <= k /\ d' = d - 1
  | _ => d' = d
  end.

(** How far a [read] moves the source: never backwards, and by one rune at
    least when it returns no error. *)
Definition advances (r : Reader) (o : Out) : Prop :=
  (length (pending (o_reader o)) <= length (pending r))%nat
  /\ (o_err o = None ->
      (length (pending (o_reader o)) < length (pending r))%nat).

(** What one [read], or one [Read], does to the depth. *)
Definition depthMove (d : Z) (piece : option Piece) (d' : Z) : Prop :=
  match piece with
  | Some (NodeEnter _) => d' = wrapInt (d + 1)
  | Some (NodeLeave k) => k = d /\ d <> 0 /\ d' = wrapInt (d - 1)
  | _ => d' = d
  end.

(** ** The value at the end of the token *)



(** ** Vocabulary of the statements about accumulation *)

(** The value loop from its first [ReadRune] on: what the loop does with the
    source [rs] once the body has left the state [a]. *)
Definition valueTail (keepSeq : bool) (fl : error) (rs : list rune) (a : Acc)
  : rune * option error * list rune * bytes :=
  match rs with
  | [] => (0, Some fl, [], abuf a)
  | c :: rs' => valueLoop keepSeq fl rs' c a
  end.

Definition keyTail (keepSeq : bool) (fl : error) (rs : list rune) (a : Acc)
  : rune * option error * list rune * bytes :=
  match rs with
  | [] => (0, Some fl, [], abuf a)
  | c :: rs' => keyLoop keepSeq fl rs' c a
  end.

(** A text without its carriage returns. *)
Definition noCR (rs : list rune) : list rune :=
  filter (fun c => negb (c =? CR)) rs.

Definition eraseCR (r : Reader) : Reader := mkReader (noCR (pending r)) (fail r).

Definition eraseOut (o : Out) : Out :=
  mkOut (o_parser o) (eraseCR (o_reader o)) (o_next o) (o_piece o) (o_err o).

Definition onRest (f : list rune -> list rune)
    (x : rune * option error * list rune * bytes)
  : rune * option error * list rune * bytes :=
  let '(c, err, rs, b) := x in (c, err, f rs, b).

(** [hasPair a b l]: somewhere in [l], [a] is directly followed by [b]. *)
Fixpoint hasPair (a b : Z) (l : list Z) : bool :=
  match l with
  | [] => false
  | x :: t =>
      match t with
      | [] => false
      | y :: _ => ((x =? a) && (y =? b)) || hasPair a b t
      end
  end.

(** The strings over the alphabet of an escaping table: every byte has a
    rule. *)
Definition inTable (table : byte -> option bytes) (s : bytes) : Prop :=
  Forall (fun c => table c <> None) s.

(** [noChomp prev s]: no LF of [s] stands directly after a byte that
    chompBuffer cuts, [prev] being the byte before [s]. *)
Fixpoint noChomp (prev : byte) (s : bytes) : bool :=
  match s with
  | [] => true
  | x :: t => negb ((x =? LF) && chompable prev) && noChomp x t
  end.

(** [endsTrimmed s]: [s] ends with a byte that TrimRight cuts. *)
Definition endsTrimmed (s : bytes) : bool :=
  match rev s with
  | [] => false
  | x :: _ => gobytes.inCutset x
  end.

(** Whitespace compression as the specification words it: of every run of
    consecutive whitespace one character stays.  [squeeze prev rs] drops
    every whitespace rune of [rs] that follows a whitespace rune, [prev]
    being the rune before [rs]. *)
Fixpoint squeeze (prev : rune) (rs : list rune) : list rune :=
  match rs with
  | [] => []
  | c :: t =>
      if unicode.IsSpace prev && unicode.IsSpace c then squeeze prev t
      else c :: squeeze c t
  end.

(** [hasSpaceRun l]: two whitespace characters stand side by side in [l]. *)
Fixpoint hasSpaceRun (l : list Z) : bool :=
  match l with
  | [] => false
  | x :: t =>
      match t with
      | [] => false
      | y :: _ => (unicode.IsSpace x && unicode.IsSpace y) || hasSpaceRun t
      end
  end.

(** The bytes that writing the runes one after the other leaves. *)
Definition encodeAll (rs : list rune) : bytes := flat_map utf8.EncodeRune rs.

(** Runes that a loop accumulates as they are: no backslash, no carriage
    return, no rune that ends the token. *)
Definition plainValueRune (c : rune) : bool :=
  negb ((c =? BACKSLASH) || (c =? CR) || isValueEnd c).

Definition plainKeyRune (c : rune) : bool :=
  negb ((c =? BACKSLASH) || isKeyEnd c).

(** ** Texts of the scenarios *)

(** The text of the scenario, without and with a blank before the brace. *)
Definition doc_a_brace : list rune :=
  B "a{" ++ [LF] ++ B "  b c" ++ [LF] ++ B "}".
Definition doc_a_blank_brace : list rune :=
  B "a {" ++ [LF] ++ B "  b c" ++ [LF] ++ B "}".

(** ** sparse.go and reader.go: reading bytes up to a delimiter *)

Module onBytes.

(** [readByte(r)] on an [io.Reader] that has no ReadByte of its own: one
    Read into a one-byte array. *)
Definition readByte (r : ASCIIReader.t) : byte * option error * ASCIIReader.t :=
  match ASCIIReader.data r with
  | [] => (0, Some (ASCIIReader.ioerr r), r)
  | b :: rest => (b, None, ASCIIReader.mk rest (ASCIIReader.ioerr r))
  end.

(** The loop of [readUntil(r, delim)], [buf] being the bytes appended so
    far: it ends on the delimiter, which is appended, or on the error of
    the source. *)
Fixpoint readUntilLoop (data : bytes) (fl : error) (delim : byte) (buf : bytes)
  : bytes * option error * bytes :=
  match data with
  | [] => (buf, Some fl, [])
  | b :: rest =>
      if b =? delim then (buf ++ [b], None, rest)
      else readUntilLoop rest fl delim (buf ++ [b])
  end.

Definition readUntil (r : ASCIIReader.t) (delim : byte)
  : bytes * option error * ASCIIReader.t :=
  let '(sq, err, rest) :=
    readUntilLoop (ASCIIReader.data r) (ASCIIReader.ioerr r) delim [] in
  (sq, err, ASCIIReader.mk rest (ASCIIReader.ioerr r)).


End onBytes.

(** The bytes of a 7-bit text. *)
Definition asciiByte (c : byte) : bool := (0 <=? c) && (c <? 128).

(** ** Vocabulary of the further properties *)

(** [consumes r r']: the source [r'] is what is left of [r] after some of
    its runes have been read. *)
Definition consumes (r r' : Reader) : Prop :=
  fail r' = fail r /\ exists pre, pending r = pre ++ pending r'.

(** [parserErrs fl n]: the only errors that the continuation [n] holds are
    ErrUnexpectedNodeLeave and [fl]. *)
Fixpoint parserErrs (fl : error) (n : parser) : Prop :=
  match n with
  | errReader e => e = ErrUnexpectedNodeLeave \/ e = fl
  | readCommentFn (Some n') => parserErrs fl n'
  | _ => True
  end.

Definition nextErrs (fl : error) (n : option parser) : Prop :=
  match n with
  | Some n' => parserErrs fl n'
  | None => True
  end.

(** The parser after the calls [p.Read(r1)], [p.Read(r2)], ... *)
Fixpoint after (p : Parser) (rs : list Reader) : Parser :=
  match rs with
  | [] => p
  | r :: rs' =>
      match Read p r with
      | Some (p', _, _, _) => after p' rs'
      | None => p
      end
  end.

(** Two parser states with the same three options. *)
Definition sameConfig (p q : Parser) : Prop :=
  readComments q = readComments p
  /\ keepSeqWhitespace q = keepSeqWhitespace p
  /\ keepTrailingWhitespace q = keepTrailingWhitespace p.

(** The configurations of one kind. *)
Definition isReadComments (c : Configuration) : bool :=
  match c with ReadComments _ => true | _ => false end.
Definition isTrimWhitespace (c : Configuration) : bool :=
  match c with TrimWhitespace _ => true | _ => false end.
Definition isCompressWhitespace (c : Configuration) : bool :=
  match c with CompressWhitespace _ => true | _ => false end.

(** [clean n]: the continuation [n] holds no [errReader]. *)
Fixpoint clean (n : parser) : Prop :=
  match n with
  | errReader _ => False
  | readCommentFn (Some n') => clean n'
  | _ => True
  end.

Definition nextClean (n : option parser) : Prop :=
  match n with
  | Some n' => clean n'
  | None => True
  end.

(** The number of blocks left open by a sequence of pieces read at depth
    [d]. *)
Fixpoint openBlocks (d : Z) (pieces : list (option Piece)) : Z :=
  match pieces with
  | [] => d
  | Some (NodeEnter _) :: t => openBlocks (d + 1) t
  | Some (NodeLeave _) :: t => openBlocks (d - 1) t
  | _ :: t => openBlocks d t
  end.

(** [wellNested d pieces]: read at depth [d], no NodeLeave of [pieces]
    closes a block that is not open, and each one carries the number of
    blocks open before it. *)
Fixpoint wellNested (d : Z) (pieces : list (option Piece)) : bool :=
  match pieces with
  | [] => true
  | Some (NodeEnter _) :: t => wellNested (d + 1) t
  | Some (NodeLeave k) :: t => (k =? d) && (1 <=? d) && wellNested (d - 1) t
  | _ :: t => wellNested d t
  end.

(** The bytes that a rendered key or value gives back when read: 7-bit and
    no backslash (the tables do not escape the backslash). *)
Definition renderable (c : byte) : bool := asciiByte c && negb (c =? BACKSLASH).

(** [valueSurvives prev v]: with whitespace compressed, the reader drops
    nothing of the value [v] that follows the byte [prev]: no space or tab
    stands directly after a whitespace byte, and no LF directly after a
    byte that chompBuffer cuts. *)
Fixpoint valueSurvives (prev : byte) (v : bytes) : bool :=
  match v with
  | [] => true
  | x :: t =>
      negb (((x =? SP) || (x =? TAB)) && unicode.IsSpace prev)
      && negb ((x =? LF) && chompable prev)
      && valueSurvives x t
  end.

(** The first byte of a key that readKey reads as a key, and of a value
    that readValue reads as a value. *)
Definition startsKey (k : bytes) : bool :=
  match k with
  | [] => true
  | c :: _ => negb (c =? LBRACE) && negb (c =? RBRACE)
  end.

Definition startsValue (v : bytes) : bool :=
  match v with
  | [] => false
  | c :: _ => negb (c =? LBRACE) && negb (c =? SP) && negb (c =? TAB)
  end.



(** ** Documents *)

(** A document made of pieces: each piece rendered by [String()] on a line
    of its own. *)
Definition document (doc : list Piece) : list rune :=
  flat_map (fun pc => String_ pc ++ [LF]) doc.

(** The depth that [Parser.depth] has after the piece. *)
Definition depthAfter (d : Z) (pc : Piece) : Z :=
  match pc with
  | NodeEnter _ => d + 1
  | NodeLeave _ => d - 1
  | _ => d
  end.

(** [readsBackAt ks kt d pc]: the conditions on one rendered piece met at
    depth [d] by a parser with keepSeqWhitespace [ks] and
    keepTrailingWhitespace [kt].  A Field: the conditions of renderable keys
    and values.  A Comment: 7-bit text without LF.  A NodeEnter: no label
    (String does not escape the label, and does not separate it from the
    brace).  A NodeLeave: the depth it carries is the depth it is met at,
    which is not 0. *)
Definition readsBackAt (ks kt : bool) (d : Z) (pc : Piece) : bool :=
  match pc with
  | Field k v =>
      forallb renderable k && startsKey k
      && match v with
         | [] => true
         | _ => match k with [] => false | _ => true end
                && forallb renderable v && startsValue v
                && (ks || valueSurvives 0 v)
                && (kt || negb (endsTrimmed v))
         end
  | Comment c => forallb asciiByte c && negb (existsb (Z.eqb LF) c)
  | NodeEnter s => match s with [] => true | _ => false end
  | NodeLeave n => (0 <? d) && (n =? d)
  end.

Fixpoint readsBackFrom (ks kt : bool) (d : Z) (doc : list Piece) : bool :=
  match doc with
  | [] => true
  | pc :: t => readsBackAt ks kt d pc && readsBackFrom ks kt (depthAfter d pc) t
  end.

(** The pieces of a document that Parse returns: all of them when comments
    are read, all but the comments when they are not. *)
Definition isComment (pc : Piece) : bool :=
  match pc with Comment _ => true | _ => false end.

Definition kept (rc : bool) (doc : list Piece) : list Piece :=
  filter (fun pc => rc || negb (isComment pc)) doc.

(** * Properties *)

(** ** Small facts about the helpers *)

Lemma skipBlank_app (ws : list rune) (c : rune) (rest : list rune) (fl : error) :
  forallb isBlank ws = true -> isBlank c = false ->
  skipBlank (ws ++ c :: rest) fl = (c, None, rest).
Proof.
  intros Hws Hc. induction ws as [|w ws IH]; simpl.
  - now rewrite Hc.
  - simpl in Hws. apply andb_prop in Hws as [Hw Hws].
    rewrite Hw. now apply IH.
Qed.

Lemma ReadLoop_done fuel p r piece err :
  next p = None \/ piece <> None \/ err <> None ->
  ReadLoop fuel p r piece err = Some (p, r, piece, err).
Proof.
  intros H. destruct fuel; simpl;
    destruct (next p), piece, err; try reflexivity;
    destruct H as [H|[H|H]]; congruence.
Qed.

Lemma set_next_set_next p a b : set_next (set_next p a) b = set_next p b.
Proof. reflexivity. Qed.

Lemma set_next_same p : set_next p (next p) = p.
Proof. now destruct p. Qed.

(** ** The 8-bit reader *)

Lemma land_8_testbit (b : Z) :
  Z.land b 8 = if Z.testbit b 3 then 8 else 0.
Proof.
  apply Z.bits_inj'. intros n Hn.
  rewrite Z.land_spec.
  change 8 with (2 ^ 3) at 1. rewrite Z.pow2_bits_eqb by lia.
  destruct (Z.eqb_spec 3 n) as [<-|Hne].
  - rewrite andb_true_r. destruct (Z.testbit b 3) eqn:E; [reflexivity|].
    now rewrite Z.bits_0.
  - rewrite andb_false_r.
    destruct (Z.testbit b 3).
    + change 8 with (2 ^ 3). rewrite Z.pow2_bits_eqb by lia.
      symmetry. now apply Z.eqb_neq.
    + now rewrite Z.bits_0.
Qed.

(** C9: for every byte [b] that ReadByte delivers without error, ReadRune
    returns the replacement character with size 1 exactly when bit 0x8
    (bit number 3) of [b] is set, and [rune(b)] with size 1 otherwise. *)
Theorem C9_ReadRune_tests_bit_0x8 (r : ASCIIReader.t) (b : byte) (r' : ASCIIReader.t) :
  ASCIIReader.ReadByte r = (b, None, r') ->
  ASCIIReader.ReadRune r =
    (if Z.testbit b 3 then unicode.ReplacementChar else b, 1, None, r').
Proof.
  intros H. unfold ASCIIReader.ReadRune. rewrite H.
  rewrite land_8_testbit. destruct (Z.testbit b 3); reflexivity.
Qed.

Lemma C9_witness :
  ASCIIReader.ReadRune (ASCIIReader.mk [104; 105] EOF) =
    (unicode.ReplacementChar, 1, None, ASCIIReader.mk [105] EOF).
Proof.
  apply (C9_ReadRune_tests_bit_0x8 (ASCIIReader.mk [104; 105] EOF) 104).
  reflexivity.
Defined.

(** The byte 0x80 is passed through, the byte 0x08 is replaced. *)
Example ReadRune_0x80_0x08 :
  ASCIIReader.ReadRune (ASCIIReader.mk [128] EOF)
    = (128, 1, None, ASCIIReader.mk [] EOF)
  /\ ASCIIReader.ReadRune (ASCIIReader.mk [8] EOF)
    = (65533, 1, None, ASCIIReader.mk [] EOF).
Proof. split; reflexivity. Qed.

(** ** Scenarios *)

(** Whatever [Read] returns together with [io.EOF] is not appended by the
    loop of [Parse]. *)
Lemma ParseLoop_drops_piece_at_EOF fuel p r pieces p' r' piece :
  Read p r = Some (p', r', piece, Some EOF) ->
  ParseLoop (S fuel) p r pieces None = Some (pieces, None).
Proof.
  intros H. simpl. rewrite H. simpl. now destruct fuel.
Qed.

(** C1 (the code departs from it): on the documents [k] and [k v], whose
    last field is ended by the end of the stream, Read does return the Field
    together with io.EOF, and Parse returns an empty sequence and no error:
    the final Field is missing. *)
Theorem C1_Parse_loses_field_at_EOF :
  Read zeroParser (textReader (B "k"))
    = Some (set_next zeroParser (Some eofReader), textReader [],
            Some (Field (B "k") []), Some EOF)
  /\ Parse (textReader (B "k")) [] = Some ([], None)
  /\ Read zeroParser (textReader (B "k v"))
    = Some (set_next zeroParser (Some eofReader), textReader [],
            Some (Field (B "k") (B "v")), Some EOF)
  /\ Parse (textReader (B "k v")) [] = Some ([], None).
Proof. repeat split; reflexivity. Qed.

(** C2 as stated fails: the text [a{\n  b c\n}] does not parse to
    NodeEnter("a"), Field{"b","c"}, NodeLeave(1) without error. *)
Lemma C2_counterexample :
  Parse (textReader doc_a_brace) []
    <> Some ([Some (NodeEnter (B "a")); Some (Field (B "b") (B "c"));
              Some (NodeLeave 1)], None).
Proof. vm_compute. discriminate. Qed.

(** C2 amended: the text [a {\n  b c\n}], with a blank between key and
    brace, parses to NodeEnter("a"), Field{"b","c"}, NodeLeave(1) and no
    error; in general the value reader, finding a brace as the first
    character that is not blank, opens a block labelled by the key.  A brace
    directly after key characters does not end the key: [a{\n  b c\n}]
    parses to Field{"a{","b c"} and the error UnexpectedNodeLeave. *)
Theorem C2_block_needs_blank_before_brace :
  Parse (textReader doc_a_blank_brace) []
    = Some ([Some (NodeEnter (B "a")); Some (Field (B "b") (B "c"));
             Some (NodeLeave 1)], None)
  /\ (forall p key ws rest fl,
        forallb isBlank ws = true ->
        readValue p (mkReader (ws ++ LBRACE :: rest) fl) key
          = mkOut (set_depth p (wrapInt (depth p + 1))) (mkReader rest fl)
                  (Some readKeyFn) (Some (NodeEnter key)) None)
  /\ isKeyEnd LBRACE = false
  /\ Parse (textReader doc_a_brace) []
    = Some ([Some (Field (B "a{") (B "b c"))], Some ErrUnexpectedNodeLeave).
Proof.
  split; [reflexivity|]. split; [|split; reflexivity].
  intros p key ws rest fl Hws. unfold readValue. cbn [pending fail].
  rewrite (skipBlank_app ws LBRACE rest fl Hws eq_refl). reflexivity.
Qed.

Lemma C2_witness :
  readValue zeroParser (mkReader (B "  {x") EOF) (B "a")
    = mkOut (set_depth zeroParser 1) (mkReader (B "x") EOF)
            (Some readKeyFn) (Some (NodeEnter (B "a"))) None.
Proof.
  apply (proj1 (proj2 C2_block_needs_blank_before_brace)
           zeroParser (B "a") (B "  ") (B "x") EOF).
  reflexivity.
Defined.

(** C7 (the code departs from it): with ReadComments off, on the text
    [k#c\nx!] the first Read returns Field{"k",""}; the second reads the
    comment and returns neither a piece nor an error, an empty turn; Parse
    stores that empty turn as a nil piece between the two fields. *)
Theorem C7_empty_turn_after_key_comment :
  let text := B "k#c" ++ [LF] ++ B "x!" in
  let p1 := set_next zeroParser (Some (readCommentFn None)) in
  let r1 := textReader (B "c" ++ [LF] ++ B "x!") in
  Read zeroParser (textReader text) = Some (p1, r1, Some (Field (B "k") []), None)
  /\ Read p1 r1 = Some (zeroParser, textReader (B "x!"), None, None)
  /\ Parse (textReader text) []
    = Some ([Some (Field (B "k") []); None; Some (Field (B "x") [])], None).
Proof. repeat split; reflexivity. Qed.

(** ** Read always returns *)

Lemma skipBlank_spec rs fl c err rs' :
  skipBlank rs fl = (c, err, rs') ->
  (length rs' <= length rs)%nat
  /\ (err = None -> (length rs' < length rs)%nat)
  /\ (err <> None -> c = 0).
Proof.
  revert c err rs'. induction rs as [|x rs IH]; simpl; intros c err rs' H.
  - inversion H; subst. repeat split; auto; discriminate.
  - destruct (isBlank x).
    + apply IH in H as (H1 & H2 & H3). split; [lia|]. split; [|exact H3].
      intros He. specialize (H2 He). lia.
    + inversion H; subst. split; [lia|]. split; [lia|congruence].
Qed.

Lemma keyLoop_length keepSeq fl rs c a c2 err2 rs2 b :
  keyLoop keepSeq fl rs c a = (c2, err2, rs2, b) ->
  (length rs2 <= length rs)%nat.
Proof.
  revert c a. induction rs as [|x rs IH]; simpl; intros c a H.
  - destruct (negb (negb (escape a) && isKeyEnd c)); inversion H; subst; auto.
  - destruct (negb (negb (escape a) && isKeyEnd c)).
    + apply IH in H. lia.
    + inversion H; subst. simpl. lia.
Qed.

Lemma valueLoop_length keepSeq fl rs c a c2 err2 rs2 b :
  valueLoop keepSeq fl rs c a = (c2, err2, rs2, b) ->
  (length rs2 <= length rs)%nat.
Proof.
  revert c a. induction rs as [|x rs IH]; simpl; intros c a H.
  - destruct (negb (negb (escape a) && isValueEnd c));
      [destruct (valueStep keepSeq c a)|]; inversion H; subst; auto.
  - destruct (negb (negb (escape a) && isValueEnd c));
      [destruct (valueStep keepSeq c a)|].
    + apply IH in H. lia.
    + inversion H; subst. simpl. lia.
    + inversion H; subst. simpl. lia.
Qed.

Lemma readUntil_spec rs fl d sq err rs' :
  readUntil rs fl d = (sq, err, rs') ->
  (length rs' <= length rs)%nat
  /\ (err = None -> (length rs' < length rs)%nat).
Proof.
  revert sq err rs'. induction rs as [|x rs IH]; simpl; intros sq err rs' H.
  - inversion H; subst. split; auto; discriminate.
  - destruct (x =? d).
    + inversion H; subst. split; intros; lia.
    + destruct (readUntil rs fl d) as [[sq0 err0] rs0] eqn:E.
      inversion H; subst. destruct (IH _ _ _ eq_refl) as [H1 H2].
      split; [lia|]. intros He. specialize (H2 He). lia.
Qed.

Lemma readValue_advances p r key : advances r (readValue p r key).
Proof.
  unfold readValue, advances.
  destruct (skipBlank (pending r) (fail r)) as [[c err] rs] eqn:Es.
  apply skipBlank_spec in Es as (H1 & H2 & H3).
  assert (Hc : c <> 0 -> (length rs < length (pending r))%nat).
  { intros Hc. destruct err; [exfalso; apply Hc, H3; discriminate|auto]. }
  destruct (isFailure err) eqn:Ef; cbn [o_reader o_piece o_err pending].
  { split; [exact H1|]. intros He. subst err. discriminate. }
  destruct (Z.eqb_spec c 123) as [->|_]; cbn [enter o_reader o_piece o_err pending].
  { split; [exact H1|]. intros _. apply Hc. lia. }
  destruct (Z.eqb_spec c 35) as [->|_]; cbn [o_reader o_piece o_err pending].
  { split; [exact H1|]. intros _. apply Hc. lia. }
  destruct err as [e|]; cbn [isNil].
  - cbn [o_reader o_piece o_err pending]. split; [exact H1|]. discriminate.
  - destruct (valueLoop _ _ _ _ _) as [[[c2 err2] rs2] b] eqn:El.
    apply valueLoop_length in El. specialize (H2 eq_refl).
    cbn [o_reader o_piece o_err pending]. split; intros; lia.
Qed.

Lemma readKey_advances p r : advances r (readKey p r).
Proof.
  unfold readKey, advances.
  destruct (skipBlank (pending r) (fail r)) as [[c err] rs] eqn:Es.
  apply skipBlank_spec in Es as (H1 & H2 & H3).
  destruct (isFailure err) eqn:Ef; cbn [o_reader o_piece o_err pending].
  { split; [exact H1|]. intros He. subst err. discriminate. }
  assert (Hc : c <> 0 -> (length rs < length (pending r))%nat).
  { intros Hc. destruct err; [exfalso; apply Hc, H3; discriminate|auto]. }
  destruct (Z.eqb_spec c 125) as [->|_].
  { unfold leave. destruct (depth p =? 0); cbn [o_reader o_piece o_err pending];
      (split; [exact H1|]); intros; try discriminate; apply Hc; lia. }
  destruct (Z.eqb_spec c 123) as [->|_]; cbn [enter o_reader o_piece o_err pending].
  { split; [exact H1|]. intros _. apply Hc. lia. }
  destruct (Z.eqb_spec c 35) as [->|_]; cbn [o_reader o_piece o_err pending].
  { split; [exact H1|]. intros _. apply Hc. lia. }
  assert (Hl : forall c2 err2 rs2 key,
             (if isNil err
              then keyLoop (keepSeqWhitespace p) (fail r) rs c (mkAcc false 0 (buf p))
              else (c, err, rs, buf p)) = (c2, err2, rs2, key) ->
             (length rs2 <= length (pending r))%nat
             /\ (err2 = None -> (length rs2 < length (pending r))%nat)).
  { intros c2 err2 rs2 key H. destruct err; cbn [isNil] in H.
    - inversion H; subst. split; [exact H1|discriminate].
    - apply keyLoop_length in H. specialize (H2 eq_refl). split; intros; lia. }
  destruct (if isNil err then _ else _) as [[[c2 err2] rs2] key] eqn:El.
  destruct (Hl _ _ _ _ eq_refl) as [Hl1 Hl2].
  destruct ((Z.of_nat (length key) =? 0) && negb (isNil err2)) eqn:Ee.
  { apply andb_prop in Ee as [_ Ee]. destruct err2; [|discriminate].
    destruct (isEOF (Some e)); cbn [o_reader o_piece o_err pending];
      (split; [exact Hl1|]); discriminate. }
  destruct (isEOF err2); cbn [o_reader o_piece o_err pending].
  { split; [exact Hl1|exact Hl2]. }
  destruct (c2 =? 35); cbn [o_reader o_piece o_err pending].
  { split; [exact Hl1|exact Hl2]. }
  destruct ((c2 =? 33) || (c2 =? 59)); cbn [o_reader o_piece o_err pending].
  { split; [exact Hl1|exact Hl2]. }
  destruct (readValue_advances (set_buf p []) (mkReader rs2 (fail r)) key) as [Ha Hb].
  cbn [pending] in Ha, Hb. split; [lia|]. intros He.
  specialize (Hb He). lia.
Qed.

Lemma readComment_advances p nx r : advances r (readComment p nx r).
Proof.
  unfold readComment, advances.
  destruct (readUntil (pending r) (fail r) 10) as [[sq err] rs] eqn:Eu.
  apply readUntil_spec in Eu as [H1 H2].
  cbn [o_reader o_piece o_err pending]. split; [exact H1|exact H2].
Qed.

Lemma read_advances n p r : advances r (read n p r).
Proof.
  destruct n; cbn [read].
  - apply readKey_advances.
  - apply readComment_advances.
  - split; cbn [o_reader o_piece o_err]; [lia|discriminate].
  - split; cbn [o_reader o_piece o_err]; [lia|discriminate].
Qed.

Lemma ReadLoop_returns fuel p r piece err :
  (length (pending r) < fuel)%nat ->
  exists res, ReadLoop fuel p r piece err = Some res.
Proof.
  revert p r piece err. induction fuel as [|fuel IH]; intros p r piece err Hf; [lia|].
  cbn [ReadLoop].
  destruct (next p) as [n|]; [|eauto].
  destruct piece; [eauto|]. destruct err; [eauto|].
  destruct (read_advances n p r) as [Ha Hb].
  destruct (o_piece (read n p r)) eqn:Ep.
  { rewrite ReadLoop_done; eauto. right. left. discriminate. }
  destruct (o_err (read n p r)) eqn:Ee.
  { rewrite ReadLoop_done; eauto. right. right. discriminate. }
  apply IH. specialize (Hb eq_refl). lia.
Qed.

(** [Read] returns on every parser state and every source. *)
Lemma Read_returns p r : exists res, Read p r = Some res.
Proof. unfold Read. apply ReadLoop_returns. lia. Qed.

Lemma ReadLoop_advances fuel : forall p r p' r' piece err,
  next p <> None ->
  ReadLoop fuel p r None None = Some (p', r', piece, err) ->
  (length (pending r') <= length (pending r))%nat
  /\ (err = None -> (length (pending r') < length (pending r))%nat).
Proof.
  induction fuel as [|fuel IH]; intros p r p' r' piece err Hn H; cbn [ReadLoop] in H.
  - destruct (next p); [discriminate|contradiction].
  - destruct (next p) as [n|]; [|contradiction].
    destruct (read_advances n p r) as [Ha Hb].
    destruct (o_piece (read n p r)) as [pc|] eqn:Ep.
    { rewrite ReadLoop_done in H by (right; left; discriminate).
      inversion H; subst. split; [exact Ha|exact Hb]. }
    destruct (o_err (read n p r)) as [e|] eqn:Ee.
    { rewrite ReadLoop_done in H by (right; right; discriminate).
      inversion H; subst. split; [exact Ha|discriminate]. }
    specialize (Hb eq_refl).
    destruct (o_next (read n p r)) as [n'|] eqn:En.
    + apply IH in H; [|cbn; discriminate]. destruct H as [H1 H2].
      split; [lia|]. intros He. specialize (H2 He). lia.
    + rewrite ReadLoop_done in H by (left; reflexivity).
      inversion H; subst. split; intros; lia.
Qed.

Lemma Read_advances p r p' r' piece err :
  Read p r = Some (p', r', piece, err) ->
  (length (pending r') <= length (pending r))%nat
  /\ (err = None -> (length (pending r') < length (pending r))%nat).
Proof.
  unfold Read. apply ReadLoop_advances.
  destruct (next p) eqn:E; cbn; [rewrite E|]; discriminate.
Qed.

Lemma ParseLoop_returns fuel : forall p r pieces err,
  (length (pending r) < fuel)%nat ->
  exists res, ParseLoop fuel p r pieces err = Some res.
Proof.
  induction fuel as [|fuel IH]; intros p r pieces err Hf; [lia|].
  cbn [ParseLoop]. destruct err as [e|]; [eauto|].
  destruct (Read_returns p r) as [[[[p' r'] piece] err'] HR]. rewrite HR.
  destruct (Read_advances _ _ _ _ _ _ HR) as [H1 H2].
  destruct err' as [e|].
  - destruct fuel; cbn [ParseLoop]; eauto.
  - apply IH. specialize (H2 eq_refl). lia.
Qed.

(** [Parse] returns on every source and every configuration. *)
Lemma Parse_returns r configs : exists res, Parse r configs = Some res.
Proof. unfold Parse. apply ParseLoop_returns. lia. Qed.

(** ** Depth *)

Lemma readValue_depth p r key :
  let o := readValue p r key in
  depthMove (depth p) (o_piece o) (depth (o_parser o)).
Proof.
  unfold readValue.
  destruct (skipBlank (pending r) (fail r)) as [[c err] rs].
  destruct (isFailure err); [reflexivity|].
  destruct (c =? 123); [reflexivity|].
  destruct (c =? 35); [reflexivity|].
  destruct (if isNil err then _ else _) as [[[c2 err2] rs2] b].
  reflexivity.
Qed.

Lemma readKey_depth p r :
  let o := readKey p r in
  depthMove (depth p) (o_piece o) (depth (o_parser o)).
Proof.
  unfold readKey.
  destruct (skipBlank (pending r) (fail r)) as [[c err] rs].
  destruct (isFailure err); [reflexivity|].
  destruct (c =? 125).
  { unfold leave. destruct (Z.eqb_spec (depth p) 0); cbn; auto. }
  destruct (c =? 123); [reflexivity|].
  destruct (c =? 35); [reflexivity|].
  destruct (if isNil err then _ else _) as [[[c2 err2] rs2] key].
  destruct ((Z.of_nat (length key) =? 0) && negb (isNil err2)).
  { destruct (isEOF err2); reflexivity. }
  destruct (isEOF err2); [reflexivity|].
  destruct (c2 =? 35); [reflexivity|].
  destruct ((c2 =? 33) || (c2 =? 59)); [reflexivity|].
  apply (readValue_depth (set_buf p [])).
Qed.

Lemma readComment_depth p nx r :
  let o := readComment p nx r in
  depthMove (depth p) (o_piece o) (depth (o_parser o)).
Proof.
  unfold readComment.
  destruct (readUntil (pending r) (fail r) 10) as [[sq err] rs].
  cbn. destruct (readComments p); reflexivity.
Qed.

Lemma read_depth n p r :
  let o := read n p r in
  depthMove (depth p) (o_piece o) (depth (o_parser o)).
Proof.
  destruct n; cbn [read].
  - apply readKey_depth.
  - apply readComment_depth.
  - reflexivity.
  - reflexivity.
Qed.

Lemma ReadLoop_depth fuel p r p' r' piece err :
  ReadLoop fuel p r None None = Some (p', r', piece, err) ->
  depthMove (depth p) piece (depth p').
Proof.
  revert p r. induction fuel as [|fuel IH]; intros p r H; cbn [ReadLoop] in H.
  - destruct (next p); inversion H; subst. reflexivity.
  - destruct (next p) as [n|]; [|inversion H; subst; reflexivity].
    pose proof (read_depth n p r) as Hd. cbv zeta in Hd.
    destruct (o_piece (read n p r)) as [pc|] eqn:Ep.
    { rewrite ReadLoop_done in H by (right; left; discriminate).
      inversion H; subst. exact Hd. }
    destruct (o_err (read n p r)) as [e|] eqn:Ee.
    { rewrite ReadLoop_done in H by (right; right; discriminate).
      inversion H; subst. exact Hd. }
    apply IH in H. cbn [depthMove] in Hd.
    cbn [set_next depth] in H. rewrite Hd in H. exact H.
Qed.

Lemma Read_depth p r p' r' piece err :
  Read p r = Some (p', r', piece, err) ->
  depthMove (depth p) piece (depth p').
Proof.
  unfold Read. intros H. apply ReadLoop_depth in H.
  destruct (isNil (next p)); exact H.
Qed.

Lemma wrapInt_id z :
  - 9223372036854775808 <= z <= maxInt -> wrapInt z = z.
Proof.
  unfold wrapInt, maxInt. intros H.
  rewrite Z.mod_small by lia. lia.
Qed.

Lemma apply_depth p cfg : depth (apply p cfg) = depth p.
Proof. now destruct cfg. Qed.

Lemma Reset_depth p configs : depth (Reset p configs) = 0.
Proof.
  unfold Reset.
  assert (H : forall q, depth (fold_left apply configs q) = depth q).
  { induction configs as [|c cs IH]; intros q; simpl; [reflexivity|].
    now rewrite IH, apply_depth. }
  now rewrite H.
Qed.

Lemma steps_depth rs : forall p k,
  0 <= depth p <= k -> k + Z.of_nat (length rs) <= maxInt ->
  Forall depthStep (steps p rs) /\ length (steps p rs) = length rs.
Proof.
  induction rs as [|r rs IH]; intros p k Hd Hk; cbn [steps].
  - split; [constructor|reflexivity].
  - destruct (Read_returns p r) as [[[[p' r'] piece] err] HR].
    rewrite HR. pose proof (Read_depth _ _ _ _ _ _ HR) as Hm.
    cbn [length] in Hk. rewrite Nat2Z.inj_succ in Hk.
    assert (Hs : depthStep (depth p, piece, depth p') /\ 0 <= depth p' <= k + 1).
    { unfold depthStep. unfold maxInt in Hk.
      destruct piece as [[ | |lbl|d]|]; cbn [depthMove] in Hm.
      - rewrite Hm. lia.
      - rewrite Hm. lia.
      - rewrite wrapInt_id in Hm by (unfold maxInt; lia). lia.
      - destruct Hm as (-> & Hnz & Hm).
        rewrite wrapInt_id in Hm by (unfold maxInt; lia). lia.
      - rewrite Hm. lia. }
    destruct Hs as [Hs Hd'].
    destruct (IH p' (k + 1) Hd') as [IH1 IH2]; [lia|].
    split; [constructor; assumption|cbn [length]; now rewrite IH2].
Qed.

(** C4: along every sequence of Read calls on a freshly reset parser, if
    fewer than 2^63 of them, whatever source is passed at each call: the
    depth is never negative; a call that returns NodeEnter raises it by 1; a
    call that returns NodeLeave lowers it by 1, and the NodeLeave carries
    the depth before the call, which is at least 1; any other call leaves
    it as it is.  Every call returns. *)
Theorem C4_depth_discipline (p0 : Parser) (configs : list Configuration)
    (rs : list Reader) :
  Z.of_nat (length rs) <= maxInt ->
  Forall depthStep (steps (Reset p0 configs) rs)
  /\ length (steps (Reset p0 configs) rs) = length rs.
Proof.
  intros H. apply (steps_depth rs (Reset p0 configs) 0).
  - rewrite Reset_depth. lia.
  - lia.
Qed.

Lemma C4_witness :
  Forall depthStep
    (steps (Reset zeroParser [])
       [textReader (B "a { b!"); textReader (B " b! } }"); textReader (B " } }");
        textReader (B " }")])
  /\ length
       (steps (Reset zeroParser [])
          [textReader (B "a { b!"); textReader (B " b! } }");
           textReader (B " } }"); textReader (B " }")]) = 4%nat.
Proof.
  apply (C4_depth_discipline zeroParser []
           [textReader (B "a { b!"); textReader (B " b! } }");
            textReader (B " } }"); textReader (B " }")]).
  unfold maxInt. simpl. lia.
Defined.

(** ** Trimming *)

Lemma dropWhile_spec f l :
  exists t, l = t ++ dropWhile f l /\ forallb f t = true
            /\ (forall x v, dropWhile f l = x :: v -> f x = false).
Proof.
  induction l as [|x l (t & E & Ht & Hx)]; simpl.
  - exists []. repeat split; auto. discriminate.
  - destruct (f x) eqn:Ef.
    + exists (x :: t). simpl. rewrite Ef, Ht. repeat split; auto. now f_equal.
    + exists []. repeat split; auto. intros y v Hy. now inversion Hy; subst.
Qed.

Lemma dropWhileEnd_spec f l :
  exists t, l = dropWhileEnd f l ++ t /\ forallb f t = true
            /\ (forall v x, dropWhileEnd f l = v ++ [x] -> f x = false).
Proof.
  unfold dropWhileEnd.
  destruct (dropWhile_spec f (rev l)) as (t & E & Ht & Hx).
  exists (rev t). split; [|split].
  - rewrite <- rev_app_distr, <- E. now rewrite rev_involutive.
  - rewrite forallb_forall in *. intros x Hin. apply Ht. now apply in_rev.
  - intros v x Hv. apply (Hx x (rev v)).
    rewrite <- (rev_involutive (dropWhile f (rev l))), Hv.
    now rewrite rev_app_distr.
Qed.

(** The cut is the only one: a buffer splits in one way only into a part that
    does not end with a byte of the set and a run of bytes of the set. *)
Lemma trailing_run_unique f (v1 t1 v2 t2 : list Z) :
  v1 ++ t1 = v2 ++ t2 ->
  forallb f t1 = true -> forallb f t2 = true ->
  (forall v x, v1 = v ++ [x] -> f x = false) ->
  (forall v x, v2 = v ++ [x] -> f x = false) ->
  v1 = v2.
Proof.
  revert v2. induction v1 as [|a v1 IH]; intros v2 E H1 H2 N1 N2.
  - destruct v2 as [|b v2]; [reflexivity|]. exfalso.
    destruct (exists_last (l := b :: v2)) as (v & x & Ev); [discriminate|].
    rewrite Ev in E. cbn [app] in E. subst t1.
    rewrite !forallb_app in H1. cbn [forallb] in H1.
    rewrite (N2 v x Ev) in H1. cbn in H1.
    rewrite andb_false_r in H1. discriminate.
  - destruct v2 as [|b v2].
    + exfalso.
      destruct (exists_last (l := a :: v1)) as (v & x & Ev); [discriminate|].
      rewrite Ev in E. cbn [app] in E. subst t2.
      rewrite !forallb_app in H2. cbn [forallb] in H2.
      rewrite (N1 v x Ev) in H2. cbn in H2.
      rewrite andb_false_r in H2. discriminate.
    + simpl in E. inversion E; subst. f_equal.
      apply IH; auto.
      * intros v x Ev. apply (N1 (b :: v) x). now rewrite Ev.
      * intros v x Ev. apply (N2 (b :: v) x). now rewrite Ev.
Qed.



(** ** Carriage returns in values *)

Lemma valueLoop_unfold keepSeq fl rs c a :
  valueLoop keepSeq fl rs c a =
    if negb (negb (escape a) && isValueEnd c) then
      match valueStep keepSeq c a with
      | None => (c, None, rs, abuf a)
      | Some a' => valueTail keepSeq fl rs a'
      end
    else (c, None, rs, abuf a).
Proof. destruct rs; reflexivity. Qed.

Lemma keyLoop_unfold keepSeq fl rs c a :
  keyLoop keepSeq fl rs c a =
    if negb (negb (escape a) && isKeyEnd c)
    then keyTail keepSeq fl rs (keyStep keepSeq c a)
    else (c, None, rs, abuf a).
Proof. destruct rs; reflexivity. Qed.

Lemma valueTail_noCR keepSeq fl rs : forall a,
  valueTail keepSeq fl (noCR rs) a = onRest noCR (valueTail keepSeq fl rs a).
Proof.
  induction rs as [|x rs IH]; intros a; [reflexivity|].
  cbn [noCR filter]. fold (noCR rs).
  destruct (Z.eqb_spec x 13) as [->|Hx]; cbn [negb].
  - rewrite IH. cbn [valueTail]. rewrite valueLoop_unfold.
    replace (isValueEnd 13) with false by reflexivity.
    rewrite andb_false_r. reflexivity.
  - cbn [valueTail]. rewrite !valueLoop_unfold.
    destruct (negb (negb (escape a) && isValueEnd x)); [|reflexivity].
    destruct (valueStep keepSeq x a) as [a'|]; [apply IH|reflexivity].
Qed.

Lemma skipBlank_noCR rs fl :
  skipBlank (noCR rs) fl =
    let '(c, err, rs') := skipBlank rs fl in (c, err, noCR rs').
Proof.
  induction rs as [|x rs IH]; [reflexivity|].
  cbn [noCR filter skipBlank]. fold (noCR rs).
  destruct (Z.eqb_spec x 13) as [->|Hx]; cbn [negb].
  - exact IH.
  - cbn [skipBlank]. destruct (isBlank x); [exact IH|reflexivity].
Qed.

Lemma skipBlank_not_CR rs fl c err rs' :
  skipBlank rs fl = (c, err, rs') -> c <> 13.
Proof.
  revert c err rs'. induction rs as [|x rs IH]; cbn [skipBlank]; intros c err rs' H.
  - inversion H. lia.
  - destruct (isBlank x) eqn:Eb; [now apply IH in H|].
    inversion H; subst. intros ->. discriminate.
Qed.

(** Erasing the carriage returns of the source changes nothing to what
    readValue returns, but for the carriage returns of the text it leaves
    unread. *)
Lemma readValue_eraseCR p r key :
  readValue p (eraseCR r) key = eraseOut (readValue p r key).
Proof.
  unfold readValue, eraseCR. cbn [pending fail].
  rewrite skipBlank_noCR.
  destruct (skipBlank (pending r) (fail r)) as [[c err] rs] eqn:Es.
  apply skipBlank_not_CR in Es.
  destruct (isFailure err); [reflexivity|].
  destruct (c =? 123); [reflexivity|].
  destruct (c =? 35); [reflexivity|].
  destruct err as [e|]; cbn [isNil]; [reflexivity|].
  change (valueLoop (keepSeqWhitespace p) (fail r) (noCR rs) c (mkAcc false 0 (buf p)))
    with (valueTail (keepSeqWhitespace p) (fail r) (c :: noCR rs) (mkAcc false 0 (buf p))).
  replace (c :: noCR rs) with (noCR (c :: rs)).
  2:{ cbn [noCR filter]. destruct (Z.eqb_spec c 13); [contradiction|reflexivity]. }
  rewrite valueTail_noCR. cbn [valueTail].
  destruct (valueLoop _ _ rs c _) as [[[c2 err2] rs2] b].
  reflexivity.
Qed.

Lemma lor_high_bit_not_CR a x : Z.testbit a 7 = true -> Z.lor a x <> 13.
Proof.
  intros Ha E.
  assert (H : Z.testbit (Z.lor a x) 7 = true) by (now rewrite Z.lor_spec, Ha).
  rewrite E in H. discriminate.
Qed.

Lemma EncodeRune_no_CR c : c <> 13 -> ~ In 13 (utf8.EncodeRune c).
Proof.
  intros Hc. unfold utf8.EncodeRune.
  destruct ((0 <=? c) && (c <? 128)).
  { intros [H|[]]. congruence. }
  destruct ((0 <=? c) && (c <=? 2047)).
  { intros [H|[H|[]]]; revert H; now apply lor_high_bit_not_CR. }
  match goal with |- context [if ?b then utf8.RuneError else c] =>
    generalize (if b then utf8.RuneError else c) end.
  intros z. destruct (z <=? 65535).
  - intros [H|[H|[H|[]]]]; revert H; now apply lor_high_bit_not_CR.
  - intros [H|[H|[H|[H|[]]]]]; revert H; now apply lor_high_bit_not_CR.
Qed.

Lemma dropWhileEnd_incl f l x : In x (dropWhileEnd f l) -> In x l.
Proof.
  destruct (dropWhileEnd_spec f l) as (t & E & _).
  intros H. rewrite E. apply in_or_app. now left.
Qed.

Lemma unescape_CR c : unescape c = 13 -> c = 114 \/ c = 13.
Proof.
  unfold unescape.
  repeat match goal with
         | |- context [?a =? ?b] => destruct (Z.eqb_spec a b)
         end; intros; lia.
Qed.

Lemma valueStep_no_CR keepSeq c a a' :
  ~ In 13 (abuf a) -> (escape a = true -> c <> 114) ->
  valueStep keepSeq c a = Some a' -> ~ In 13 (abuf a').
Proof.
  intros Hb Hr. unfold valueStep.
  destruct (Z.eqb_spec c 13) as [->|Hc]; [now intros [= <-]|].
  destruct (negb (escape a) && (c =? 92)); [now intros [= <-]|].
  destruct (negb (escape a) && (c =? 35)); [discriminate|].
  destruct (escape a).
  - destruct (Z.eqb_spec c 10) as [->|Hn]; intros [= <-]; cbn [abuf];
      unfold gobytes.WriteRune; intros Hin; apply in_app_or in Hin as [Hin|Hin].
    + apply Hb. destruct (negb keepSeq); [|assumption].
      now apply dropWhileEnd_incl in Hin.
    + now apply EncodeRune_no_CR in Hin.
    + now apply Hb.
    + revert Hin. apply EncodeRune_no_CR. intros E.
      apply unescape_CR in E as [E|E]; [now apply Hr|contradiction].
  - destruct (negb keepSeq && unicode.IsSpace (last a) && unicode.IsSpace c);
      intros [= <-]; [assumption|]. cbn [abuf]. unfold gobytes.WriteRune.
    intros Hin; apply in_app_or in Hin as [Hin|Hin]; [now apply Hb|].
    now apply EncodeRune_no_CR in Hin.
Qed.

Lemma valueStep_escape keepSeq c a a' :
  valueStep keepSeq c a = Some a' ->
  escape a' = true -> c = 92 \/ c = 13.
Proof.
  unfold valueStep.
  destruct (Z.eqb_spec c 13) as [->|Hc]; [auto|].
  destruct (escape a) eqn:Ee; cbn [negb andb].
  - destruct (c =? 10); intros [= <-]; discriminate.
  - destruct (Z.eqb_spec c 92) as [->|H92]; [auto|].
    destruct (c =? 35); [discriminate|].
    destruct (negb keepSeq && unicode.IsSpace (last a) && unicode.IsSpace c);
      intros [= <-]; cbn [escape]; congruence.
Qed.

Lemma hasPair_tail a b x l : hasPair a b (x :: l) = false -> hasPair a b l = false.
Proof.
  cbn [hasPair]. destruct l as [|y l]; [reflexivity|].
  intros H. now apply orb_false_elim in H as [_ H].
Qed.

Lemma hasPair_suffix a b ws l : hasPair a b (ws ++ l) = false -> hasPair a b l = false.
Proof.
  induction ws as [|w ws IH]; [auto|].
  intros H. apply IH. now apply hasPair_tail in H.
Qed.

(** On a text without carriage return and without a backslash directly
    followed by [r], the value loop writes no carriage return. *)
Lemma valueTail_no_CR keepSeq fl rs : forall a,
  ~ In 13 rs -> hasPair 92 114 rs = false ->
  (escape a = true -> forall x t, rs = x :: t -> x <> 114) ->
  ~ In 13 (abuf a) ->
  forall c2 err2 rs2 b,
    valueTail keepSeq fl rs a = (c2, err2, rs2, b) -> ~ In 13 b.
Proof.
  induction rs as [|x rs IH]; intros a Hcr Hp He Hb c2 err2 rs2 b; cbn [valueTail].
  - now intros [= _ _ _ <-].
  - rewrite valueLoop_unfold.
    destruct (negb (negb (escape a) && isValueEnd x)); [|now intros [= _ _ _ <-]].
    destruct (valueStep keepSeq x a) as [a'|] eqn:Es; [|now intros [= _ _ _ <-]].
    apply IH.
    + intros Hin. apply Hcr. now right.
    + now apply hasPair_tail in Hp.
    + intros Ha' y t ->.
      destruct (valueStep_escape _ _ _ _ Es Ha') as [->| ->].
      * cbn [hasPair] in Hp. apply orb_false_elim in Hp as [Hp _].
        rewrite Z.eqb_refl in Hp. now apply Z.eqb_neq in Hp.
      * exfalso. apply Hcr. now left.
    + apply (valueStep_no_CR keepSeq x a); auto.
      intros Ea. now apply (He Ea x rs).
Qed.

Lemma skipBlank_suffix rs fl c rs' :
  skipBlank rs fl = (c, None, rs') -> exists ws, rs = ws ++ c :: rs'.
Proof.
  induction rs as [|x rs IH]; cbn [skipBlank]; [discriminate|].
  destruct (isBlank x).
  - intros H. destruct (IH H) as [ws ->]. now exists (x :: ws).
  - intros [= -> ->]. now exists [].
Qed.

Lemma noCR_no_CR rs : ~ In 13 (noCR rs).
Proof.
  unfold noCR. intros H. apply filter_In in H as [_ H]. discriminate.
Qed.

Lemma valueString_incl k b x : In x (valueString k b) -> In x b.
Proof.
  unfold valueString. destruct (0 <? Z.of_nat (length b)); [|intros []].
  destruct (negb k); [|auto]. apply dropWhileEnd_incl.
Qed.

(** C10: in value accumulation a carriage return of the source is dropped
    whatever the configuration and whatever precedes it.  Erasing all
    carriage returns from the source changes neither the piece, nor the
    error, nor the next state, nor the parser that readValue returns (so a
    carriage return is never written, never ends the value and never cancels
    a pending backslash: backslash CR LF reads as backslash LF); and when the
    text, its carriage returns erased, has no backslash directly followed by
    [r], the value of the returned Field holds no carriage return. *)
Theorem C10_value_ignores_CR (p : Parser) (r : Reader) (key : list Z) :
  readValue p (eraseCR r) key = eraseOut (readValue p r key)
  /\ (~ In CR (buf p) ->
      hasPair BACKSLASH 114 (noCR (pending r)) = false ->
      forall k v, o_piece (readValue p r key) = Some (Field k v) -> ~ In CR v).
Proof.
  split; [apply readValue_eraseCR|].
  intros Hb Hp k v.
  replace (o_piece (readValue p r key)) with (o_piece (readValue p (eraseCR r) key))
    by (now rewrite readValue_eraseCR).
  unfold readValue, eraseCR. cbn [pending fail].
  destruct (skipBlank (noCR (pending r)) (fail r)) as [[c err] rs] eqn:Es.
  destruct (isFailure err); [discriminate|].
  destruct (c =? 123); [discriminate|].
  destruct (c =? 35); [intros [= _ <-]; auto|].
  destruct err as [e|]; cbn [isNil o_piece].
  - intros [= _ <-] Hin. now apply valueString_incl in Hin.
  - destruct (valueLoop _ _ rs c _) as [[[c2 err2] rs2] b] eqn:El.
    intros [= _ <-] Hin. apply valueString_incl in Hin. revert Hin.
    destruct (skipBlank_suffix _ _ _ _ Es) as [ws Ews].
    apply (valueTail_no_CR (keepSeqWhitespace p) (fail r) (c :: rs)
             (mkAcc false 0 (buf p))) with (c2 := c2) (err2 := err2) (rs2 := rs2).
    + intros Hin. apply (noCR_no_CR (pending r)). rewrite Ews.
      apply in_or_app. now right.
    + apply (hasPair_suffix _ _ ws). now rewrite <- Ews.
    + discriminate.
    + exact Hb.
    + exact El.
Qed.

Lemma C10_witness :
  readValue zeroParser (eraseCR (textReader (B "a\" ++ [CR; LF] ++ B "b" ++ [CR; LF]))) (B "k")
    = eraseOut (readValue zeroParser (textReader (B "a\" ++ [CR; LF] ++ B "b" ++ [CR; LF])) (B "k"))
  /\ ~ In CR (B "a" ++ [LF] ++ B "b").
Proof.
  destruct (C10_value_ignores_CR zeroParser
              (textReader (B "a\" ++ [CR; LF] ++ B "b" ++ [CR; LF])) (B "k"))
    as [H1 H2].
  split; [exact H1|].
  apply (H2 (fun H => H) eq_refl (B "k")). reflexivity.
Defined.

(** Backslash CR LF continues the line as backslash LF does. *)
Example backslash_CR_LF :
  o_piece (readValue zeroParser (textReader (B "a\" ++ [CR; LF] ++ B "b" ++ [CR; LF])) (B "k"))
    = Some (Field (B "k") (B "a" ++ [LF] ++ B "b"))
  /\ o_piece (readValue zeroParser (textReader (B "a\" ++ [LF] ++ B "b" ++ [LF])) (B "k"))
    = Some (Field (B "k") (B "a" ++ [LF] ++ B "b")).
Proof. split; reflexivity. Qed.

(** ** Escaping and decoding *)

Lemma keyEscaper_cases x :
  keyEscaper x <> None -> In x [32; 35; 59; 8; 12; 10; 13; 9; 11; 0; 33].
Proof.
  unfold keyEscaper.
  repeat match goal with
         | |- context [?a =? ?b] => destruct (Z.eqb_spec a b) as [->|?]
         end; cbn; intros H; try tauto.
Qed.

Lemma valueEscaper_cases x :
  valueEscaper x <> None -> In x [35; 59; 8; 12; 10; 13; 11; 0].
Proof.
  unfold valueEscaper.
  repeat match goal with
         | |- context [?a =? ?b] => destruct (Z.eqb_spec a b) as [->|?]
         end; cbn; intros H; try tauto.
Qed.

Lemma keyTail_escaped_byte keepSeq fl x R l b :
  keyEscaper x <> None ->
  keyTail keepSeq fl (Replace keyEscaper [x] ++ R) (mkAcc false l b)
    = keyTail keepSeq fl R (mkAcc false x (b ++ [x])).
Proof.
  intros Hx. apply keyEscaper_cases in Hx. cbn [In] in Hx.
  repeat destruct Hx as [<-|Hx]; try contradiction;
    cbn [Replace keyEscaper Z.eqb Pos.eqb app keyTail];
    rewrite keyLoop_unfold; cbn; rewrite keyLoop_unfold; reflexivity.
Qed.

Lemma Replace_cons table x s :
  Replace table (x :: s) = Replace table [x] ++ Replace table s.
Proof.
  cbn [Replace]. destruct (table x); [now rewrite app_nil_r|reflexivity].
Qed.

(** The key loop run over the escaped rendering of [s] appends [s]. *)
Lemma keyTail_escaped keepSeq fl t rest s : forall l b,
  inTable keyEscaper s -> isKeyEnd t = true ->
  keyTail keepSeq fl (Replace keyEscaper s ++ t :: rest) (mkAcc false l b)
    = (t, None, rest, b ++ s).
Proof.
  induction s as [|x s IH]; intros l b Hs Ht.
  - cbn [Replace app keyTail]. rewrite keyLoop_unfold. cbn [escape negb andb].
    rewrite Ht. cbn. now rewrite app_nil_r.
  - inversion Hs as [|? ? Hx Hs']; subst.
    rewrite Replace_cons, <- app_assoc, keyTail_escaped_byte by assumption.
    rewrite IH by assumption. now rewrite <- app_assoc.
Qed.

Lemma dropWhileEnd_id f l :
  match rev l with [] => false | x :: _ => f x end = false ->
  dropWhileEnd f l = l.
Proof.
  unfold dropWhileEnd. intros H.
  destruct (rev l) as [|x t] eqn:E.
  - apply (f_equal (@rev Z)) in E. rewrite rev_involutive in E. now subst.
  - cbn [dropWhile]. rewrite H. now rewrite <- E, rev_involutive.
Qed.

Lemma chompBuffer_id b : chompable (List.last b 0) = false -> chompBuffer b = b.
Proof.
  intros H. apply dropWhileEnd_id.
  destruct (rev b) as [|x t] eqn:E; [reflexivity|].
  apply (f_equal (@rev Z)) in E. rewrite rev_involutive in E. subst b.
  cbn [rev] in H. now rewrite last_last in H.
Qed.

Lemma valueTail_escaped_byte keepSeq fl x R l b :
  valueEscaper x <> None ->
  keepSeq = true \/ negb ((x =? 10) && chompable (List.last b 0)) = true ->
  valueTail keepSeq fl (Replace valueEscaper [x] ++ R) (mkAcc false l b)
    = valueTail keepSeq fl R (mkAcc false x (b ++ [x])).
Proof.
  intros Hx Hc. apply valueEscaper_cases in Hx. cbn [In] in Hx.
  repeat destruct Hx as [<-|Hx]; try contradiction;
    cbn [Replace valueEscaper Z.eqb Pos.eqb app valueTail];
    rewrite valueLoop_unfold; cbn; rewrite valueLoop_unfold; try reflexivity.
  cbn. destruct Hc as [->|Hc]; [reflexivity|].
  cbn [Z.eqb Pos.eqb andb] in Hc. apply negb_true_iff in Hc.
  change (rev (dropWhile chompable (rev b))) with (chompBuffer b).
  rewrite chompBuffer_id by assumption. now destruct keepSeq.
Qed.

(** The value loop run over the escaped rendering of [s] appends [s], unless
    whitespace is compressed and some LF of [s] follows a byte that
    chompBuffer cuts. *)
Lemma valueTail_escaped keepSeq fl t rest s : forall l b,
  inTable valueEscaper s -> isValueEnd t = true ->
  keepSeq = true \/ noChomp (List.last b 0) s = true ->
  valueTail keepSeq fl (Replace valueEscaper s ++ t :: rest) (mkAcc false l b)
    = (t, None, rest, b ++ s).
Proof.
  induction s as [|x s IH]; intros l b Hs Ht Hc.
  - cbn [Replace app valueTail]. rewrite valueLoop_unfold. cbn [escape negb andb].
    rewrite Ht. cbn. now rewrite app_nil_r.
  - inversion Hs as [|? ? Hx Hs']; subst.
    rewrite Replace_cons, <- app_assoc, valueTail_escaped_byte; [|assumption|].
    + rewrite IH; [now rewrite <- app_assoc|assumption|assumption|].
      destruct Hc as [Hc|Hc]; [now left|right].
      cbn [noChomp] in Hc. apply andb_prop in Hc as [_ Hc].
      now rewrite last_last.
    + destruct Hc as [Hc|Hc]; [now left|right].
      cbn [noChomp] in Hc. now apply andb_prop in Hc as [Hc _].
Qed.

Lemma valueString_id keep s :
  keep = true \/ endsTrimmed s = false -> valueString keep s = s.
Proof.
  intros H. unfold valueString. destruct s as [|x s]; [reflexivity|].
  replace (0 <? Z.of_nat (length (x :: s))) with true
    by (symmetry; apply Z.ltb_lt; cbn [length]; lia).
  destruct H as [->|H]; [reflexivity|].
  destruct keep; [reflexivity|]. cbn [negb].
  now apply dropWhileEnd_id.
Qed.

(** C5 as stated fails for the value table: with the default configuration
    the escaped rendering of form feed, LF, hash is not decoded back to it
    (the form feed is cut by the continuation). *)
Lemma C5_counterexample :
  ~ (forall s, inTable valueEscaper s ->
       o_piece (readValue (NewParser [])
                  (textReader (Replace valueEscaper s ++ [SEMI])) (B "k"))
         = Some (Field (B "k") s)).
Proof.
  intros H. specialize (H [FF; LF; HASH]).
  assert (Hs : inTable valueEscaper [FF; LF; HASH])
    by (repeat constructor; discriminate).
  specialize (H Hs). vm_compute in H. discriminate.
Qed.

(** C5 amended: for every string [s] over the alphabet of the key table,
    whatever the configuration, the key reader decodes the escaped rendering
    of [s] back to [s]; for every string [s] over the alphabet of the value
    table the value reader decodes its escaped rendering back to [s]
    provided that whitespace compression is off or no LF of [s] directly
    follows a form feed, CR or vertical tab, and that trailing whitespace is
    kept or [s] does not end with LF or CR. *)
Theorem C5_escape_round_trip (p : Parser) (s rest : list Z) (fl : error) :
  buf p = [] ->
  (inTable keyEscaper s ->
   next p = None \/ next p = Some readKeyFn ->
   Read p (mkReader (Replace keyEscaper s ++ BANG :: rest) fl)
     = Some (set_next p (Some readKeyFn), mkReader rest fl,
             Some (Field s []), None))
  /\ (inTable valueEscaper s ->
      keepSeqWhitespace p = true \/ noChomp 0 s = true ->
      keepTrailingWhitespace p = true \/ endsTrimmed s = false ->
      forall key,
        readValue p (mkReader (Replace valueEscaper s ++ SEMI :: rest) fl) key
          = mkOut p (mkReader rest fl) (Some readKeyFn) (Some (Field key s)) None).
Proof.
  intros Hbuf. split.
  - intros Hs Hn.
    assert (Hk : forall n, readKey (set_next p n)
                   (mkReader (Replace keyEscaper s ++ BANG :: rest) fl)
                 = mkOut (set_next p n) (mkReader rest fl) (Some readKeyFn)
                         (Some (Field s [])) None).
    { intros n. unfold readKey. cbn [pending fail].
      assert (Hhd : exists c R, Replace keyEscaper s ++ BANG :: rest = c :: R
                                /\ (c = 92 \/ c = 33)).
      { destruct s as [|x s]; [cbn; eauto|].
        inversion Hs as [|? ? Hx _]; subst. apply keyEscaper_cases in Hx.
        cbn [In] in Hx. rewrite Replace_cons.
        repeat destruct Hx as [<-|Hx]; try contradiction; cbn; eauto. }
      destruct Hhd as (c & R & ER & Hc).
      assert (Hsk : skipBlank (Replace keyEscaper s ++ BANG :: rest) fl = (c, None, R)).
      { rewrite ER. destruct Hc as [->| ->]; reflexivity. }
      rewrite Hsk. cbn [isFailure isNil].
      replace (c =? 125) with false by (destruct Hc as [->| ->]; reflexivity).
      replace (c =? 123) with false by (destruct Hc as [->| ->]; reflexivity).
      replace (c =? 35) with false by (destruct Hc as [->| ->]; reflexivity).
      change (keyLoop (keepSeqWhitespace (set_next p n)) fl R c
                (mkAcc false 0 (buf (set_next p n))))
        with (keyTail (keepSeqWhitespace (set_next p n)) fl (c :: R)
                (mkAcc false 0 (buf (set_next p n)))).
      rewrite <- ER, keyTail_escaped by (assumption || reflexivity).
      cbn [set_next buf]. rewrite Hbuf. cbn [app].
      destruct s as [|x s]; cbn; unfold set_buf, set_next; cbn; now rewrite Hbuf. }
    unfold Read. destruct Hn as [Hn|Hn]; rewrite Hn; cbn [isNil].
    + cbn [ReadLoop next set_next read]. rewrite Hk.
      cbn [o_parser o_next o_reader o_piece o_err].
      rewrite set_next_set_next. apply ReadLoop_done. right. left. discriminate.
    + cbn [ReadLoop]. rewrite Hn. cbn [read].
      specialize (Hk (next p)). rewrite set_next_same in Hk. rewrite Hk.
      cbn [o_parser o_next o_reader o_piece o_err].
      apply ReadLoop_done. right. left. discriminate.
  - intros Hs Hc Ht key. unfold readValue. cbn [pending fail].
    assert (Hhd : exists c R, Replace valueEscaper s ++ SEMI :: rest = c :: R
                              /\ (c = 92 \/ c = 59)).
    { destruct s as [|x s]; [cbn; eauto|].
      inversion Hs as [|? ? Hx _]; subst. apply valueEscaper_cases in Hx.
      cbn [In] in Hx. rewrite Replace_cons.
      repeat destruct Hx as [<-|Hx]; try contradiction; cbn; eauto. }
    destruct Hhd as (c & R & ER & Hcc).
    assert (Hsk : skipBlank (Replace valueEscaper s ++ SEMI :: rest) fl = (c, None, R)).
    { rewrite ER. destruct Hcc as [->| ->]; reflexivity. }
    rewrite Hsk. cbn [isFailure isNil].
    replace (c =? 123) with false by (destruct Hcc as [->| ->]; reflexivity).
    replace (c =? 35) with false by (destruct Hcc as [->| ->]; reflexivity).
    change (valueLoop (keepSeqWhitespace p) fl R c (mkAcc false 0 (buf p)))
      with (valueTail (keepSeqWhitespace p) fl (c :: R) (mkAcc false 0 (buf p))).
    rewrite <- ER, Hbuf, valueTail_escaped; [|assumption|reflexivity|exact Hc].
    cbn [app isEOF Z.eqb Pos.eqb]. rewrite valueString_id by assumption.
    f_equal. destruct p; cbn in *; now subst.
Qed.

Lemma C5_witness :
  Read zeroParser (mkReader (Replace keyEscaper [SP; LF; BANG; TAB; TAB] ++ BANG :: B "x") EOF)
    = Some (set_next zeroParser (Some readKeyFn), mkReader (B "x") EOF,
            Some (Field [SP; LF; BANG; TAB; TAB] []), None)
  /\ readValue zeroParser
       (mkReader (Replace valueEscaper [HASH; LF; VT; VT; NUL] ++ SEMI :: B "x") EOF) (B "k")
    = mkOut zeroParser (mkReader (B "x") EOF) (Some readKeyFn)
            (Some (Field (B "k") [HASH; LF; VT; VT; NUL])) None.
Proof.
  split.
  - apply (proj1 (C5_escape_round_trip zeroParser [SP; LF; BANG; TAB; TAB]
                    (B "x") EOF eq_refl)).
    + repeat constructor; discriminate.
    + left. reflexivity.
  - apply (proj2 (C5_escape_round_trip zeroParser [HASH; LF; VT; VT; NUL]
                    (B "x") EOF eq_refl)).
    + repeat constructor; discriminate.
    + right. reflexivity.
    + right. reflexivity.
Defined.

(** A Field rendered by [String] and read back. *)
Example Field_String_read_back :
  String_ (Field (B "a b!") (B "x;y#z")) = B "a\ b\! x\;y\#z"
  /\ Read zeroParser (textReader (String_ (Field (B "a b!") (B "x;y#z")) ++ [LF]))
     = Some (set_next zeroParser (Some readKeyFn), textReader [],
             Some (Field (B "a b!") (B "x;y#z")), None)
  /\ Read zeroParser (textReader (String_ (Field (B "flag") []) ++ [LF]))
     = Some (set_next zeroParser (Some readKeyFn), textReader [LF],
             Some (Field (B "flag") []), None).
Proof. repeat split; reflexivity. Qed.

(** ** Whitespace compression *)

Lemma squeeze_no_run rs : forall prev,
  hasSpaceRun (squeeze prev rs) = false
  /\ (unicode.IsSpace prev = true ->
      forall x t, squeeze prev rs = x :: t -> unicode.IsSpace x = false).
Proof.
  induction rs as [|c rs IH]; intros prev; cbn [squeeze].
  - split; [reflexivity|discriminate].
  - destruct (unicode.IsSpace prev && unicode.IsSpace c) eqn:E.
    + apply IH.
    + destruct (IH c) as [H1 H2]. split.
      * cbn [hasSpaceRun]. destruct (squeeze c rs) as [|y t] eqn:Es; [reflexivity|].
        rewrite H1, orb_false_r.
        destruct (unicode.IsSpace c) eqn:Ec; [|reflexivity].
        cbn [andb]. now apply (H2 eq_refl y t).
      * intros Hp x t [= <- _]. rewrite Hp in E. exact E.
Qed.

Lemma squeeze_keeps_others rs : forall prev,
  filter (fun c => negb (unicode.IsSpace c)) (squeeze prev rs)
    = filter (fun c => negb (unicode.IsSpace c)) rs.
Proof.
  induction rs as [|c rs IH]; intros prev; cbn [squeeze filter]; [reflexivity|].
  destruct (unicode.IsSpace prev && unicode.IsSpace c) eqn:E.
  - apply andb_prop in E as [_ ->]. cbn [negb]. apply IH.
  - cbn [filter]. now rewrite IH.
Qed.

Lemma valueTail_plain keepSeq fl t rest text : forall a,
  escape a = false -> forallb plainValueRune text = true ->
  isValueEnd t = true ->
  valueTail keepSeq fl (text ++ t :: rest) a
    = (t, None, rest,
       abuf a ++ encodeAll (if keepSeq then text else squeeze (last a) text)).
Proof.
  induction text as [|x text IH]; intros a He Hp Ht.
  - cbn [app valueTail]. rewrite valueLoop_unfold, He, Ht.
    cbn. destruct keepSeq; now rewrite app_nil_r.
  - cbn [forallb] in Hp. apply andb_prop in Hp as [Hx Hp].
    unfold plainValueRune in Hx. apply negb_true_iff in Hx.
    apply orb_false_elim in Hx as [Hx Hend].
    apply orb_false_elim in Hx as [H92 H13].
    assert (H35 : (x =? 35) = false).
    { unfold isValueEnd in Hend. now apply orb_false_elim in Hend as [_ ?]. }
    cbn [app valueTail]. rewrite valueLoop_unfold, He, Hend.
    unfold valueStep. rewrite H13, He, H92, H35. cbn [negb andb].
    destruct keepSeq; cbn [negb andb].
    + rewrite IH by auto. cbn [abuf encodeAll flat_map].
      unfold gobytes.WriteRune. now rewrite <- app_assoc.
    + cbn [squeeze].
      destruct (unicode.IsSpace (last a) && unicode.IsSpace x).
      * now rewrite IH by auto.
      * rewrite IH by auto. cbn [abuf last encodeAll flat_map].
        unfold gobytes.WriteRune. now rewrite <- app_assoc.
Qed.

Lemma keyTail_plain keepSeq fl t rest text : forall a,
  escape a = false -> forallb plainKeyRune text = true ->
  isKeyEnd t = true ->
  keyTail keepSeq fl (text ++ t :: rest) a
    = (t, None, rest,
       abuf a ++ encodeAll (if keepSeq then text else squeeze (last a) text)).
Proof.
  induction text as [|x text IH]; intros a He Hp Ht.
  - cbn [app keyTail]. rewrite keyLoop_unfold, He, Ht.
    cbn. destruct keepSeq; now rewrite app_nil_r.
  - cbn [forallb] in Hp. apply andb_prop in Hp as [Hx Hp].
    unfold plainKeyRune in Hx. apply negb_true_iff in Hx.
    apply orb_false_elim in Hx as [H92 Hend].
    assert (H13 : (x =? 13) = false).
    { unfold isKeyEnd in Hend. apply orb_false_elim in Hend as [Hend _].
      now apply orb_false_elim in Hend as [_ ?]. }
    cbn [app keyTail]. rewrite keyLoop_unfold, He, Hend.
    unfold keyStep. rewrite H13, He, H92. cbn [negb andb].
    destruct keepSeq; cbn [negb andb].
    + rewrite IH by auto. cbn [abuf encodeAll flat_map].
      unfold gobytes.WriteRune. now rewrite <- app_assoc.
    + cbn [squeeze].
      destruct (unicode.IsSpace (last a) && unicode.IsSpace x).
      * now rewrite IH by auto.
      * rewrite IH by auto. cbn [abuf last encodeAll flat_map].
        unfold gobytes.WriteRune. now rewrite <- app_assoc.
Qed.

(** C6 as stated fails: with CompressWhitespace on, the value text
    [a\t\tb], two escaped tabs, is accumulated as a, tab, tab, b. *)
Lemma C6_counterexample :
  ~ (forall text p' r' k v e,
       Read (NewParser [CompressWhitespace true]) (textReader text)
         = Some (p', r', Some (Field k v), e) ->
       hasSpaceRun v = false).
Proof.
  intros H.
  specialize (H (B "k a\t\tb" ++ [LF])
                (set_next zeroParser (Some readKeyFn)) (textReader [])
                (B "k") [97; TAB; TAB; 98] None eq_refl).
  discriminate.
Qed.

(** C6 amended: with CompressWhitespace on, a whitespace character read
    unescaped is dropped when the character written last is whitespace, so
    in a key or value text without backslash every run of consecutive
    whitespace is accumulated as its first character only and no two
    whitespace characters end up side by side; with it off such a text is
    accumulated as it is.  A character produced by escape decoding is
    written whatever precedes it, so escaped whitespace is never collapsed;
    an unescaped whitespace character after it still is dropped.  (Values
    are shown before trimming; carriage returns, always dropped, are left
    out of the texts.) *)
Theorem C6_compression_of_unescaped_whitespace :
  (forall p key c0 text t rest fl,
      forallb plainValueRune (c0 :: text) = true ->
      isBlank c0 = false -> c0 <> LBRACE -> isValueEnd t = true ->
      readValue p (mkReader (c0 :: text ++ t :: rest) fl) key
        = mkOut (set_buf p []) (mkReader rest fl)
            (Some (if t =? HASH then readCommentFn (Some readKeyFn) else readKeyFn))
            (Some (Field key
               (valueString (keepTrailingWhitespace p)
                  (buf p ++ encodeAll (if keepSeqWhitespace p then c0 :: text
                                       else squeeze 0 (c0 :: text))))))
            None)
  /\ (forall p c0 text rest fl,
      forallb plainKeyRune (c0 :: text) = true ->
      c0 <> LBRACE -> c0 <> RBRACE ->
      readKey p (mkReader (c0 :: text ++ BANG :: rest) fl)
        = mkOut (set_buf p []) (mkReader rest fl) (Some readKeyFn)
            (Some (Field (buf p ++ encodeAll (if keepSeqWhitespace p then c0 :: text
                                              else squeeze 0 (c0 :: text))) []))
            None)
  /\ (forall prev text,
      hasSpaceRun (squeeze prev text) = false
      /\ filter (fun c => negb (unicode.IsSpace c)) (squeeze prev text)
         = filter (fun c => negb (unicode.IsSpace c)) text)
  /\ (forall keepSeq c a,
      escape a = true -> c <> CR -> c <> LF ->
      valueStep keepSeq c a
        = Some (mkAcc false (unescape c) (abuf a ++ utf8.EncodeRune (unescape c)))
      /\ keyStep keepSeq c a
        = mkAcc false (unescape c) (abuf a ++ utf8.EncodeRune (unescape c)))
  /\ (forall c a,
      escape a = false ->
      unicode.IsSpace (last a) = true -> unicode.IsSpace c = true ->
      (plainValueRune c = true -> valueStep false c a = Some a)
      /\ (plainKeyRune c = true -> keyStep false c a = a)).
Proof.
  split; [|split; [|split; [|split]]].
  - intros p key c0 text t rest fl Hp Hb Hbr Ht.
    unfold readValue. cbn [pending fail skipBlank]. rewrite Hb.
    cbn [isFailure isNil].
    assert (H35 : (c0 =? 35) = false).
    { cbn [forallb] in Hp. apply andb_prop in Hp as [Hx _].
      unfold plainValueRune in Hx. apply negb_true_iff in Hx.
      apply orb_false_elim in Hx as [_ Hx]. unfold isValueEnd in Hx.
      now apply orb_false_elim in Hx as [_ ?]. }
    apply Z.eqb_neq in Hbr. rewrite Hbr, H35.
    change (valueLoop (keepSeqWhitespace p) fl (text ++ t :: rest) c0
              (mkAcc false 0 (buf p)))
      with (valueTail (keepSeqWhitespace p) fl ((c0 :: text) ++ t :: rest)
              (mkAcc false 0 (buf p))).
    rewrite valueTail_plain by auto. cbn [abuf last isEOF]. reflexivity.
  - intros p c0 text rest fl Hp Hbr Hbl.
    assert (Hend : isKeyEnd c0 = false).
    { cbn [forallb] in Hp. apply andb_prop in Hp as [Hx _].
      unfold plainKeyRune in Hx. apply negb_true_iff in Hx.
      now apply orb_false_elim in Hx as [_ Hx]. }
    assert (Hb : isBlank c0 = false /\ (c0 =? 35) = false).
    { unfold isKeyEnd in Hend. unfold isBlank.
      repeat match goal with
             | H : _ || _ = false |- _ => apply orb_false_elim in H as [? ?]
             end.
      split; [|assumption].
      repeat (apply orb_false_intro; try assumption). }
    destruct Hb as [Hb H35].
    unfold readKey. cbn [pending fail skipBlank]. rewrite Hb.
    cbn [isFailure isNil].
    apply Z.eqb_neq in Hbr, Hbl. rewrite Hbr, Hbl, H35.
    change (keyLoop (keepSeqWhitespace p) fl (text ++ 33 :: rest) c0
              (mkAcc false 0 (buf p)))
      with (keyTail (keepSeqWhitespace p) fl ((c0 :: text) ++ 33 :: rest)
              (mkAcc false 0 (buf p))).
    rewrite keyTail_plain by auto. cbn [abuf last isNil negb isEOF].
    rewrite andb_false_r. reflexivity.
  - intros prev text. split; [apply squeeze_no_run|apply squeeze_keeps_others].
  - intros keepSeq c a He H13 H10.
    apply Z.eqb_neq in H13, H10.
    unfold valueStep, keyStep. rewrite H13, He, H10. cbn [negb andb].
    split; reflexivity.
  - intros c a He Hl Hc. split; intros Hp.
    + unfold plainValueRune in Hp. apply negb_true_iff in Hp.
      apply orb_false_elim in Hp as [Hp Hend].
      apply orb_false_elim in Hp as [H92 H13].
      unfold isValueEnd in Hend. apply orb_false_elim in Hend as [_ H35].
      unfold valueStep. rewrite H13, He, H92, H35, Hl, Hc. reflexivity.
    + unfold plainKeyRune in Hp. apply negb_true_iff in Hp.
      apply orb_false_elim in Hp as [H92 Hend].
      assert (H13 : (c =? 13) = false).
      { unfold isKeyEnd in Hend. apply orb_false_elim in Hend as [Hend _].
        now apply orb_false_elim in Hend as [_ ?]. }
      unfold keyStep. rewrite H13, He, H92, Hl, Hc. reflexivity.
Qed.

Lemma C6_witness :
  readValue zeroParser (mkReader (B "a  " ++ [TAB] ++ B " b   c;x") EOF) (B "k")
    = mkOut zeroParser (mkReader (B "x") EOF) (Some readKeyFn)
            (Some (Field (B "k") (B "a b c"))) None
  /\ readKey zeroParser (mkReader ([97; VT; FF; VT; 98] ++ B "!x") EOF)
    = mkOut zeroParser (mkReader (B "x") EOF) (Some readKeyFn)
            (Some (Field [97; VT; 98] [])) None
  /\ valueStep false TAB (mkAcc true TAB [TAB])
    = Some (mkAcc false TAB [TAB; TAB]).
Proof.
  destruct C6_compression_of_unescaped_whitespace as (Hv & Hk & _ & He & _).
  split; [|split].
  - apply (Hv zeroParser (B "k") 97 (B "  " ++ [TAB] ++ B " b   c") SEMI (B "x") EOF);
      [reflexivity|reflexivity|discriminate|reflexivity].
  - apply (Hk zeroParser 97 [VT; FF; VT; 98] (B "x") EOF);
      [reflexivity|discriminate|discriminate].
  - apply (He false TAB (mkAcc true TAB [TAB])); [reflexivity|discriminate|discriminate].
Defined.

(** ** Comments *)

Lemma readValue_config p r key :
  readComments (o_parser (readValue p r key)) = readComments p
  /\ forall c, o_piece (readValue p r key) <> Some (Comment c).
Proof.
  unfold readValue.
  destruct (skipBlank (pending r) (fail r)) as [[c err] rs].
  destruct (isFailure err); [split; [reflexivity|discriminate]|].
  destruct (c =? 123); [split; [reflexivity|discriminate]|].
  destruct (c =? 35); [split; [reflexivity|discriminate]|].
  destruct (if isNil err then _ else _) as [[[c2 err2] rs2] b].
  split; [reflexivity|discriminate].
Qed.

Lemma readKey_config p r :
  readComments (o_parser (readKey p r)) = readComments p
  /\ forall c, o_piece (readKey p r) <> Some (Comment c).
Proof.
  unfold readKey.
  destruct (skipBlank (pending r) (fail r)) as [[c err] rs].
  destruct (isFailure err); [split; [reflexivity|discriminate]|].
  destruct (c =? 125).
  { unfold leave. destruct (depth p =? 0); split; try reflexivity; discriminate. }
  destruct (c =? 123); [split; [reflexivity|discriminate]|].
  destruct (c =? 35); [split; [reflexivity|discriminate]|].
  destruct (if isNil err then _ else _) as [[[c2 err2] rs2] key].
  destruct ((Z.of_nat (length key) =? 0) && negb (isNil err2)).
  { destruct (isEOF err2); split; try reflexivity; discriminate. }
  destruct (isEOF err2); [split; [reflexivity|discriminate]|].
  destruct (c2 =? 35); [split; [reflexivity|discriminate]|].
  destruct ((c2 =? 33) || (c2 =? 59)); [split; [reflexivity|discriminate]|].
  apply (readValue_config (set_buf p [])).
Qed.

Lemma read_config n p r :
  readComments (o_parser (read n p r)) = readComments p
  /\ (readComments p = false -> forall c, o_piece (read n p r) <> Some (Comment c)).
Proof.
  destruct n; cbn [read].
  - destruct (readKey_config p r) as [H1 H2]. auto.
  - unfold readComment.
    destruct (readUntil (pending r) (fail r) 10) as [[sq err] rs].
    cbn [o_parser o_piece]. split; [reflexivity|]. intros ->. discriminate.
  - split; [reflexivity|discriminate].
  - split; [reflexivity|discriminate].
Qed.

(** With ReadComments off no Read returns a Comment. *)
Lemma Read_no_Comment_when_off p r p' r' c err :
  readComments p = false -> Read p r <> Some (p', r', Some (Comment c), err).
Proof.
  intros Hrc. unfold Read.
  assert (H : forall fuel q s,
             readComments q = false ->
             ReadLoop fuel q s None None <> Some (p', r', Some (Comment c), err)).
  { induction fuel as [|fuel IH]; intros q s Hq; cbn [ReadLoop].
    - destruct (next q); discriminate.
    - destruct (next q) as [n|]; [|discriminate].
      destruct (read_config n q s) as [H1 H2]. specialize (H2 Hq).
      destruct (o_piece (read n q s)) as [pc|] eqn:Ep.
      { rewrite ReadLoop_done by (right; left; discriminate).
        intros [= _ _ -> _]. now apply (H2 c). }
      destruct (o_err (read n q s)) as [e|] eqn:Ee.
      { rewrite ReadLoop_done by (right; right; discriminate). discriminate. }
      apply IH. cbn. now rewrite H1. }
  apply H. now destruct (isNil (next p)).
Qed.

Lemma readUntil_line text rest fl :
  ~ In 10 text ->
  readUntil (text ++ 10 :: rest) fl 10 = (encodeAll text ++ [10], None, rest).
Proof.
  induction text as [|x text IH]; intros Hn; cbn [app readUntil]; [reflexivity|].
  destruct (Z.eqb_spec x 10) as [->|Hx]; [exfalso; apply Hn; now left|].
  rewrite IH by (intros H; apply Hn; now right).
  cbn [encodeAll flat_map]. now rewrite <- app_assoc.
Qed.

(** With ReadComments on, a comment line is returned as it stands between
    the hash and the LF that ends it. *)
Lemma Read_comment_line p text rest fl :
  readComments p = true ->
  next p = None \/ next p = Some readKeyFn ->
  ~ In LF text ->
  Read p (mkReader (HASH :: text ++ LF :: rest) fl)
    = Some (set_next p (Some readKeyFn), mkReader rest fl,
            Some (Comment (encodeAll text)), None).
Proof.
  intros Hrc Hn Ht.
  assert (Hk : forall q, readKey q (mkReader (35 :: text ++ 10 :: rest) fl)
                 = mkOut q (mkReader (text ++ 10 :: rest) fl)
                         (Some (readCommentFn (Some readKeyFn))) None None)
    by reflexivity.
  assert (Hc : forall q, readComments q = true ->
                 readComment q (Some readKeyFn) (mkReader (text ++ 10 :: rest) fl)
                 = mkOut q (mkReader rest fl) (Some readKeyFn)
                         (Some (Comment (encodeAll text))) None).
  { intros q Hq. unfold readComment. cbn [pending fail].
    rewrite readUntil_line by assumption. cbn [isNil isFailure].
    now rewrite removelast_last, Hq. }
  unfold Read.
  replace (length (pending (mkReader (35 :: text ++ 10 :: rest) fl)))
    with (S (length (text ++ 10 :: rest))) by reflexivity.
  destruct Hn as [Hn|Hn]; rewrite Hn; cbn [isNil].
  - cbn [ReadLoop next set_next read]. rewrite Hk.
    cbn [o_parser o_next o_reader o_piece o_err next set_next read].
    rewrite Hc by assumption.
    cbn [o_parser o_next o_reader o_piece o_err].
    apply ReadLoop_done. right. left. discriminate.
  - cbn [ReadLoop]. rewrite Hn. cbn [read]. rewrite Hk.
    cbn [o_parser o_next o_reader o_piece o_err next set_next read].
    rewrite Hc by assumption.
    cbn [o_parser o_next o_reader o_piece o_err].
    apply ReadLoop_done. right. left. discriminate.
Qed.

(** ** The loops read rune by rune *)

Lemma skipBlank_ReadRune r :
  skipBlank (pending r) (fail r) =
    let '(c, err, r') := ReadRune r in
    if isBlank c && isNil err then skipBlank (pending r') (fail r')
    else (c, err, pending r').
Proof.
  unfold ReadRune. destruct r as [[|c rs] fl]; cbn; [reflexivity|].
  rewrite andb_true_r. reflexivity.
Qed.

Lemma keyTail_ReadRune keepSeq r a :
  keyTail keepSeq (fail r) (pending r) a =
    let '(c, err, r') := ReadRune r in
    if isNil err then keyLoop keepSeq (fail r') (pending r') c a
    else (c, err, pending r', abuf a).
Proof. unfold ReadRune. destruct r as [[|c rs] fl]; reflexivity. Qed.

Lemma valueTail_ReadRune keepSeq r a :
  valueTail keepSeq (fail r) (pending r) a =
    let '(c, err, r') := ReadRune r in
    if isNil err then valueLoop keepSeq (fail r') (pending r') c a
    else (c, err, pending r', abuf a).
Proof. unfold ReadRune. destruct r as [[|c rs] fl]; reflexivity. Qed.

(** ** The poisoned state *)

Lemma skipBlank_err rs fl c e rs' : skipBlank rs fl = (c, Some e, rs') -> e = fl.
Proof.
  induction rs as [|x rs IH]; cbn [skipBlank]; [now intros [= _ <- _]|].
  destruct (isBlank x); [exact IH|discriminate].
Qed.

Lemma keyLoop_err keepSeq fl rs : forall c a c2 e rs2 b,
  keyLoop keepSeq fl rs c a = (c2, Some e, rs2, b) -> e = fl.
Proof.
  induction rs as [|x rs IH]; intros c a c2 e rs2 b; cbn [keyLoop];
    destruct (negb (negb (escape a) && isKeyEnd c)); try discriminate.
  - now intros [= _ <- _ _].
  - apply IH.
Qed.

Lemma valueLoop_err keepSeq fl rs : forall c a c2 e rs2 b,
  valueLoop keepSeq fl rs c a = (c2, Some e, rs2, b) -> e = fl.
Proof.
  induction rs as [|x rs IH]; intros c a c2 e rs2 b; cbn [valueLoop];
    (destruct (negb (negb (escape a) && isValueEnd c));
     [destruct (valueStep keepSeq c a)|]); try discriminate.
  - now intros [= _ <- _ _].
  - apply IH.
Qed.

Lemma readUntil_err rs fl d sq e rs' : readUntil rs fl d = (sq, Some e, rs') -> e = fl.
Proof.
  revert sq rs'. induction rs as [|x rs IH]; intros sq rs'; cbn [readUntil];
    [now intros [= _ <- _]|].
  destruct (x =? d); [discriminate|].
  destruct (readUntil rs fl d) as [[sq0 [e0|]] rs0]; [|discriminate].
  intros [= _ <- _]. now apply (IH sq0 rs0).
Qed.

Lemma readValue_err p r key e :
  o_err (readValue p r key) = Some e ->
  e = fail r /\ fail (o_reader (readValue p r key)) = fail r.
Proof.
  unfold readValue.
  destruct (skipBlank (pending r) (fail r)) as [[c err] rs] eqn:Es.
  destruct (isFailure err) eqn:Ef; cbn [o_err o_reader fail].
  { intros ->. split; [|reflexivity]. now apply skipBlank_err in Es. }
  destruct (c =? 123); [discriminate|].
  destruct (c =? 35); [discriminate|].
  destruct err as [e0|]; cbn [isNil o_err o_reader fail].
  - intros [= <-]. split; [|reflexivity]. now apply skipBlank_err in Es.
  - destruct (valueLoop _ _ _ _ _) as [[[c2 err2] rs2] b] eqn:El.
    cbn [o_err o_reader fail]. intros ->. split; [|reflexivity].
    now apply valueLoop_err in El.
Qed.

Lemma read_fail n p r : fail (o_reader (read n p r)) = fail r.
Proof.
  destruct n; cbn [read]; try reflexivity.
  - unfold readKey.
    destruct (skipBlank (pending r) (fail r)) as [[c err] rs].
    destruct (isFailure err); [reflexivity|].
    destruct (c =? 125); [unfold leave; now destruct (depth p =? 0)|].
    destruct (c =? 123); [reflexivity|].
    destruct (c =? 35); [reflexivity|].
    destruct (if isNil err then _ else _) as [[[c2 err2] rs2] key].
    destruct ((Z.of_nat (length key) =? 0) && negb (isNil err2));
      [now destruct (isEOF err2)|].
    destruct (isEOF err2); [reflexivity|].
    destruct (c2 =? 35); [reflexivity|].
    destruct ((c2 =? 33) || (c2 =? 59)); [reflexivity|].
    unfold readValue. cbn [pending fail].
    destruct (skipBlank rs2 (fail r)) as [[c3 err3] rs3].
    destruct (isFailure err3); [reflexivity|].
    destruct (c3 =? 123); [reflexivity|].
    destruct (c3 =? 35); [reflexivity|].
    destruct (if isNil err3 then _ else _) as [[[c4 err4] rs4] b].
    reflexivity.
  - unfold readComment.
    destruct (readUntil (pending r) (fail r) 10) as [[sq err] rs].
    reflexivity.
Qed.

(** A [read] that reports ErrUnexpectedNodeLeave, the source not failing
    with it, returns no piece and the reader of that error as next state. *)
Lemma read_UnexpectedNodeLeave n p r :
  fail r <> ErrUnexpectedNodeLeave ->
  o_err (read n p r) = Some ErrUnexpectedNodeLeave ->
  o_piece (read n p r) = None
  /\ o_next (read n p r) = Some (errReader ErrUnexpectedNodeLeave).
Proof.
  intros Hf. destruct n; cbn [read].
  - unfold readKey.
    destruct (skipBlank (pending r) (fail r)) as [[c err] rs] eqn:Es.
    destruct (isFailure err) eqn:Ef; cbn [o_err o_piece o_next].
    { intros ->. apply skipBlank_err in Es. congruence. }
    destruct (c =? 125).
    { unfold leave. destruct (depth p =? 0); cbn [o_err o_piece o_next];
        [auto|discriminate]. }
    destruct (c =? 123); [discriminate|].
    destruct (c =? 35); [discriminate|].
    assert (Hl : forall c2 e rs2 key,
               (if isNil err
                then keyLoop (keepSeqWhitespace p) (fail r) rs c (mkAcc false 0 (buf p))
                else (c, err, rs, buf p)) = (c2, Some e, rs2, key) -> e = fail r).
    { intros c2 e rs2 key H. destruct err as [e0|]; cbn [isNil] in H.
      - inversion H; subst. now apply skipBlank_err in Es.
      - now apply keyLoop_err in H. }
    destruct (if isNil err then _ else _) as [[[c2 err2] rs2] key] eqn:El.
    assert (He2 : err2 <> Some ErrUnexpectedNodeLeave).
    { intros ->. specialize (Hl _ _ _ _ eq_refl). congruence. }
    destruct ((Z.of_nat (length key) =? 0) && negb (isNil err2)).
    { destruct (isEOF err2); cbn [o_err]; intros H; congruence. }
    destruct (isEOF err2); [cbn [o_err]; intros H; congruence|].
    destruct (c2 =? 35); [cbn [o_err]; intros H; congruence|].
    destruct ((c2 =? 33) || (c2 =? 59)); [cbn [o_err]; intros H; congruence|].
    intros H. apply readValue_err in H as [H _]. cbn [fail] in H. congruence.
  - unfold readComment.
    destruct (readUntil (pending r) (fail r) 10) as [[sq err] rs] eqn:Eu.
    cbn [o_err]. intros ->. apply readUntil_err in Eu. congruence.
  - discriminate.
  - cbn [o_err o_piece o_next]. intros [= ->]. auto.
Qed.

Lemma ReadLoop_UnexpectedNodeLeave fuel : forall p r p' r' piece,
  fail r <> ErrUnexpectedNodeLeave ->
  ReadLoop fuel p r None None = Some (p', r', piece, Some ErrUnexpectedNodeLeave) ->
  piece = None /\ next p' = Some (errReader ErrUnexpectedNodeLeave).
Proof.
  induction fuel as [|fuel IH]; intros p r p' r' piece Hf H; cbn [ReadLoop] in H.
  - destruct (next p); discriminate.
  - destruct (next p) as [n|]; [|discriminate].
    pose proof (read_UnexpectedNodeLeave n p r Hf) as Hr.
    destruct (o_piece (read n p r)) as [pc|] eqn:Ep.
    { rewrite ReadLoop_done in H by (right; left; discriminate).
      inversion H as [[H1 H2 H3 H4]]. destruct (Hr H4). discriminate. }
    destruct (o_err (read n p r)) as [e|] eqn:Ee.
    { rewrite ReadLoop_done in H by (right; right; discriminate).
      inversion H as [[H1 H2 H3 H4]]. subst e.
      destruct (Hr eq_refl) as [_ Hn]. split; [reflexivity|exact Hn]. }
    apply IH in H; [exact H|]. now rewrite read_fail.
Qed.

Lemma Read_poisoned p r :
  next p = Some (errReader ErrUnexpectedNodeLeave) ->
  Read p r = Some (p, r, None, Some ErrUnexpectedNodeLeave).
Proof.
  intros Hn. unfold Read. rewrite Hn. cbn [isNil ReadLoop]. rewrite Hn.
  cbn [read o_parser o_next o_reader o_piece o_err].
  rewrite <- Hn, set_next_same. apply ReadLoop_done. right. right. discriminate.
Qed.

(** C3: a closing brace met by the key reader at depth 0 gives no piece and
    the error ErrUnexpectedNodeLeave, and leaves the parser in a state in
    which every Read returns that error again, the parser and the source
    being left as they are.  More generally, whenever a Read reports
    ErrUnexpectedNodeLeave (the source itself not failing with it), it
    returns no piece, and every later Read returns that error again without
    touching parser or source. *)
Theorem C3_unexpected_leave_poisons (p : Parser) (ws rest : list rune) (fl : error) :
  depth p = 0 ->
  next p = None \/ next p = Some readKeyFn ->
  forallb isBlank ws = true ->
  let p' := set_next p (Some (errReader ErrUnexpectedNodeLeave)) in
  Read p (mkReader (ws ++ RBRACE :: rest) fl)
    = Some (p', mkReader rest fl, None, Some ErrUnexpectedNodeLeave)
  /\ (forall r, Read p' r = Some (p', r, None, Some ErrUnexpectedNodeLeave))
  /\ (forall q r q' r' piece,
        fail r <> ErrUnexpectedNodeLeave ->
        Read q r = Some (q', r', piece, Some ErrUnexpectedNodeLeave) ->
        piece = None
        /\ forall r2, Read q' r2 = Some (q', r2, None, Some ErrUnexpectedNodeLeave)).
Proof.
  intros Hd Hn Hws p'. split; [|split].
  - assert (Hk : forall n, readKey (set_next p n) (mkReader (ws ++ RBRACE :: rest) fl)
                 = mkOut (set_next p n) (mkReader rest fl)
                         (Some (errReader ErrUnexpectedNodeLeave)) None
                         (Some ErrUnexpectedNodeLeave)).
    { intros n. unfold readKey. cbn [pending fail].
      rewrite (skipBlank_app ws RBRACE rest fl Hws eq_refl).
      simpl. unfold leave. simpl. now rewrite Hd. }
    unfold Read. destruct Hn as [Hn|Hn]; rewrite Hn; cbn [isNil].
    + cbn [ReadLoop next set_next read]. rewrite Hk.
      cbn [o_parser o_next o_reader o_piece o_err].
      rewrite set_next_set_next. apply ReadLoop_done. right. right. discriminate.
    + cbn [ReadLoop]. rewrite Hn. cbn [read].
      specialize (Hk (next p)). rewrite set_next_same in Hk. rewrite Hk.
      cbn [o_parser o_next o_reader o_piece o_err].
      apply ReadLoop_done. right. right. discriminate.
  - intros r. now apply Read_poisoned.
  - intros q r q' r' piece Hf H. unfold Read in H.
    apply ReadLoop_UnexpectedNodeLeave in H; [|exact Hf].
    destruct H as [Hp Hq]. split; [exact Hp|].
    intros r2. now apply Read_poisoned.
Qed.

Lemma C3_witness :
  Read zeroParser (mkReader (B "  }x") EOF)
    = Some (set_next zeroParser (Some (errReader ErrUnexpectedNodeLeave)),
            mkReader (B "x") EOF, None, Some ErrUnexpectedNodeLeave)
  /\ forall r, Read (set_next zeroParser (Some (errReader ErrUnexpectedNodeLeave))) r
       = Some (set_next zeroParser (Some (errReader ErrUnexpectedNodeLeave)), r,
               None, Some ErrUnexpectedNodeLeave).
Proof.
  destruct (C3_unexpected_leave_poisons zeroParser (B "  ") (B "x") EOF)
    as (H1 & H2 & _).
  - reflexivity.
  - left. reflexivity.
  - reflexivity.
  - split; [exact H1|exact H2].
Defined.

(** * Further properties of the code *)

(** ** What a Read takes from the source *)

Lemma consumes_refl r : consumes r r.
Proof. split; [reflexivity|now exists []]. Qed.

Lemma consumes_trans r1 r2 r3 : consumes r1 r2 -> consumes r2 r3 -> consumes r1 r3.
Proof.
  intros [F1 [p1 E1]] [F2 [p2 E2]]. split; [congruence|].
  exists (p1 ++ p2). now rewrite E1, E2, app_assoc.
Qed.

Lemma skipBlank_cut rs fl c err rs' :
  skipBlank rs fl = (c, err, rs') -> exists pre, rs = pre ++ rs'.
Proof.
  revert c err rs'. induction rs as [|x rs IH]; cbn [skipBlank]; intros c err rs' H.
  - inversion H. now exists [].
  - destruct (isBlank x).
    + destruct (IH _ _ _ H) as [pre ->]. now exists (x :: pre).
    + inversion H; subst. now eexists [_].
Qed.

Lemma keyLoop_cut keepSeq fl rs : forall c a c2 err2 rs2 b,
  keyLoop keepSeq fl rs c a = (c2, err2, rs2, b) -> exists pre, rs = pre ++ rs2.
Proof.
  induction rs as [|x rs IH]; intros c a c2 err2 rs2 b; cbn [keyLoop];
    destruct (negb (negb (escape a) && isKeyEnd c)); intros H.
  - inversion H. now exists [].
  - inversion H. now exists [].
  - destruct (IH _ _ _ _ _ _ H) as [pre ->]. now exists (x :: pre).
  - inversion H. now exists [].
Qed.

Lemma valueLoop_cut keepSeq fl rs : forall c a c2 err2 rs2 b,
  valueLoop keepSeq fl rs c a = (c2, err2, rs2, b) -> exists pre, rs = pre ++ rs2.
Proof.
  induction rs as [|x rs IH]; intros c a c2 err2 rs2 b; cbn [valueLoop];
    (destruct (negb (negb (escape a) && isValueEnd c));
     [destruct (valueStep keepSeq c a)|]); intros H;
    try (inversion H; now exists []).
  destruct (IH _ _ _ _ _ _ H) as [pre ->]. now exists (x :: pre).
Qed.

Lemma readUntil_cut rs fl d : forall sq err rs',
  readUntil rs fl d = (sq, err, rs') -> exists pre, rs = pre ++ rs'.
Proof.
  induction rs as [|x rs IH]; intros sq err rs'; cbn [readUntil]; intros H.
  - inversion H. now exists [].
  - destruct (x =? d).
    + inversion H. now exists [x].
    + destruct (readUntil rs fl d) as [[sq0 err0] rs0].
      destruct (IH _ _ _ eq_refl) as [pre ->].
      inversion H; subst. now exists (x :: pre).
Qed.

Lemma readValue_consumes p r key : consumes r (o_reader (readValue p r key)).
Proof.
  unfold readValue, consumes.
  destruct (skipBlank (pending r) (fail r)) as [[c err] rs] eqn:Es.
  apply skipBlank_cut in Es as [pre Es].
  destruct (isFailure err); [split; [reflexivity|now exists pre]|].
  destruct (c =? 123); [split; [reflexivity|now exists pre]|].
  destruct (c =? 35); [split; [reflexivity|now exists pre]|].
  destruct err as [e|]; cbn [isNil].
  - split; [reflexivity|now exists pre].
  - destruct (valueLoop _ _ _ _ _) as [[[c2 err2] rs2] b] eqn:El.
    apply valueLoop_cut in El as [pre2 ->].
    split; [reflexivity|]. exists (pre ++ pre2). cbn [o_reader pending].
    now rewrite Es, app_assoc.
Qed.

Lemma readKey_consumes p r : consumes r (o_reader (readKey p r)).
Proof.
  unfold readKey.
  destruct (skipBlank (pending r) (fail r)) as [[c err] rs] eqn:Es.
  apply skipBlank_cut in Es as [pre Es].
  assert (H1 : consumes r (mkReader rs (fail r))) by (split; [reflexivity|now exists pre]).
  destruct (isFailure err); [exact H1|].
  destruct (c =? 125); [unfold leave; now destruct (depth p =? 0)|].
  destruct (c =? 123); [exact H1|].
  destruct (c =? 35); [exact H1|].
  assert (H2 : forall c2 err2 rs2 key,
             (if isNil err
              then keyLoop (keepSeqWhitespace p) (fail r) rs c (mkAcc false 0 (buf p))
              else (c, err, rs, buf p)) = (c2, err2, rs2, key) ->
             consumes r (mkReader rs2 (fail r))).
  { intros c2 err2 rs2 key H. destruct err; cbn [isNil] in H.
    - now inversion H; subst.
    - apply keyLoop_cut in H as [pre2 ->]. split; [reflexivity|].
      exists (pre ++ pre2). cbn [pending]. now rewrite Es, app_assoc. }
  destruct (if isNil err then _ else _) as [[[c2 err2] rs2] key].
  specialize (H2 _ _ _ _ eq_refl).
  destruct ((Z.of_nat (length key) =? 0) && negb (isNil err2));
    [now destruct (isEOF err2)|].
  destruct (isEOF err2); [exact H2|].
  destruct (c2 =? 35); [exact H2|].
  destruct ((c2 =? 33) || (c2 =? 59)); [exact H2|].
  eapply consumes_trans; [exact H2|apply readValue_consumes].
Qed.

Lemma read_consumes n p r : consumes r (o_reader (read n p r)).
Proof.
  destruct n; cbn [read].
  - apply readKey_consumes.
  - unfold readComment.
    destruct (readUntil (pending r) (fail r) 10) as [[sq err] rs] eqn:Eu.
    apply readUntil_cut in Eu as [pre Eu].
    split; [reflexivity|now exists pre].
  - apply consumes_refl.
  - apply consumes_refl.
Qed.

Lemma ReadLoop_consumes fuel : forall p r piece0 err0 p' r' piece err,
  ReadLoop fuel p r piece0 err0 = Some (p', r', piece, err) -> consumes r r'.
Proof.
  induction fuel as [|fuel IH]; intros p r piece0 err0 p' r' piece err H;
    cbn [ReadLoop] in H.
  - destruct (next p), piece0, err0; inversion H; subst; apply consumes_refl.
  - destruct (next p) as [n|]; [|inversion H; subst; apply consumes_refl].
    destruct piece0; [inversion H; subst; apply consumes_refl|].
    destruct err0; [inversion H; subst; apply consumes_refl|].
    eapply consumes_trans; [apply (read_consumes n p r)|].
    eapply IH. exact H.
Qed.

(** X1: every Read returns, on every parser state and every source; what it
    leaves of the source is the source without some first runes (it never
    puts a rune back nor changes the error the source ends with); and a
    Read that returns no error has taken at least one rune. *)
Theorem X1_Read_returns_and_consumes (p : Parser) (r : Reader) :
  exists p' r' piece err,
    Read p r = Some (p', r', piece, err)
    /\ fail r' = fail r
    /\ exists taken, pending r = taken ++ pending r'
                     /\ (err = None -> taken <> []).
Proof.
  destruct (Read_returns p r) as [[[[p' r'] piece] err] H].
  exists p', r', piece, err. split; [exact H|].
  destruct (Read_advances _ _ _ _ _ _ H) as [_ Hlt].
  unfold Read in H. apply ReadLoop_consumes in H as [Hf [taken Ht]].
  split; [exact Hf|]. exists taken. split; [exact Ht|].
  intros He -> . specialize (Hlt He). rewrite Ht in Hlt. cbn in Hlt. lia.
Qed.

(** ** What Parse returns *)

Lemma ParseLoop_error fuel p r pieces e :
  ParseLoop fuel p r pieces (Some e)
    = Some (pieces, if isEOF (Some e) then None else Some e).
Proof. now destruct fuel. Qed.

Lemma ParseLoop_bound fuel : forall p r pieces err res err',
  ParseLoop fuel p r pieces err = Some (res, err') ->
  err' <> Some EOF
  /\ (length res <= length pieces + length (pending r))%nat.
Proof.
  induction fuel as [|fuel IH]; intros p r pieces err res err' H.
  - destruct err as [e|]; [|discriminate]. rewrite ParseLoop_error in H.
    inversion H; subst. split; [destruct e; discriminate|lia].
  - destruct err as [e|].
    { rewrite ParseLoop_error in H.
      inversion H; subst. split; [destruct e; discriminate|lia]. }
    cbn [ParseLoop] in H.
    destruct (Read p r) as [[[[p1 r1] piece] err1]|] eqn:HR; [|discriminate].
    destruct (Read_advances _ _ _ _ _ _ HR) as [Hle Hlt].
    apply IH in H as [H1 H2]. split; [exact H1|].
    destruct err1 as [e|]; cbn [isNil] in H2.
    + lia.
    + specialize (Hlt eq_refl). rewrite length_app in H2. cbn in H2. lia.
Qed.

(** X2: Parse returns on every source and every configuration; the error it
    returns is never io.EOF; and it returns at most as many pieces as the
    source had runes. *)
Theorem X2_Parse_returns (r : Reader) (configs : list Configuration) :
  exists pieces err,
    Parse r configs = Some (pieces, err)
    /\ err <> Some EOF
    /\ (length pieces <= length (pending r))%nat.
Proof.
  destruct (Parse_returns r configs) as [[pieces err] H].
  exists pieces, err. split; [exact H|].
  unfold Parse in H. apply ParseLoop_bound in H. exact H.
Qed.

Lemma readValue_errs p r key :
  let o := readValue p r key in
  (forall e, o_err o = Some e -> e = fail r) /\ nextErrs (fail r) (o_next o).
Proof.
  unfold readValue.
  destruct (skipBlank (pending r) (fail r)) as [[c err] rs] eqn:Es.
  assert (He : forall e, err = Some e -> e = fail r).
  { intros e ->. now apply skipBlank_err in Es. }
  destruct (isFailure err).
  { cbn. split; [exact He|]. destruct err as [e|]; cbn; auto. }
  destruct (c =? 123); [cbn; split; [discriminate|exact I]|].
  destruct (c =? 35); [cbn; split; [discriminate|exact I]|].
  destruct err as [e|]; cbn [isNil].
  - cbn. split; [exact He|].
    repeat match goal with
           | |- context [if ?b then _ else _] => destruct b
           | |- context [match ?x with EOF => _ | _ => _ end] => destruct x
           end; exact I.
  - destruct (valueLoop _ _ _ _ _) as [[[c2 err2] rs2] b] eqn:El.
    cbn. split.
    + intros e ->. now apply valueLoop_err in El.
    + destruct (isEOF err2); [exact I|]. now destruct (c2 =? 35).
Qed.

Lemma readKey_errs p r :
  let o := readKey p r in
  (forall e, o_err o = Some e -> e = ErrUnexpectedNodeLeave \/ e = fail r)
  /\ nextErrs (fail r) (o_next o).
Proof.
  unfold readKey.
  destruct (skipBlank (pending r) (fail r)) as [[c err] rs] eqn:Es.
  assert (He : forall e, err = Some e -> e = fail r).
  { intros e ->. now apply skipBlank_err in Es. }
  destruct (isFailure err).
  { cbn. split; [auto|exact I]. }
  destruct (c =? 125).
  { unfold leave. destruct (depth p =? 0); cbn.
    - split; [intros e [= <-]; now left|now left].
    - split; [discriminate|exact I]. }
  destruct (c =? 123); [cbn; split; [discriminate|exact I]|].
  destruct (c =? 35); [cbn; split; [discriminate|exact I]|].
  assert (Hl : forall c2 e rs2 key,
             (if isNil err
              then keyLoop (keepSeqWhitespace p) (fail r) rs c (mkAcc false 0 (buf p))
              else (c, err, rs, buf p)) = (c2, Some e, rs2, key) -> e = fail r).
  { intros c2 e rs2 key H. destruct err as [e0|]; cbn [isNil] in H.
    - inversion H; subst. now apply He.
    - now apply keyLoop_err in H. }
  destruct (if isNil err then _ else _) as [[[c2 err2] rs2] key].
  assert (He2 : forall e, err2 = Some e -> e = fail r).
  { intros e ->. now apply (Hl _ _ _ _ eq_refl). }
  destruct ((Z.of_nat (length key) =? 0) && negb (isNil err2)).
  { destruct (isEOF err2); cbn; (split; [auto|]); [exact I|].
    destruct err2 as [e|]; cbn; auto. }
  destruct (isEOF err2); [cbn; split; [auto|exact I]|].
  destruct (c2 =? 35); [cbn; split; [auto|exact I]|].
  destruct ((c2 =? 33) || (c2 =? 59)); [cbn; split; [auto|exact I]|].
  destruct (readValue_errs (set_buf p []) (mkReader rs2 (fail r)) key) as [H1 H2].
  cbn [fail] in H1, H2. split; [|exact H2]. intros e H. right. now apply H1.
Qed.

Lemma read_errs n p r :
  parserErrs (fail r) n ->
  let o := read n p r in
  (forall e, o_err o = Some e ->
             e = EOF \/ e = ErrUnexpectedNodeLeave \/ e = fail r)
  /\ nextErrs (fail r) (o_next o).
Proof.
  intros Hn. destruct n as [|nx| |e0]; cbn [read].
  - destruct (readKey_errs p r) as [H1 H2]. split; [|exact H2].
    intros e H. right. now apply H1.
  - unfold readComment.
    destruct (readUntil (pending r) (fail r) 10) as [[sq err] rs] eqn:Eu.
    assert (He : forall e, err = Some e -> e = fail r).
    { intros e ->. now apply readUntil_err in Eu. }
    cbn. split; [intros e H; right; right; now apply He|].
    destruct (isFailure err).
    + destruct err as [e|]; cbn; auto.
    + destruct nx; exact Hn.
  - cbn. split; [intros e [= <-]; now left|exact I].
  - cbn. split; [|exact Hn]. intros e [= <-]. right. exact Hn.
Qed.

Lemma ReadLoop_errs fuel : forall p r p' r' piece err,
  nextErrs (fail r) (next p) ->
  ReadLoop fuel p r None None = Some (p', r', piece, err) ->
  (forall e, err = Some e -> e = EOF \/ e = ErrUnexpectedNodeLeave \/ e = fail r)
  /\ nextErrs (fail r) (next p').
Proof.
  induction fuel as [|fuel IH]; intros p r p' r' piece err Hn H; cbn [ReadLoop] in H.
  - destruct (next p) eqn:En; inversion H; subst.
    split; [discriminate|now rewrite En].
  - destruct (next p) as [n|] eqn:En;
      [|inversion H; subst; split; [discriminate|now rewrite En]].
    destruct (read_errs n p r Hn) as [H1 H2].
    destruct (o_piece (read n p r)) as [pc|] eqn:Ep.
    { rewrite ReadLoop_done in H by (right; left; discriminate).
      inversion H; subst. split; [exact H1|exact H2]. }
    destruct (o_err (read n p r)) as [e|] eqn:Ee.
    { rewrite ReadLoop_done in H by (right; right; discriminate).
      inversion H; subst. split; [exact H1|exact H2]. }
    apply IH in H; rewrite read_fail in *; [exact H|exact H2].
Qed.

Lemma Read_errs p r p' r' piece err :
  nextErrs (fail r) (next p) ->
  Read p r = Some (p', r', piece, err) ->
  (forall e, err = Some e -> e = EOF \/ e = ErrUnexpectedNodeLeave \/ e = fail r)
  /\ nextErrs (fail r) (next p') /\ fail r' = fail r.
Proof.
  intros Hn H. pose proof H as H'. unfold Read in H'.
  apply ReadLoop_consumes in H' as [Hf _].
  unfold Read in H. apply ReadLoop_errs in H.
  - destruct H as [H1 H2]. auto.
  - destruct (next p) eqn:En; cbn [isNil]; [now rewrite En|exact I].
Qed.

Lemma ParseLoop_errs fuel : forall p r pieces res e,
  nextErrs (fail r) (next p) ->
  ParseLoop fuel p r pieces None = Some (res, Some e) ->
  e = ErrUnexpectedNodeLeave \/ (e = fail r /\ e <> EOF).
Proof.
  induction fuel as [|fuel IH]; intros p r pieces res e Hn H; [discriminate|].
  cbn [ParseLoop] in H.
  destruct (Read p r) as [[[[p1 r1] piece] err1]|] eqn:HR; [|discriminate].
  destruct (Read_errs _ _ _ _ _ _ Hn HR) as (H1 & H2 & H3).
  destruct err1 as [e1|].
  - rewrite ParseLoop_error in H. destruct (H1 e1 eq_refl) as [->|[->| ->]].
    + discriminate.
    + inversion H. now left.
    + destruct (fail r) eqn:Ef; cbn in H; inversion H; subst;
        try discriminate; right; split; congruence.
  - apply IH in H; rewrite H3 in *; [exact H|exact H2].
Qed.

Lemma Reset_next p configs : next (Reset p configs) = None.
Proof.
  unfold Reset.
  assert (H : forall q, next (fold_left apply configs q) = next q).
  { induction configs as [|c cs IH]; intros q; cbn [fold_left]; [reflexivity|].
    rewrite IH. destruct c; reflexivity. }
  now rewrite H.
Qed.

Lemma Reset_buf p configs : buf (Reset p configs) = [].
Proof.
  unfold Reset.
  assert (H : forall q, buf (fold_left apply configs q) = buf q).
  { induction configs as [|c cs IH]; intros q; cbn [fold_left]; [reflexivity|].
    rewrite IH. destruct c; reflexivity. }
  now rewrite H.
Qed.

(** X3: the only errors that Parse returns are ErrUnexpectedNodeLeave and
    the error, other than io.EOF, with which the source itself fails; on an
    in-memory text, which ends with io.EOF, the only one is
    ErrUnexpectedNodeLeave. *)
Theorem X3_Parse_errors (r : Reader) (configs : list Configuration)
    (pieces : list (option Piece)) (e : error) :
  Parse r configs = Some (pieces, Some e) ->
  (e = ErrUnexpectedNodeLeave \/ (e = fail r /\ e <> EOF))
  /\ (fail r = EOF -> e = ErrUnexpectedNodeLeave).
Proof.
  intros H. unfold Parse in H. apply ParseLoop_errs in H.
  - split; [exact H|]. intros Hf. destruct H as [H|[H1 H2]]; congruence.
  - now rewrite Reset_next.
Qed.

Lemma X3_witness :
  (ErrUnexpectedNodeLeave = ErrUnexpectedNodeLeave
   \/ (ErrUnexpectedNodeLeave = fail (textReader (B "a b; }"))
       /\ ErrUnexpectedNodeLeave <> EOF))
  /\ (fail (textReader (B "a b; }")) = EOF ->
      ErrUnexpectedNodeLeave = ErrUnexpectedNodeLeave).
Proof.
  apply (X3_Parse_errors (textReader (B "a b; }")) []
           [Some (Field (B "a") (B "b"))] ErrUnexpectedNodeLeave).
  reflexivity.
Defined.

(** ** What a Read leaves of the parser *)

Lemma sameConfig_refl p : sameConfig p p.
Proof. now repeat split. Qed.

Lemma sameConfig_trans p q s : sameConfig p q -> sameConfig q s -> sameConfig p s.
Proof. intros (A & B & C) (D & E & F). repeat split; congruence. Qed.

Lemma readValue_keeps p r key :
  sameConfig p (o_parser (readValue p r key))
  /\ (buf p = [] -> buf (o_parser (readValue p r key)) = []).
Proof.
  unfold readValue.
  destruct (skipBlank (pending r) (fail r)) as [[c err] rs].
  destruct (isFailure err); [split; [apply sameConfig_refl|auto]|].
  destruct (c =? 123); [split; [now repeat split|auto]|].
  destruct (c =? 35); [split; [apply sameConfig_refl|auto]|].
  destruct (if isNil err then _ else _) as [[[c2 err2] rs2] b].
  split; [now repeat split|reflexivity].
Qed.

Lemma readKey_keeps p r :
  sameConfig p (o_parser (readKey p r))
  /\ (buf p = [] -> buf (o_parser (readKey p r)) = []).
Proof.
  unfold readKey.
  destruct (skipBlank (pending r) (fail r)) as [[c err] rs].
  destruct (isFailure err); [split; [apply sameConfig_refl|auto]|].
  destruct (c =? 125).
  { unfold leave. destruct (depth p =? 0); split; auto; now repeat split. }
  destruct (c =? 123); [split; [now repeat split|auto]|].
  destruct (c =? 35); [split; [apply sameConfig_refl|auto]|].
  destruct (if isNil err then _ else _) as [[[c2 err2] rs2] key].
  destruct ((Z.of_nat (length key) =? 0) && negb (isNil err2)).
  { destruct (isEOF err2); split; auto; now repeat split. }
  destruct (isEOF err2); [split; [now repeat split|reflexivity]|].
  destruct (c2 =? 35); [split; [now repeat split|reflexivity]|].
  destruct ((c2 =? 33) || (c2 =? 59)); [split; [now repeat split|reflexivity]|].
  destruct (readValue_keeps (set_buf p []) (mkReader rs2 (fail r)) key) as [H1 H2].
  split; [|intros _; now apply H2].
  eapply sameConfig_trans; [|exact H1]. now repeat split.
Qed.

Lemma read_keeps n p r :
  sameConfig p (o_parser (read n p r))
  /\ (buf p = [] -> buf (o_parser (read n p r)) = []).
Proof.
  destruct n; cbn [read].
  - apply readKey_keeps.
  - unfold readComment.
    destruct (readUntil (pending r) (fail r) 10) as [[sq err] rs].
    split; [apply sameConfig_refl|auto].
  - split; [apply sameConfig_refl|auto].
  - split; [apply sameConfig_refl|auto].
Qed.

Lemma ReadLoop_keeps fuel : forall p r piece0 err0 p' r' piece err,
  ReadLoop fuel p r piece0 err0 = Some (p', r', piece, err) ->
  sameConfig p p' /\ (buf p = [] -> buf p' = []).
Proof.
  induction fuel as [|fuel IH]; intros p r piece0 err0 p' r' piece err H;
    cbn [ReadLoop] in H.
  - destruct (next p), piece0, err0; inversion H; subst;
      (split; [apply sameConfig_refl|auto]).
  - destruct (next p) as [n|];
      [|inversion H; subst; split; [apply sameConfig_refl|auto]].
    destruct piece0; [inversion H; subst; split; [apply sameConfig_refl|auto]|].
    destruct err0; [inversion H; subst; split; [apply sameConfig_refl|auto]|].
    apply IH in H as [H1 H2].
    destruct (read_keeps n p r) as [K1 K2]. split.
    + eapply sameConfig_trans; [exact K1|]. exact H1.
    + intros Hb. apply H2. cbn [set_next buf]. now apply K2.
Qed.

Lemma Read_keeps p r p' r' piece err :
  Read p r = Some (p', r', piece, err) ->
  sameConfig p p' /\ (buf p = [] -> buf p' = []).
Proof.
  unfold Read. intros H. apply ReadLoop_keeps in H as [H1 H2].
  destruct (isNil (next p)); auto.
Qed.

(** X4: a Read changes none of the three options of the parser, and leaves
    the scratch buffer empty when it found it empty; so after any sequence
    of Read calls on a freshly reset parser, with whatever sources, the
    options are those of the reset and the scratch buffer is empty. *)
Theorem X4_Read_keeps_options_and_empty_buffer :
  (forall p r p' r' piece err,
      Read p r = Some (p', r', piece, err) ->
      sameConfig p p' /\ (buf p = [] -> buf p' = []))
  /\ (forall p0 configs rs,
        sameConfig (Reset p0 configs) (after (Reset p0 configs) rs)
        /\ buf (after (Reset p0 configs) rs) = []).
Proof.
  split; [apply Read_keeps|].
  intros p0 configs rs.
  assert (H : forall q, buf q = [] -> sameConfig q (after q rs) /\ buf (after q rs) = []).
  { induction rs as [|r rs IH]; intros q Hq; cbn [after].
    - split; [apply sameConfig_refl|exact Hq].
    - destruct (Read q r) as [[[[q' r'] piece] err]|] eqn:HR;
        [|split; [apply sameConfig_refl|exact Hq]].
      apply Read_keeps in HR as [H1 H2].
      destruct (IH q' (H2 Hq)) as [I1 I2]. split; [|exact I2].
      eapply sameConfig_trans; eassumption. }
  apply H, Reset_buf.
Qed.

Lemma X4_witness :
  sameConfig zeroParser (set_next zeroParser (Some readKeyFn))
  /\ (buf zeroParser = [] -> buf (set_next zeroParser (Some readKeyFn)) = []).
Proof.
  apply (proj1 X4_Read_keeps_options_and_empty_buffer zeroParser
           (textReader (B "a b;")) (set_next zeroParser (Some readKeyFn))
           (textReader []) (Some (Field (B "a") (B "b"))) None).
  reflexivity.
Defined.

(** ** Reset *)

Lemma fold_apply_last_ReadComments post : forall q,
  forallb (fun c => negb (isReadComments c)) post = true ->
  readComments (fold_left apply post q) = readComments q.
Proof.
  induction post as [|c post IH]; intros q H; cbn [fold_left]; [reflexivity|].
  cbn [forallb] in H. apply andb_prop in H as [Hc H].
  rewrite IH by assumption. destruct c; [discriminate|reflexivity|reflexivity].
Qed.

Lemma fold_apply_last_TrimWhitespace post : forall q,
  forallb (fun c => negb (isTrimWhitespace c)) post = true ->
  keepTrailingWhitespace (fold_left apply post q) = keepTrailingWhitespace q.
Proof.
  induction post as [|c post IH]; intros q H; cbn [fold_left]; [reflexivity|].
  cbn [forallb] in H. apply andb_prop in H as [Hc H].
  rewrite IH by assumption. destruct c; [reflexivity|discriminate|reflexivity].
Qed.

Lemma fold_apply_last_CompressWhitespace post : forall q,
  forallb (fun c => negb (isCompressWhitespace c)) post = true ->
  keepSeqWhitespace (fold_left apply post q) = keepSeqWhitespace q.
Proof.
  induction post as [|c post IH]; intros q H; cbn [fold_left]; [reflexivity|].
  cbn [forallb] in H. apply andb_prop in H as [Hc H].
  rewrite IH by assumption. destruct c; [reflexivity|reflexivity|discriminate].
Qed.

(** X5: Reset forgets the state of the parser it is called on, a poisoned
    one included: the result has depth 0, no continuation and an empty
    buffer, and is the parser that NewParser makes from the same
    configurations.  Each option is decided by the last configuration of
    its kind, whatever stands before it or, of another kind, after it; with
    no configuration of a kind, comments are dropped, whitespace is
    compressed and trailing whitespace is trimmed. *)
Theorem X5_Reset (p : Parser) (pre post : list Configuration) (b : bool) :
  (forall configs,
      Reset p configs = NewParser configs
      /\ depth (Reset p configs) = 0 /\ next (Reset p configs) = None
      /\ buf (Reset p configs) = [])
  /\ (forallb (fun c => negb (isReadComments c)) post = true ->
      readComments (Reset p (pre ++ ReadComments b :: post)) = b
      /\ readComments (Reset p post) = false)
  /\ (forallb (fun c => negb (isCompressWhitespace c)) post = true ->
      keepSeqWhitespace (Reset p (pre ++ CompressWhitespace b :: post)) = negb b
      /\ keepSeqWhitespace (Reset p post) = false)
  /\ (forallb (fun c => negb (isTrimWhitespace c)) post = true ->
      keepTrailingWhitespace (Reset p (pre ++ TrimWhitespace b :: post)) = negb b
      /\ keepTrailingWhitespace (Reset p post) = false).
Proof.
  split; [|split; [|split]].
  - intros configs. split; [reflexivity|].
    split; [apply Reset_depth|]. split; [apply Reset_next|apply Reset_buf].
  - intros H. unfold Reset. rewrite fold_left_app. cbn [fold_left].
    rewrite !fold_apply_last_ReadComments by assumption. split; reflexivity.
  - intros H. unfold Reset. rewrite fold_left_app. cbn [fold_left].
    rewrite !fold_apply_last_CompressWhitespace by assumption. split; reflexivity.
  - intros H. unfold Reset. rewrite fold_left_app. cbn [fold_left].
    rewrite !fold_apply_last_TrimWhitespace by assumption. split; reflexivity.
Qed.

Lemma X5_witness :
  readComments (Reset (set_next zeroParser (Some (errReader ErrUnexpectedNodeLeave)))
                  ([ReadComments false; TrimWhitespace true] ++
                   ReadComments true :: [CompressWhitespace false])) = true
  /\ readComments (Reset (set_next zeroParser (Some (errReader ErrUnexpectedNodeLeave)))
                     [CompressWhitespace false]) = false.
Proof.
  apply (proj1 (proj2 (X5_Reset
           (set_next zeroParser (Some (errReader ErrUnexpectedNodeLeave)))
           [ReadComments false; TrimWhitespace true] [CompressWhitespace false] true))).
  reflexivity.
Defined.

(** ** Nesting of the pieces that Parse returns *)

Lemma openBlocks_app a : forall d b,
  openBlocks d (a ++ b) = openBlocks (openBlocks d a) b.
Proof.
  induction a as [|[[ | | | ]|] a IH]; intros d b; cbn [app openBlocks]; auto.
Qed.

Lemma wellNested_app a : forall d b,
  wellNested d (a ++ b) = wellNested d a && wellNested (openBlocks d a) b.
Proof.
  induction a as [|[[ | | | ]|] a IH]; intros d b; cbn [app openBlocks wellNested]; auto.
  rewrite IH. now rewrite andb_assoc.
Qed.

Lemma readValue_clean p r key :
  o_err (readValue p r key) = None -> nextClean (o_next (readValue p r key)).
Proof.
  unfold readValue.
  destruct (skipBlank (pending r) (fail r)) as [[c err] rs].
  destruct (isFailure err) eqn:Ef.
  { cbn. intros ->. discriminate. }
  destruct (c =? 123); [intros _; exact I|].
  destruct (c =? 35); [intros _; exact I|].
  destruct (if isNil err then _ else _) as [[[c2 err2] rs2] b].
  cbn. intros _. destruct (isEOF err2); [exact I|]. now destruct (c2 =? 35).
Qed.

Lemma readKey_clean p r :
  o_err (readKey p r) = None -> nextClean (o_next (readKey p r)).
Proof.
  unfold readKey.
  destruct (skipBlank (pending r) (fail r)) as [[c err] rs].
  destruct (isFailure err); [intros _; exact I|].
  destruct (c =? 125).
  { unfold leave. destruct (depth p =? 0); [discriminate|intros _; exact I]. }
  destruct (c =? 123); [intros _; exact I|].
  destruct (c =? 35); [intros _; exact I|].
  destruct (if isNil err then _ else _) as [[[c2 err2] rs2] key].
  destruct ((Z.of_nat (length key) =? 0) && negb (isNil err2)).
  { destruct (isEOF err2); [intros _; exact I|]. cbn. intros ->. exact I. }
  destruct (isEOF err2); [intros _; exact I|].
  destruct (c2 =? 35); [intros _; exact I|].
  destruct ((c2 =? 33) || (c2 =? 59)); [intros _; exact I|].
  apply readValue_clean.
Qed.

Lemma read_clean n p r :
  clean n -> o_err (read n p r) = None -> nextClean (o_next (read n p r)).
Proof.
  intros Hn. destruct n as [|nx| |e0]; cbn [read].
  - apply readKey_clean.
  - unfold readComment.
    destruct (readUntil (pending r) (fail r) 10) as [[sq err] rs].
    cbn. intros ->. cbn. now destruct nx.
  - discriminate.
  - destruct Hn.
Qed.

(** A [read] by a continuation without [errReader] reports
    ErrUnexpectedNodeLeave, the source not failing with it, at depth 0
    only. *)
Lemma read_UnexpectedNodeLeave_depth n p r :
  clean n -> fail r <> ErrUnexpectedNodeLeave ->
  o_err (read n p r) = Some ErrUnexpectedNodeLeave -> depth p = 0.
Proof.
  intros Hn Hf. destruct n as [|nx| |e0]; cbn [read].
  - intros H. destruct (readKey_errs p r) as [H1 _].
    revert H. unfold readKey.
    destruct (skipBlank (pending r) (fail r)) as [[c err] rs] eqn:Es.
    destruct (isFailure err).
    { cbn. intros ->. apply skipBlank_err in Es. congruence. }
    destruct (c =? 125).
    { unfold leave. destruct (Z.eqb_spec (depth p) 0); [auto|discriminate]. }
    destruct (c =? 123); [discriminate|].
    destruct (c =? 35); [discriminate|].
    assert (Hl : forall c2 e rs2 key,
               (if isNil err
                then keyLoop (keepSeqWhitespace p) (fail r) rs c (mkAcc false 0 (buf p))
                else (c, err, rs, buf p)) = (c2, Some e, rs2, key) -> e = fail r).
    { intros c2 e rs2 key H. destruct err as [e0|]; cbn [isNil] in H.
      - inversion H; subst. now apply skipBlank_err in Es.
      - now apply keyLoop_err in H. }
    destruct (if isNil err then _ else _) as [[[c2 err2] rs2] key].
    assert (He2 : err2 <> Some ErrUnexpectedNodeLeave).
    { intros ->. specialize (Hl _ _ _ _ eq_refl). congruence. }
    destruct ((Z.of_nat (length key) =? 0) && negb (isNil err2)).
    { destruct (isEOF err2); cbn [o_err]; intros H; congruence. }
    destruct (isEOF err2); [cbn [o_err]; intros H; congruence|].
    destruct (c2 =? 35); [cbn [o_err]; intros H; congruence|].
    destruct ((c2 =? 33) || (c2 =? 59)); [cbn [o_err]; intros H; congruence|].
    intros H. apply readValue_err in H as [H _]. cbn [fail] in H. congruence.
  - unfold readComment.
    destruct (readUntil (pending r) (fail r) 10) as [[sq err] rs] eqn:Eu.
    cbn [o_err]. intros ->. apply readUntil_err in Eu. congruence.
  - discriminate.
  - destruct Hn.
Qed.

Lemma ReadLoop_clean fuel : forall p r p' r' piece,
  nextClean (next p) ->
  ReadLoop fuel p r None None = Some (p', r', piece, None) ->
  nextClean (next p').
Proof.
  induction fuel as [|fuel IH]; intros p r p' r' piece Hn H; cbn [ReadLoop] in H.
  - destruct (next p) eqn:En; inversion H; subst. now rewrite En.
  - destruct (next p) as [n|] eqn:En; [|inversion H; subst; now rewrite En].
    cbn [nextClean] in Hn.
    pose proof (read_clean n p r Hn) as Hc.
    destruct (o_piece (read n p r)) as [pc|] eqn:Ep.
    { rewrite ReadLoop_done in H by (right; left; discriminate).
      inversion H; subst. now apply Hc. }
    destruct (o_err (read n p r)) as [e|] eqn:Ee.
    { rewrite ReadLoop_done in H by (right; right; discriminate).
      discriminate. }
    apply IH in H; [exact H|exact (Hc eq_refl)].
Qed.

Lemma ReadLoop_UnexpectedNodeLeave_depth fuel : forall p r p' r' piece,
  nextClean (next p) -> fail r <> ErrUnexpectedNodeLeave ->
  ReadLoop fuel p r None None = Some (p', r', piece, Some ErrUnexpectedNodeLeave) ->
  depth p = 0.
Proof.
  induction fuel as [|fuel IH]; intros p r p' r' piece Hn Hf H; cbn [ReadLoop] in H.
  - destruct (next p); discriminate.
  - destruct (next p) as [n|] eqn:En; [|discriminate].
    cbn [nextClean] in Hn.
    pose proof (read_clean n p r Hn) as Hc.
    pose proof (read_UnexpectedNodeLeave_depth n p r Hn Hf) as Hd.
    pose proof (read_depth n p r) as Hm. cbv zeta in Hm.
    destruct (o_piece (read n p r)) as [pc|] eqn:Ep.
    { rewrite ReadLoop_done in H by (right; left; discriminate).
      inversion H as [[H1 H2 H3 H4]]. now apply Hd. }
    destruct (o_err (read n p r)) as [e|] eqn:Ee.
    { rewrite ReadLoop_done in H by (right; right; discriminate).
      inversion H as [[H1 H2 H3 H4]]. subst e. now apply Hd. }
    apply IH in H; [|exact (Hc eq_refl)|now rewrite read_fail].
    cbn [depthMove] in Hm. cbn [set_next depth] in H. now rewrite Hm in H.
Qed.

Lemma nextClean_Read_start p :
  nextClean (next p) ->
  nextClean (next (if isNil (next p) then set_next p (Some readKeyFn) else p)).
Proof. destruct (next p) eqn:En; cbn [isNil]; [now rewrite En|intros _; exact I]. Qed.

Lemma ParseLoop_nesting fuel : forall p r pieces res err,
  nextClean (next p) ->
  wellNested 0 pieces = true ->
  openBlocks 0 pieces = depth p ->
  0 <= depth p ->
  depth p + Z.of_nat (length (pending r)) <= maxInt ->
  ParseLoop fuel p r pieces None = Some (res, err) ->
  wellNested 0 res = true /\ 0 <= openBlocks 0 res
  /\ (err = Some ErrUnexpectedNodeLeave -> fail r <> ErrUnexpectedNodeLeave ->
      openBlocks 0 res = 0).
Proof.
  induction fuel as [|fuel IH]; intros p r pieces res err Hn Hw Ho Hd Hb H;
    [discriminate|].
  cbn [ParseLoop] in H.
  destruct (Read p r) as [[[[p1 r1] piece] err1]|] eqn:HR; [|discriminate].
  pose proof (Read_depth _ _ _ _ _ _ HR) as Hm.
  destruct (Read_advances _ _ _ _ _ _ HR) as [Hle Hlt].
  destruct err1 as [e1|]; cbn [isNil] in H.
  - rewrite ParseLoop_error in H. inversion H; subst res err.
    split; [exact Hw|]. split; [lia|].
    destruct e1; cbn; try discriminate. intros _ Hf.
    unfold Read in HR.
    apply ReadLoop_UnexpectedNodeLeave_depth in HR;
      [|now apply nextClean_Read_start|exact Hf].
    rewrite Ho. now destruct (isNil (next p)).
  - specialize (Hlt eq_refl).
    assert (Hstep : wellNested 0 (pieces ++ [piece]) = true
                    /\ openBlocks 0 (pieces ++ [piece]) = depth p1
                    /\ 0 <= depth p1
                    /\ depth p1 + Z.of_nat (length (pending r1)) <= maxInt).
    { rewrite wellNested_app, openBlocks_app, Hw, Ho. cbn [andb].
      unfold maxInt in *.
      destruct piece as [[ | |lbl|k]|]; cbn [depthMove] in Hm;
        cbn [wellNested openBlocks].
      - rewrite Hm. repeat split; lia.
      - rewrite Hm. repeat split; lia.
      - rewrite wrapInt_id in Hm by (unfold maxInt; lia). repeat split; lia.
      - destruct Hm as (-> & Hnz & Hm).
        rewrite wrapInt_id in Hm by (unfold maxInt; lia).
        rewrite Z.eqb_refl. replace (1 <=? depth p) with true
          by (symmetry; apply Z.leb_le; lia).
        repeat split; lia.
      - rewrite Hm. repeat split; lia. }
    destruct Hstep as (S1 & S2 & S3 & S4).
    assert (Hc1 : nextClean (next p1)).
    { unfold Read in HR. apply ReadLoop_clean in HR; [exact HR|].
      now apply nextClean_Read_start. }
    pose proof HR as HR'. unfold Read in HR'.
    apply ReadLoop_consumes in HR' as [Hfail _].
    apply (IH p1 r1 _ _ _ Hc1 S1 S2 S3 S4) in H.
    now rewrite Hfail in H.
Qed.

(** X6: the pieces that Parse returns for a source of fewer than 2^63 runes
    are well nested: no NodeLeave closes a block that is not open, and each
    NodeLeave carries the number of blocks open before it.  When Parse
    stops on ErrUnexpectedNodeLeave (the source itself not failing with
    it), the pieces returned leave no block open. *)
Theorem X6_Parse_pieces_well_nested (r : Reader) (configs : list Configuration)
    (pieces : list (option Piece)) (err : option error) :
  Z.of_nat (length (pending r)) <= maxInt ->
  Parse r configs = Some (pieces, err) ->
  wellNested 0 pieces = true
  /\ 0 <= openBlocks 0 pieces
  /\ (err = Some ErrUnexpectedNodeLeave -> fail r <> ErrUnexpectedNodeLeave ->
      openBlocks 0 pieces = 0).
Proof.
  intros Hb H. unfold Parse in H.
  apply ParseLoop_nesting in H; try exact H.
  - now rewrite Reset_next.
  - reflexivity.
  - now rewrite Reset_depth.
  - rewrite Reset_depth. lia.
  - rewrite Reset_depth. lia.
Qed.

Lemma X6_witness :
  wellNested 0 [Some (NodeEnter (B "a")); Some (NodeEnter []);
                Some (Field (B "b") (B "c")); Some (NodeLeave 2);
                Some (NodeLeave 1)] = true
  /\ 0 <= openBlocks 0 [Some (NodeEnter (B "a")); Some (NodeEnter []);
                        Some (Field (B "b") (B "c")); Some (NodeLeave 2);
                        Some (NodeLeave 1)]
  /\ (Some ErrUnexpectedNodeLeave = Some ErrUnexpectedNodeLeave ->
      fail (textReader (B "a { { b c; } } }")) <> ErrUnexpectedNodeLeave ->
      openBlocks 0 [Some (NodeEnter (B "a")); Some (NodeEnter []);
                    Some (Field (B "b") (B "c")); Some (NodeLeave 2);
                    Some (NodeLeave 1)] = 0).
Proof.
  apply (X6_Parse_pieces_well_nested (textReader (B "a { { b c; } } }")) []
           [Some (NodeEnter (B "a")); Some (NodeEnter []);
            Some (Field (B "b") (B "c")); Some (NodeLeave 2);
            Some (NodeLeave 1)] (Some ErrUnexpectedNodeLeave)).
  - unfold maxInt. simpl. lia.
  - reflexivity.
Defined.

(** ** Blanks before a key and before a value *)

Lemma ReadLoop_fuel fuel : forall p r piece err x fuel',
  ReadLoop fuel p r piece err = Some x -> (fuel <= fuel')%nat ->
  ReadLoop fuel' p r piece err = Some x.
Proof.
  induction fuel as [|fuel IH]; intros p r piece err x fuel' H Hle.
  - cbn [ReadLoop] in H. destruct (next p) eqn:En, piece, err;
      try discriminate; inversion H; subst;
      apply ReadLoop_done; auto; right; try (left; discriminate);
      right; discriminate.
  - destruct fuel' as [|fuel']; [lia|]. cbn [ReadLoop] in *.
    destruct (next p); [|exact H]. destruct piece; [exact H|].
    destruct err; [exact H|]. apply IH; [exact H|lia].
Qed.

(** [Read] with any larger bound on its loop. *)
Lemma Read_fuel p r fuel :
  (length (pending r) < fuel)%nat ->
  ReadLoop fuel (if isNil (next p) then set_next p (Some readKeyFn) else p) r None None
    = Read p r.
Proof.
  intros H. destruct (Read_returns p r) as [x Hx]. rewrite Hx.
  unfold Read in Hx. apply (ReadLoop_fuel _ _ _ _ _ _ _ Hx). lia.
Qed.

Lemma skipBlank_prefix ws rs fl :
  forallb isBlank ws = true -> skipBlank (ws ++ rs) fl = skipBlank rs fl.
Proof.
  induction ws as [|w ws IH]; intros H; [reflexivity|].
  cbn [forallb] in H. apply andb_prop in H as [Hw H].
  cbn [app skipBlank]. rewrite Hw. now apply IH.
Qed.

Lemma readValue_blank_prefix p ws rs fl key :
  forallb isBlank ws = true ->
  readValue p (mkReader (ws ++ rs) fl) key = readValue p (mkReader rs fl) key.
Proof.
  intros H. unfold readValue. cbn [pending fail]. now rewrite skipBlank_prefix.
Qed.

Lemma readKey_blank_prefix p ws rs fl :
  forallb isBlank ws = true ->
  readKey p (mkReader (ws ++ rs) fl) = readKey p (mkReader rs fl).
Proof.
  intros H. unfold readKey. cbn [pending fail]. now rewrite skipBlank_prefix.
Qed.

Lemma plainKeyRune_facts c :
  plainKeyRune c = true ->
  isKeyEnd c = false /\ isBlank c = false /\ (c =? 35) = false.
Proof.
  unfold plainKeyRune. intros H. apply negb_true_iff in H.
  apply orb_false_elim in H as [_ Hend]. split; [exact Hend|].
  unfold isKeyEnd in Hend. unfold isBlank.
  repeat match goal with
         | H : _ || _ = false |- _ => apply orb_false_elim in H as [? ?]
         end.
  split; [|assumption].
  repeat (apply orb_false_intro; try assumption).
Qed.

Lemma isBlank_facts b :
  isBlank b = true ->
  isKeyEnd b = true /\ (b =? 35) = false /\ (b =? 33) = false /\ (b =? 59) = false.
Proof.
  unfold isBlank, isKeyEnd. intros H.
  repeat match goal with
         | H : _ || _ = true |- _ => apply orb_prop in H as [H|H]
         end; apply Z.eqb_eq in H; subst; repeat split.
Qed.

(** A key of plain runes ended by a blank: readKey goes on with readValue on
    what follows the blank. *)
Lemma readKey_plain_key_then_value p c0 k b rs fl :
  forallb plainKeyRune (c0 :: k) = true ->
  c0 <> LBRACE -> c0 <> RBRACE -> isBlank b = true ->
  readKey p (mkReader (c0 :: k ++ b :: rs) fl)
    = readValue (set_buf p []) (mkReader rs fl)
        (buf p ++ encodeAll (if keepSeqWhitespace p then c0 :: k
                             else squeeze 0 (c0 :: k))).
Proof.
  intros Hp Hbr Hbl Hb.
  assert (H0 : plainKeyRune c0 = true)
    by (cbn [forallb] in Hp; now apply andb_prop in Hp as [? _]).
  destruct (plainKeyRune_facts c0 H0) as (Hend & Hblank & H35).
  destruct (isBlank_facts b Hb) as (Bend & B35 & B33 & B59).
  unfold readKey. cbn [pending fail skipBlank]. rewrite Hblank.
  cbn [isFailure isNil].
  apply Z.eqb_neq in Hbr, Hbl. rewrite Hbr, Hbl, H35.
  change (keyLoop (keepSeqWhitespace p) fl (k ++ b :: rs) c0 (mkAcc false 0 (buf p)))
    with (keyTail (keepSeqWhitespace p) fl ((c0 :: k) ++ b :: rs) (mkAcc false 0 (buf p))).
  rewrite keyTail_plain by auto. cbn [abuf last isNil negb isEOF].
  rewrite andb_false_r, B35, B33, B59. reflexivity.
Qed.

(** X7: the blanks (space, tab, CR, LF) before a key and before a value are
    skipped, line ends included.  Read and readValue return the same on a
    source with and without leading blanks; and after a key of plain
    characters and the blank that ends it, any further blanks, line ends
    included, change nothing: a key alone on its line takes its value from
    the next line that is not blank. *)
Theorem X7_leading_blanks_are_skipped (p : Parser) (ws rs : list rune) (fl : error) :
  forallb isBlank ws = true ->
  (forall key,
      readValue p (mkReader (ws ++ rs) fl) key = readValue p (mkReader rs fl) key)
  /\ (next p = None \/ next p = Some readKeyFn ->
      Read p (mkReader (ws ++ rs) fl) = Read p (mkReader rs fl))
  /\ (forall c0 k b,
      forallb plainKeyRune (c0 :: k) = true ->
      c0 <> LBRACE -> c0 <> RBRACE -> isBlank b = true ->
      readKey p (mkReader (c0 :: k ++ b :: ws ++ rs) fl)
        = readKey p (mkReader (c0 :: k ++ b :: rs) fl)).
Proof.
  intros Hws. split; [|split].
  - intros key. now apply readValue_blank_prefix.
  - intros Hn.
    rewrite <- (Read_fuel p (mkReader rs fl) (S (length (ws ++ rs))))
      by (cbn [pending]; rewrite length_app; lia).
    unfold Read. cbn [pending].
    assert (Hnx : next (if isNil (next p) then set_next p (Some readKeyFn) else p)
                  = Some readKeyFn)
      by (destruct Hn as [Hn|Hn]; rewrite Hn; [reflexivity|exact Hn]).
    cbn [ReadLoop]. rewrite Hnx. cbn [read].
    now rewrite readKey_blank_prefix.
  - intros c0 k b Hp H1 H2 Hb.
    rewrite !readKey_plain_key_then_value by assumption.
    now apply readValue_blank_prefix.
Qed.

Lemma X7_witness :
  Read zeroParser (mkReader ([LF; LF; SP; TAB] ++ B "key v" ++ [LF]) EOF)
    = Read zeroParser (mkReader (B "key v" ++ [LF]) EOF)
  /\ readKey zeroParser
       (mkReader (B "key " ++ [LF; LF; SP; TAB] ++ B "next line" ++ [LF]) EOF)
    = readKey zeroParser (mkReader (B "key " ++ B "next line" ++ [LF]) EOF).
Proof.
  destruct (X7_leading_blanks_are_skipped zeroParser [LF; LF; SP; TAB]
              (B "key v" ++ [LF]) EOF eq_refl) as (_ & H2 & _).
  destruct (X7_leading_blanks_are_skipped zeroParser [LF; LF; SP; TAB]
              (B "next line" ++ [LF]) EOF eq_refl) as (_ & _ & H3).
  split.
  - apply H2. left. reflexivity.
  - apply (H3 107 (B "ey") SP); [reflexivity|discriminate|discriminate|reflexivity].
Defined.

(** ** chompBuffer *)

Lemma dropWhileEnd_snoc f l x :
  f x = true -> dropWhileEnd f (l ++ [x]) = dropWhileEnd f l.
Proof.
  intros H. unfold dropWhileEnd. rewrite rev_app_distr. cbn [rev app dropWhile].
  now rewrite H.
Qed.

Lemma dropWhileEnd_idem f l : dropWhileEnd f (dropWhileEnd f l) = dropWhileEnd f l.
Proof.
  apply dropWhileEnd_id.
  destruct (dropWhileEnd_spec f l) as (t & _ & _ & Hx).
  destruct (rev (dropWhileEnd f l)) as [|x v] eqn:E; [reflexivity|].
  apply (Hx (rev v) x).
  rewrite <- (rev_involutive (dropWhileEnd f l)), E. reflexivity.
Qed.

Lemma chompable_byte x :
  0 <= x <= 255 ->
  chompable x = existsb (Z.eqb x) [TAB; VT; FF; CR; SP; 133; 160].
Proof.
  intros Hx. unfold chompable, unicode.IsSpace.
  replace ((0 <=? x) && (x <=? 255)) with true
    by (symmetry; apply andb_true_intro; split; [apply Z.leb_le|apply Z.leb_le]; lia).
  cbn [existsb].
  repeat match goal with
         | |- context [x =? ?k] => destruct (Z.eqb_spec x k); [subst; reflexivity|]
         end.
  reflexivity.
Qed.

(** X8: chompBuffer cuts from the end of the buffer the longest run of
    bytes that are whitespace other than LF (tab, vertical tab, form feed,
    CR, space, 0x85, 0xA0) and nothing else: the buffer is the result
    followed by such bytes only, the result does not end with such a byte,
    and chomping twice is chomping once. *)
Theorem X8_chompBuffer_cuts_trailing_whitespace (b : list Z) :
  (exists t, b = chompBuffer b ++ t
             /\ forallb chompable t = true
             /\ forall v x, chompBuffer b = v ++ [x] -> chompable x = false)
  /\ chompBuffer (chompBuffer b) = chompBuffer b
  /\ (forall x, 0 <= x <= 255 ->
        chompable x = existsb (Z.eqb x) [TAB; VT; FF; CR; SP; 133; 160]).
Proof.
  split; [|split].
  - apply dropWhileEnd_spec.
  - apply dropWhileEnd_idem.
  - apply chompable_byte.
Qed.

Lemma EncodeRune_last c :
  128 <= c <= 1114111 -> ~ (55296 <= c <= 57343) ->
  exists pre, pre <> [] /\ utf8.EncodeRune c = pre ++ [Z.lor 128 (Z.land c 63)].
Proof.
  intros Hc Hs. unfold utf8.EncodeRune.
  replace ((0 <=? c) && (c <? 128)) with false
    by (symmetry; apply andb_false_intro2; apply Z.ltb_ge; lia).
  destruct ((0 <=? c) && (c <=? 2047)).
  { eexists [_]. split; [discriminate|reflexivity]. }
  replace ((c <? 0) || (utf8.MaxRune <? c) || ((55296 <=? c) && (c <=? 57343)))
    with false.
  2:{ symmetry. unfold utf8.MaxRune.
      apply orb_false_intro; [apply orb_false_intro|].
      - apply Z.ltb_ge; lia.
      - apply Z.ltb_ge; lia.
      - destruct (Z.leb_spec 55296 c); [|reflexivity].
        cbn [andb]. apply Z.leb_gt. lia. }
  destruct (c <=? 65535).
  - eexists [_; _]. split; [discriminate|reflexivity].
  - eexists [_; _; _]. split; [discriminate|reflexivity].
Qed.

(** X9: chompBuffer works on bytes, not on characters.  The UTF-8 encoding
    of a character above U+007F whose code is 5 or 32 modulo 64 (U+00E0,
    U+0105, U+00A0, ...) ends with the byte 0x85 or 0xA0, and chompBuffer
    cuts that byte (and goes on with the bytes before it), leaving the
    encoding of the character incomplete in the buffer. *)
Theorem X9_chompBuffer_cuts_inside_a_character (b : list Z) (c : rune) :
  128 <= c <= 1114111 -> ~ (55296 <= c <= 57343) ->
  Z.land c 63 = 5 \/ Z.land c 63 = 32 ->
  exists pre x,
    utf8.EncodeRune c = pre ++ [x] /\ pre <> []
    /\ chompBuffer (b ++ utf8.EncodeRune c) = chompBuffer (b ++ pre).
Proof.
  intros Hc Hs Hm.
  destruct (EncodeRune_last c Hc Hs) as (pre & Hne & E).
  exists pre, (Z.lor 128 (Z.land c 63)). split; [exact E|]. split; [exact Hne|].
  rewrite E, app_assoc. apply dropWhileEnd_snoc.
  destruct Hm as [-> | ->]; reflexivity.
Qed.

Lemma X9_witness :
  exists pre x,
    utf8.EncodeRune 224 = pre ++ [x] /\ pre <> []
    /\ chompBuffer (B "voil" ++ utf8.EncodeRune 224) = chompBuffer (B "voil" ++ pre).
Proof.
  apply (X9_chompBuffer_cuts_inside_a_character (B "voil") 224).
  - lia.
  - lia.
  - right. reflexivity.
Defined.

(** The value [voilà], continued on the next line, loses the last byte of
    its last character. *)
Example continuation_cuts_character :
  Read zeroParser (textReader (B "k voil" ++ [224; BACKSLASH; LF] ++ B "x" ++ [LF]))
    = Some (set_next zeroParser (Some readKeyFn), textReader [],
            Some (Field (B "k") (B "voil" ++ [195; LF] ++ B "x")), None)
  /\ utf8.EncodeRune 224 = [195; 160].
Proof. split; reflexivity. Qed.

(** ** The 8-bit reader, further *)


(** ** Reading bytes up to a delimiter *)




(** ** Rendering a Field and reading it back *)

Lemma keyEscaper_None x :
  keyEscaper x = None ->
  asciiByte x = true ->
  isKeyEnd x = false /\ isBlank x = false /\ (x =? 13) = false
  /\ (x =? 35) = false /\ unicode.IsSpace x = false.
Proof.
  unfold keyEscaper, asciiByte, isKeyEnd, isBlank, unicode.IsSpace.
  intros H Ha. apply andb_prop in Ha as [H0 H1].
  apply Z.leb_le in H0. apply Z.ltb_lt in H1.
  replace ((0 <=? x) && (x <=? 255)) with true
    by (symmetry; apply andb_true_intro; split; apply Z.leb_le; lia).
  repeat match type of H with
         | context [x =? ?k] => destruct (Z.eqb_spec x k); [discriminate H|]
         end.
  repeat match goal with
         | |- context [x =? ?k] => destruct (Z.eqb_spec x k); [lia|]
         end.
  repeat split.
Qed.

Lemma valueEscaper_None x :
  valueEscaper x = None ->
  asciiByte x = true ->
  isValueEnd x = false /\ (x =? 13) = false /\ (x =? 35) = false
  /\ unicode.IsSpace x = (x =? 32) || (x =? 9)
  /\ isBlank x = (x =? 32) || (x =? 9).
Proof.
  unfold valueEscaper, asciiByte, isValueEnd, isBlank, unicode.IsSpace.
  intros H Ha. apply andb_prop in Ha as [H0 H1].
  apply Z.leb_le in H0. apply Z.ltb_lt in H1.
  replace ((0 <=? x) && (x <=? 255)) with true
    by (symmetry; apply andb_true_intro; split; apply Z.leb_le; lia).
  repeat match type of H with
         | context [x =? ?k] => destruct (Z.eqb_spec x k); [discriminate H|]
         end.
  repeat match goal with
         | |- context [x =? ?k] => destruct (Z.eqb_spec x k); try lia
         end; repeat split.
Qed.

Lemma EncodeRune_ascii x : asciiByte x = true -> utf8.EncodeRune x = [x].
Proof. unfold utf8.EncodeRune, asciiByte. now intros ->. Qed.

Lemma renderable_facts x :
  renderable x = true -> asciiByte x = true /\ (x =? 92) = false.
Proof.
  unfold renderable. intros H. apply andb_prop in H as [H1 H2].
  now apply negb_true_iff in H2.
Qed.

Lemma keyTail_rendered_byte keepSeq fl x R l b :
  renderable x = true ->
  keyTail keepSeq fl (Replace keyEscaper [x] ++ R) (mkAcc false l b)
    = keyTail keepSeq fl R (mkAcc false x (b ++ [x])).
Proof.
  intros Hx. apply renderable_facts in Hx as [Ha H92].
  destruct (keyEscaper x) as [e|] eqn:Ek.
  - apply keyTail_escaped_byte. congruence.
  - destruct (keyEscaper_None x Ek Ha) as (Hend & _ & H13 & _ & Hsp).
    cbn [Replace]. rewrite Ek. cbn [app keyTail].
    rewrite keyLoop_unfold. cbn [escape negb andb]. rewrite Hend. cbn [negb].
    unfold keyStep. cbn [escape last abuf negb andb].
    rewrite H13, H92, Hsp, andb_false_r.
    unfold gobytes.WriteRune. now rewrite EncodeRune_ascii.
Qed.

Lemma keyTail_rendered keepSeq fl t rest k : forall l b,
  forallb renderable k = true -> isKeyEnd t = true ->
  keyTail keepSeq fl (Replace keyEscaper k ++ t :: rest) (mkAcc false l b)
    = (t, None, rest, b ++ k).
Proof.
  induction k as [|x k IH]; intros l b Hk Ht.
  - cbn [Replace app keyTail]. rewrite keyLoop_unfold. cbn [escape negb andb].
    rewrite Ht. cbn. now rewrite app_nil_r.
  - cbn [forallb] in Hk. apply andb_prop in Hk as [Hx Hk].
    rewrite Replace_cons, <- app_assoc, keyTail_rendered_byte by assumption.
    rewrite IH by assumption. now rewrite <- app_assoc.
Qed.

Lemma valueTail_rendered_byte keepSeq fl x R b :
  renderable x = true ->
  keepSeq = true
  \/ negb (((x =? 32) || (x =? 9)) && unicode.IsSpace (List.last b 0))
     && negb ((x =? 10) && chompable (List.last b 0)) = true ->
  valueTail keepSeq fl (Replace valueEscaper [x] ++ R) (mkAcc false (List.last b 0) b)
    = valueTail keepSeq fl R (mkAcc false x (b ++ [x])).
Proof.
  intros Hx Hc. apply renderable_facts in Hx as [Ha H92].
  destruct (valueEscaper x) as [e|] eqn:Ev.
  - apply valueTail_escaped_byte; [congruence|].
    destruct Hc as [Hc|Hc]; [now left|right].
    now apply andb_prop in Hc as [_ Hc].
  - destruct (valueEscaper_None x Ev Ha) as (Hend & H13 & H35 & Hsp & _).
    cbn [Replace]. rewrite Ev. cbn [app valueTail].
    rewrite valueLoop_unfold. cbn [escape negb andb]. rewrite Hend. cbn [negb].
    unfold valueStep. cbn [escape last abuf negb andb].
    rewrite H13, H92, H35, Hsp.
    replace (negb keepSeq && unicode.IsSpace (List.last b 0) && ((x =? 32) || (x =? 9)))
      with false.
    + unfold gobytes.WriteRune. now rewrite EncodeRune_ascii.
    + symmetry. destruct Hc as [->|Hc]; [reflexivity|].
      apply andb_prop in Hc as [Hc _]. apply negb_true_iff in Hc.
      rewrite <- andb_assoc, (andb_comm (unicode.IsSpace _)), Hc.
      apply andb_false_r.
Qed.

Lemma valueTail_rendered keepSeq fl t rest v : forall b,
  forallb renderable v = true -> isValueEnd t = true ->
  keepSeq = true \/ valueSurvives (List.last b 0) v = true ->
  valueTail keepSeq fl (Replace valueEscaper v ++ t :: rest) (mkAcc false (List.last b 0) b)
    = (t, None, rest, b ++ v).
Proof.
  induction v as [|x v IH]; intros b Hv Ht Hc.
  - cbn [Replace app valueTail]. rewrite valueLoop_unfold. cbn [escape negb andb].
    rewrite Ht. cbn. now rewrite app_nil_r.
  - cbn [forallb] in Hv. apply andb_prop in Hv as [Hx Hv].
    rewrite Replace_cons, <- app_assoc, valueTail_rendered_byte; [|assumption|].
    + rewrite <- (last_last b x 0) at 1.
      rewrite IH; [now rewrite <- app_assoc|assumption|assumption|].
      destruct Hc as [Hc|Hc]; [now left|right].
      cbn [valueSurvives] in Hc. apply andb_prop in Hc as [_ Hc].
      now rewrite last_last.
    + destruct Hc as [Hc|Hc]; [now left|right].
      cbn [valueSurvives] in Hc. now apply andb_prop in Hc as [Hc _].
Qed.

(** The first rune of a rendered string: a backslash or its first byte. *)
Lemma Replace_head table x s R :
  (forall e, table x = Some e -> exists y, e = [92; y]) ->
  exists c R', Replace table (x :: s) ++ R = c :: R'
               /\ (c = 92 \/ (c = x /\ table x = None)).
Proof.
  intros H. cbn [Replace]. destruct (table x) as [e|] eqn:E.
  - destruct (H e eq_refl) as [y ->]. cbn [app].
    eexists _, _. split; [reflexivity|now left].
  - cbn [app]. eexists _, _. split; [reflexivity|right; now split].
Qed.

Lemma keyEscaper_shape x e : keyEscaper x = Some e -> exists y, e = [92; y].
Proof.
  unfold keyEscaper.
  repeat match goal with
         | |- context [x =? ?k] => destruct (x =? k); [intros [= <-]; eauto|]
         end.
  discriminate.
Qed.

Lemma valueEscaper_shape x e : valueEscaper x = Some e -> exists y, e = [92; y].
Proof.
  unfold valueEscaper.
  repeat match goal with
         | |- context [x =? ?k] => destruct (x =? k); [intros [= <-]; eauto|]
         end.
  discriminate.
Qed.

(** readKey on a rendered key followed by a rune that ends keys: the key
    loop stops on that rune with the key in the buffer. *)
Lemma readKey_rendered_key p k t rest fl :
  buf p = [] ->
  forallb renderable k = true -> startsKey k = true ->
  isKeyEnd t = true -> (k = [] -> isBlank t = false) -> t <> HASH ->
  readKey p (mkReader (Replace keyEscaper k ++ t :: rest) fl)
    = if (t =? BANG) || (t =? SEMI)
      then mkOut p (mkReader rest fl) (Some readKeyFn) (Some (Field k [])) None
      else readValue p (mkReader rest fl) k.
Proof.
  intros Hb Hk Hs Ht Htb Ht35.
  assert (Hhd : exists c R, Replace keyEscaper k ++ t :: rest = c :: R
                  /\ isBlank c = false /\ (c =? 125) = false
                  /\ (c =? 123) = false /\ (c =? 35) = false).
  { destruct k as [|x k].
    - exists t, rest. split; [reflexivity|]. split; [now apply Htb|].
      apply Z.eqb_neq in Ht35. unfold isKeyEnd in Ht.
      repeat match goal with
             | H : _ || _ = true |- _ => apply orb_prop in H as [H|H]
             end; apply Z.eqb_eq in Ht; subst; try discriminate; repeat split.
    - destruct (Replace_head keyEscaper x k (t :: rest) (keyEscaper_shape x))
        as (c & R & E & Hc0); exists c, R; (split; [exact E|]);
        destruct Hc0 as [->|[-> En]].
      + repeat split.
      + cbn [forallb] in Hk. apply andb_prop in Hk as [Hx _].
        apply renderable_facts in Hx as [Ha _].
        destruct (keyEscaper_None x En Ha) as (_ & Hbl & _ & H35 & _).
        cbn [startsKey] in Hs. apply andb_prop in Hs as [H1 H2].
        apply negb_true_iff in H1, H2. now split. }
  destruct Hhd as (c & R & E & Hbl & H125 & H123 & H35).
  unfold readKey. cbn [pending fail]. rewrite E. cbn [skipBlank]. rewrite Hbl.
  cbn [isFailure isNil]. rewrite H125, H123, H35.
  change (keyLoop (keepSeqWhitespace p) fl R c (mkAcc false 0 (buf p)))
    with (keyTail (keepSeqWhitespace p) fl (c :: R) (mkAcc false 0 (buf p))).
  rewrite <- E, keyTail_rendered by assumption.
  rewrite Hb. cbn [app isNil negb isEOF]. rewrite andb_false_r.
  apply Z.eqb_neq in Ht35. rewrite Ht35.
  replace (set_buf p []) with p by (destruct p; cbn in *; now subst).
  reflexivity.
Qed.

Lemma readValue_rendered_value p k v t rest fl :
  buf p = [] ->
  forallb renderable v = true -> startsValue v = true ->
  keepSeqWhitespace p = true \/ valueSurvives 0 v = true ->
  keepTrailingWhitespace p = true \/ endsTrimmed v = false ->
  t = LF \/ t = SEMI ->
  readValue p (mkReader (Replace valueEscaper v ++ t :: rest) fl) k
    = mkOut p (mkReader rest fl) (Some readKeyFn) (Some (Field k v)) None.
Proof.
  intros Hb Hv Hs Hc Htr Ht.
  destruct v as [|x v]; [discriminate|].
  destruct (Replace_head valueEscaper x v (t :: rest) (valueEscaper_shape x))
    as (c & R & E & Hc0).
  assert (Hhd : isBlank c = false /\ (c =? 123) = false /\ (c =? 35) = false).
  { destruct Hc0 as [->|[-> En]]; [repeat split|].
    cbn [forallb] in Hv. apply andb_prop in Hv as [Hx _].
    apply renderable_facts in Hx as [Ha _].
    destruct (valueEscaper_None x En Ha) as (_ & _ & H35 & _ & Hbl).
    cbn [startsValue] in Hs. apply andb_prop in Hs as [Hs H9].
    apply andb_prop in Hs as [H123 H32].
    apply negb_true_iff in H123, H32, H9.
    rewrite Hbl, H32, H9. now split. }
  destruct Hhd as (Hbl & H123 & H35).
  unfold readValue. cbn [pending fail]. rewrite E. cbn [skipBlank]. rewrite Hbl.
  cbn [isFailure isNil]. rewrite H123, H35.
  change (valueLoop (keepSeqWhitespace p) fl R c (mkAcc false 0 (buf p)))
    with (valueTail (keepSeqWhitespace p) fl (c :: R) (mkAcc false 0 (buf p))).
  rewrite <- E, Hb.
  change (mkAcc false 0 []) with (mkAcc false (List.last [] 0) []).
  rewrite valueTail_rendered;
    [|assumption|destruct Ht as [->| ->]; reflexivity|exact Hc].
  cbn [app isEOF]. rewrite valueString_id by assumption.
  replace (t =? 35) with false by (destruct Ht as [->| ->]; reflexivity).
  replace (set_buf p []) with p by (destruct p; cbn in *; now subst).
  reflexivity.
Qed.



(** ** Comment lines *)

Lemma encodeAll_ascii c : forallb asciiByte c = true -> encodeAll c = c.
Proof.
  induction c as [|x c IH]; intros H; [reflexivity|].
  cbn [forallb] in H. apply andb_prop in H as [Hx H].
  cbn [encodeAll flat_map]. rewrite EncodeRune_ascii by assumption.
  cbn [app]. f_equal. now apply IH.
Qed.

Lemma set_next_start p :
  next p = None \/ next p = Some readKeyFn ->
  (if isNil (next p) then set_next p (Some readKeyFn) else p)
    = set_next p (Some readKeyFn).
Proof.
  intros [Hn|Hn]; rewrite Hn; cbn [isNil]; [reflexivity|].
  now rewrite <- Hn, set_next_same.
Qed.

Lemma readComment_line_off q nx c rest fl :
  readComments q = false -> ~ In 10 c ->
  readComment q nx (mkReader (c ++ 10 :: rest) fl)
    = mkOut q (mkReader rest fl) nx None None.
Proof.
  intros Hq Hc. unfold readComment. cbn [pending fail].
  rewrite readUntil_line by assumption. cbn [isNil isFailure]. now rewrite Hq.
Qed.

Lemma ReadLoop_comment_line_off n q c rest fl :
  next q = Some readKeyFn -> readComments q = false -> ~ In 10 c ->
  ReadLoop (S (S n)) q (mkReader (35 :: c ++ 10 :: rest) fl) None None
    = ReadLoop n q (mkReader rest fl) None None.
Proof.
  intros Hn Hq Hc.
  assert (Hk : readKey q (mkReader (35 :: c ++ 10 :: rest) fl)
               = mkOut q (mkReader (c ++ 10 :: rest) fl)
                       (Some (readCommentFn (Some readKeyFn))) None None)
    by reflexivity.
  change (ReadLoop (S (S n)) q (mkReader (35 :: c ++ 10 :: rest) fl) None None)
    with (match next q with
          | Some k =>
              let o := read k q (mkReader (35 :: c ++ 10 :: rest) fl) in
              ReadLoop (S n) (set_next (o_parser o) (o_next o)) (o_reader o)
                       (o_piece o) (o_err o)
          | None => Some (q, mkReader (35 :: c ++ 10 :: rest) fl, None, None)
          end).
  rewrite Hn. cbv zeta. cbn [read]. rewrite Hk.
  cbn [o_parser o_next o_reader o_piece o_err].
  change (ReadLoop (S n) (set_next q (Some (readCommentFn (Some readKeyFn))))
            (mkReader (c ++ 10 :: rest) fl) None None)
    with (let o := readComment (set_next q (Some (readCommentFn (Some readKeyFn))))
                     (Some readKeyFn) (mkReader (c ++ 10 :: rest) fl) in
          ReadLoop n (set_next (o_parser o) (o_next o)) (o_reader o)
                   (o_piece o) (o_err o)).
  cbv zeta. rewrite readComment_line_off by assumption.
  cbn [o_parser o_next o_reader o_piece o_err].
  now rewrite set_next_set_next, <- Hn, set_next_same.
Qed.

(** X13: a comment line met where a key is looked for.  With ReadComments
    on, Read returns the text between the hash and the LF as a Comment, so
    that a Comment of 7-bit text without LF, rendered by String and
    followed by a line end, is read back as it was.  With ReadComments off
    the line is passed over within the same Read, which returns what it
    would return on the text after the line. *)
Theorem X13_comment_line (p : Parser) (c rest : list Z) (fl : error) :
  next p = None \/ next p = Some readKeyFn ->
  ~ In LF c ->
  (readComments p = true -> forallb asciiByte c = true ->
   Read p (mkReader (String_ (Comment c) ++ LF :: rest) fl)
     = Some (set_next p (Some readKeyFn), mkReader rest fl, Some (Comment c), None))
  /\ (readComments p = false ->
      Read p (mkReader (HASH :: c ++ LF :: rest) fl) = Read p (mkReader rest fl)).
Proof.
  intros Hn Hc. split.
  - intros Hrc Ha. cbn [String_ app].
    rewrite (Read_comment_line p c rest fl Hrc Hn Hc).
    now rewrite encodeAll_ascii.
  - intros Hrc.
    rewrite <- (Read_fuel p (mkReader rest fl) (length (c ++ LF :: rest)))
      by (cbn [pending]; rewrite length_app; cbn [length]; lia).
    unfold Read. rewrite (set_next_start p Hn).
    apply ReadLoop_comment_line_off; [reflexivity|exact Hrc|exact Hc].
Qed.

Lemma X13_witness :
  Read (NewParser [ReadComments true])
       (mkReader (String_ (Comment (B " a note")) ++ LF :: B "k v") EOF)
    = Some (set_next (NewParser [ReadComments true]) (Some readKeyFn),
            mkReader (B "k v") EOF, Some (Comment (B " a note")), None)
  /\ Read zeroParser (mkReader (HASH :: B " a note" ++ LF :: B "k v;") EOF)
    = Read zeroParser (mkReader (B "k v;") EOF).
Proof.
  split.
  - apply (proj1 (X13_comment_line (NewParser [ReadComments true]) (B " a note")
                    (B "k v") EOF (or_introl eq_refl)
                    ltac:(cbn; intros H; repeat destruct H as [H|H]; discriminate || exact H)));
      reflexivity.
  - apply (proj2 (X13_comment_line zeroParser (B " a note")
                    (B "k v;") EOF (or_introl eq_refl)
                    ltac:(cbn; intros H; repeat destruct H as [H|H]; discriminate || exact H))).
    reflexivity.
Defined.

(** ** A source that fails *)

Lemma Read_via_readKey p r :
  next p = None \/ next p = Some readKeyFn ->
  let o := readKey (set_next p (Some readKeyFn)) r in
  o_piece o <> None \/ o_err o <> None ->
  Read p r = Some (set_next (o_parser o) (o_next o), o_reader o, o_piece o, o_err o).
Proof.
  intros Hn o Ho. unfold Read. rewrite (set_next_start p Hn).
  cbn [ReadLoop next set_next read]. fold o.
  apply ReadLoop_done. right. exact Ho.
Qed.

Lemma skipBlank_blanks ws fl :
  forallb isBlank ws = true -> skipBlank ws fl = (0, Some fl, []).
Proof.
  induction ws as [|w ws IH]; intros H; [reflexivity|].
  cbn [forallb] in H. apply andb_prop in H as [Hw H].
  cbn [skipBlank]. rewrite Hw. now apply IH.
Qed.

Lemma isFailure_not_EOF fl : fl <> EOF -> isFailure (Some fl) = true /\ isEOF (Some fl) = false.
Proof. destruct fl; [congruence| |]; now split. Qed.

Lemma keyTail_plain_end keepSeq fl text : forall a,
  escape a = false -> forallb plainKeyRune text = true ->
  keyTail keepSeq fl text a
    = (0, Some fl, [],
       abuf a ++ encodeAll (if keepSeq then text else squeeze (last a) text)).
Proof.
  induction text as [|x text IH]; intros a He Hp.
  - cbn. destruct keepSeq; now rewrite app_nil_r.
  - cbn [forallb] in Hp. apply andb_prop in Hp as [Hx Hp].
    destruct (plainKeyRune_facts x Hx) as (Hend & _ & _).
    assert (H92 : (x =? 92) = false).
    { unfold plainKeyRune in Hx. apply negb_true_iff in Hx.
      now apply orb_false_elim in Hx as [? _]. }
    assert (H13 : (x =? 13) = false).
    { unfold isKeyEnd in Hend. apply orb_false_elim in Hend as [Hend _].
      now apply orb_false_elim in Hend as [_ ?]. }
    cbn [keyTail]. rewrite keyLoop_unfold, He, Hend.
    unfold keyStep. rewrite H13, He, H92. cbn [negb andb].
    destruct keepSeq; cbn [negb andb].
    + rewrite IH by auto. cbn [abuf encodeAll flat_map].
      unfold gobytes.WriteRune. now rewrite <- app_assoc.
    + cbn [squeeze].
      destruct (unicode.IsSpace (last a) && unicode.IsSpace x).
      * now rewrite IH by auto.
      * rewrite IH by auto. cbn [abuf last encodeAll flat_map].
        unfold gobytes.WriteRune. now rewrite <- app_assoc.
Qed.

Lemma valueTail_plain_end keepSeq fl text : forall a,
  escape a = false -> forallb plainValueRune text = true ->
  valueTail keepSeq fl text a
    = (0, Some fl, [],
       abuf a ++ encodeAll (if keepSeq then text else squeeze (last a) text)).
Proof.
  induction text as [|x text IH]; intros a He Hp.
  - cbn. destruct keepSeq; now rewrite app_nil_r.
  - cbn [forallb] in Hp. apply andb_prop in Hp as [Hx Hp].
    unfold plainValueRune in Hx. apply negb_true_iff in Hx.
    apply orb_false_elim in Hx as [Hx Hend].
    apply orb_false_elim in Hx as [H92 H13].
    assert (H35 : (x =? 35) = false).
    { unfold isValueEnd in Hend. now apply orb_false_elim in Hend as [_ ?]. }
    cbn [valueTail]. rewrite valueLoop_unfold, He, Hend.
    unfold valueStep. rewrite H13, He, H92, H35. cbn [negb andb].
    destruct keepSeq; cbn [negb andb].
    + rewrite IH by auto. cbn [abuf encodeAll flat_map].
      unfold gobytes.WriteRune. now rewrite <- app_assoc.
    + cbn [squeeze].
      destruct (unicode.IsSpace (last a) && unicode.IsSpace x).
      * now rewrite IH by auto.
      * rewrite IH by auto. cbn [abuf last encodeAll flat_map].
        unfold gobytes.WriteRune. now rewrite <- app_assoc.
Qed.

Lemma readValue_on_failure p fl key :
  fl <> EOF ->
  readValue p (mkReader [] fl) key
    = mkOut p (mkReader [] fl) (Some (errReader fl)) None (Some fl).
Proof.
  intros Hf. unfold readValue. cbn [pending fail skipBlank].
  now rewrite (proj1 (isFailure_not_EOF fl Hf)).
Qed.

(** X14: how a source that fails with an error other than io.EOF is
    reported.  When it fails while a key is looked for, Read returns the
    error and no piece, and the parser then answers io.EOF, not the error,
    to every later Read.  When it fails inside a key, Read returns the
    error and no piece (the key read so far is lost), and every later Read
    returns that error again.  When it fails inside a value, Read returns
    the Field with the value read so far together with the error, and the
    parser goes on looking for a key. *)
Theorem X14_failing_source (p : Parser) (fl : error) :
  fl <> EOF -> next p = None \/ next p = Some readKeyFn ->
  (forall ws,
      forallb isBlank ws = true ->
      Read p (mkReader ws fl)
        = Some (set_next p (Some eofReader), mkReader [] fl, None, Some fl)
      /\ forall r, Read (set_next p (Some eofReader)) r
                   = Some (set_next p (Some eofReader), r, None, Some EOF))
  /\ (forall c0 k,
      forallb plainKeyRune (c0 :: k) = true -> c0 <> LBRACE -> c0 <> RBRACE ->
      Read p (mkReader (c0 :: k) fl)
        = Some (set_next (set_buf p []) (Some (errReader fl)), mkReader [] fl,
                None, Some fl)
      /\ forall r, Read (set_next (set_buf p []) (Some (errReader fl))) r
                   = Some (set_next (set_buf p []) (Some (errReader fl)), r,
                           None, Some fl))
  /\ (forall c0 k b v0 v,
      forallb plainKeyRune (c0 :: k) = true -> c0 <> LBRACE -> c0 <> RBRACE ->
      isBlank b = true ->
      forallb plainValueRune (v0 :: v) = true -> isBlank v0 = false ->
      v0 <> LBRACE ->
      Read p (mkReader (c0 :: k ++ b :: v0 :: v) fl)
        = Some (set_next (set_buf p []) (Some readKeyFn), mkReader [] fl,
                Some (Field
                        (buf p ++ encodeAll (if keepSeqWhitespace p then c0 :: k
                                             else squeeze 0 (c0 :: k)))
                        (valueString (keepTrailingWhitespace p)
                           (encodeAll (if keepSeqWhitespace p then v0 :: v
                                       else squeeze 0 (v0 :: v))))),
                Some fl)).
Proof.
  intros Hf Hn. destruct (isFailure_not_EOF fl Hf) as [Hfail Heof].
  split; [|split].
  - intros ws Hws. split.
    + rewrite (Read_via_readKey p (mkReader ws fl) Hn).
      * unfold readKey. cbn [pending fail]. rewrite skipBlank_blanks by assumption.
        rewrite Hfail. cbn [o_parser o_next o_reader o_piece o_err].
        now rewrite set_next_set_next.
      * right. unfold readKey. cbn [pending fail].
        rewrite skipBlank_blanks by assumption. rewrite Hfail. discriminate.
    + intros r. unfold Read.
      cbn [next set_next isNil ReadLoop read o_parser o_next o_reader o_piece o_err].
      rewrite set_next_set_next. apply ReadLoop_done. right. right. discriminate.
  - intros c0 k Hp Hbr Hbl.
    assert (H0 : plainKeyRune c0 = true)
      by (cbn [forallb] in Hp; now apply andb_prop in Hp as [? _]).
    destruct (plainKeyRune_facts c0 H0) as (Hend & Hblank & H35).
    apply Z.eqb_neq in Hbr, Hbl.
    assert (Hk : forall q, readKey q (mkReader (c0 :: k) fl)
                   = mkOut (set_buf q []) (mkReader [] fl) (Some (errReader fl))
                           None (Some fl)).
    { intros q. unfold readKey. cbn [pending fail skipBlank]. rewrite Hblank.
      cbn [isFailure isNil]. rewrite Hbr, Hbl, H35.
      change (keyLoop (keepSeqWhitespace q) fl k c0 (mkAcc false 0 (buf q)))
        with (keyTail (keepSeqWhitespace q) fl (c0 :: k) (mkAcc false 0 (buf q))).
      rewrite keyTail_plain_end by auto. cbn [isNil negb]. rewrite Heof.
      destruct (Z.of_nat _ =? 0); cbn [andb option_map]; [reflexivity|].
      cbn [Z.eqb orb]. now rewrite readValue_on_failure. }
    split.
    + rewrite (Read_via_readKey p (mkReader (c0 :: k) fl) Hn); rewrite Hk.
      * cbn [o_parser o_next o_reader o_piece o_err]. now destruct p.
      * right. discriminate.
    + intros r. unfold Read.
      cbn [next set_next isNil ReadLoop read o_parser o_next o_reader o_piece o_err].
      rewrite set_next_set_next. apply ReadLoop_done. right. right. discriminate.
  - intros c0 k b v0 v Hp Hbr Hbl Hb Hv Hv0 Hv123.
    rewrite (Read_via_readKey p (mkReader (c0 :: k ++ b :: v0 :: v) fl) Hn);
      rewrite readKey_plain_key_then_value by assumption.
    2:{ left. unfold readValue. cbn [pending fail skipBlank]. rewrite Hv0.
        cbn [isFailure]. apply Z.eqb_neq in Hv123. rewrite Hv123.
        destruct (v0 =? 35); [discriminate|].
        cbn [isNil]. destruct (valueLoop _ _ _ _ _) as [[[c2 e2] rs2] b2].
        discriminate. }
    unfold readValue. cbn [pending fail skipBlank]. rewrite Hv0.
    cbn [isFailure isNil].
    assert (H35 : (v0 =? 35) = false).
    { cbn [forallb] in Hv. apply andb_prop in Hv as [Hx _].
      unfold plainValueRune in Hx. apply negb_true_iff in Hx.
      apply orb_false_elim in Hx as [_ Hx]. unfold isValueEnd in Hx.
      now apply orb_false_elim in Hx as [_ ?]. }
    apply Z.eqb_neq in Hv123. rewrite Hv123, H35.
    change (valueLoop ?ks fl v v0 ?a) with (valueTail ks fl (v0 :: v) a).
    rewrite valueTail_plain_end by auto.
    cbn [set_buf set_next buf keepSeqWhitespace keepTrailingWhitespace abuf last app
         o_parser o_next o_reader o_piece o_err Z.eqb].
    rewrite Heof. reflexivity.
Qed.

Lemma X14_witness :
  Read zeroParser (mkReader (B "  ") (ErrIO 5))
    = Some (set_next zeroParser (Some eofReader), mkReader [] (ErrIO 5),
            None, Some (ErrIO 5))
  /\ Read zeroParser (mkReader (B "abc") (ErrIO 5))
    = Some (set_next zeroParser (Some (errReader (ErrIO 5))), mkReader [] (ErrIO 5),
            None, Some (ErrIO 5))
  /\ Read zeroParser (mkReader (B "abc de") (ErrIO 5))
    = Some (set_next zeroParser (Some readKeyFn), mkReader [] (ErrIO 5),
            Some (Field (B "abc") (B "de")), Some (ErrIO 5)).
Proof.
  destruct (X14_failing_source zeroParser (ErrIO 5)) as (H1 & H2 & H3);
    [discriminate|left; reflexivity|].
  split; [|split].
  - apply (H1 (B "  ")). reflexivity.
  - apply (H2 97 (B "bc")); [reflexivity|discriminate|discriminate].
  - apply (H3 97 (B "bc") SP 100 (B "e"));
      [reflexivity|discriminate|discriminate|reflexivity|reflexivity|reflexivity
      |discriminate].
Defined.

(** ** Pieces that come with an error *)

Lemma skipBlank_err_rest rs fl c e rs' : skipBlank rs fl = (c, Some e, rs') -> rs' = [].
Proof.
  induction rs as [|x rs IH]; cbn [skipBlank]; [now intros [= _ _ <-]|].
  destruct (isBlank x); [exact IH|discriminate].
Qed.

Lemma keyLoop_err_rest keepSeq fl rs : forall c a c2 e rs2 b,
  keyLoop keepSeq fl rs c a = (c2, Some e, rs2, b) -> rs2 = [].
Proof.
  induction rs as [|x rs IH]; intros c a c2 e rs2 b; cbn [keyLoop];
    destruct (negb (negb (escape a) && isKeyEnd c)); try discriminate.
  - now intros [= _ _ <- _].
  - apply IH.
Qed.

Lemma valueLoop_err_rest keepSeq fl rs : forall c a c2 e rs2 b,
  valueLoop keepSeq fl rs c a = (c2, Some e, rs2, b) -> rs2 = [].
Proof.
  induction rs as [|x rs IH]; intros c a c2 e rs2 b; cbn [valueLoop];
    (destruct (negb (negb (escape a) && isValueEnd c));
     [destruct (valueStep keepSeq c a)|]); try discriminate.
  - now intros [= _ _ <- _].
  - apply IH.
Qed.

Lemma readUntil_err_rest rs fl d sq e rs' :
  readUntil rs fl d = (sq, Some e, rs') -> rs' = [].
Proof.
  revert sq rs'. induction rs as [|x rs IH]; intros sq rs'; cbn [readUntil];
    [now intros [= _ _ <-]|].
  destruct (x =? d); [discriminate|].
  destruct (readUntil rs fl d) as [[sq0 [e0|]] rs0]; [|discriminate].
  intros [= _ <- <-]. now apply (IH sq0 rs0).
Qed.

Lemma readValue_piece_with_error p r key pc e :
  o_piece (readValue p r key) = Some pc -> o_err (readValue p r key) = Some e ->
  e = fail r /\ pending (o_reader (readValue p r key)) = []
  /\ exists k v, pc = Field k v.
Proof.
  unfold readValue.
  destruct (skipBlank (pending r) (fail r)) as [[c err] rs] eqn:Es.
  destruct (isFailure err); [discriminate|].
  destruct (c =? 123); [discriminate|].
  destruct (c =? 35); [discriminate|].
  destruct err as [e0|]; cbn [isNil].
  - cbn. intros [= <-] [= <-]. split; [now apply skipBlank_err in Es|].
    split; [now apply skipBlank_err_rest in Es|eauto].
  - destruct (valueLoop _ _ _ _ _) as [[[c2 err2] rs2] b] eqn:El.
    cbn. intros [= <-] ->. split; [now apply valueLoop_err in El|].
    split; [now apply valueLoop_err_rest in El|eauto].
Qed.

Lemma read_piece_with_error n p r pc e :
  o_piece (read n p r) = Some pc -> o_err (read n p r) = Some e ->
  e = fail r /\ pending (o_reader (read n p r)) = []
  /\ ((exists k v, pc = Field k v) \/ exists c, pc = Comment c).
Proof.
  destruct n as [|nx| |e0]; cbn [read]; try discriminate.
  - unfold readKey.
    destruct (skipBlank (pending r) (fail r)) as [[c err] rs] eqn:Es.
    destruct (isFailure err); [discriminate|].
    destruct (c =? 125); [unfold leave; destruct (depth p =? 0); discriminate|].
    destruct (c =? 123); [discriminate|].
    destruct (c =? 35); [discriminate|].
    assert (Hl : forall c2 e rs2 key,
               (if isNil err
                then keyLoop (keepSeqWhitespace p) (fail r) rs c (mkAcc false 0 (buf p))
                else (c, err, rs, buf p)) = (c2, Some e, rs2, key) ->
               e = fail r /\ rs2 = []).
    { intros c2 e1 rs2 key H. destruct err as [e0|]; cbn [isNil] in H.
      - inversion H; subst. split; [now apply skipBlank_err in Es|].
        now apply skipBlank_err_rest in Es.
      - split; [now apply keyLoop_err in H|now apply keyLoop_err_rest in H]. }
    destruct (if isNil err then _ else _) as [[[c2 err2] rs2] key].
    assert (He2 : forall e1, err2 = Some e1 -> e1 = fail r /\ rs2 = []).
    { intros e1 ->. now apply (Hl _ _ _ _ eq_refl). }
    destruct ((Z.of_nat (length key) =? 0) && negb (isNil err2));
      [destruct (isEOF err2); discriminate|].
    assert (Hf : Some (Field key []) = Some pc -> err2 = Some e ->
               e = fail r /\ pending (mkReader rs2 (fail r)) = []
               /\ ((exists k v, pc = Field k v) \/ exists c, pc = Comment c)).
    { intros [= <-] H. destruct (He2 e H) as [-> ->]. repeat split. left. eauto. }
    destruct (isEOF err2); [now apply Hf|].
    destruct (c2 =? 35); [now apply Hf|].
    destruct ((c2 =? 33) || (c2 =? 59)); [now apply Hf|].
    intros H1 H2.
    destruct (readValue_piece_with_error _ _ _ _ _ H1 H2) as (A & B0 & C).
    cbn [fail] in A. repeat split; auto.
  - unfold readComment.
    destruct (readUntil (pending r) (fail r) 10) as [[sq err] rs] eqn:Eu.
    cbn. intros H ->. split; [now apply readUntil_err in Eu|].
    split; [now apply readUntil_err_rest in Eu|].
    right. destruct (readComments p); [|discriminate]. inversion H. eauto.
Qed.

Lemma ReadLoop_piece_with_error fuel : forall p r p' r' pc e,
  ReadLoop fuel p r None None = Some (p', r', Some pc, Some e) ->
  e = fail r /\ pending r' = []
  /\ ((exists k v, pc = Field k v) \/ exists c, pc = Comment c).
Proof.
  induction fuel as [|fuel IH]; intros p r p' r' pc e H; cbn [ReadLoop] in H.
  - destruct (next p); discriminate.
  - destruct (next p) as [n|]; [|discriminate].
    pose proof (read_piece_with_error n p r) as Hr.
    destruct (o_piece (read n p r)) as [pc0|] eqn:Ep.
    { rewrite ReadLoop_done in H by (right; left; discriminate).
      inversion H; subst. now apply Hr. }
    destruct (o_err (read n p r)) as [e0|] eqn:Ee.
    { rewrite ReadLoop_done in H by (right; right; discriminate). discriminate. }
    apply IH in H. now rewrite read_fail in H.
Qed.

(** X15: Read returns a piece together with an error only when the source
    ends, or fails, inside a key, a value or a comment: the error is then
    the error of the source, the source is used up, and the piece is a
    Field or a Comment, never a NodeEnter or a NodeLeave.  The loop of
    Parse does not append such a piece. *)
Theorem X15_piece_with_error (p : Parser) (r : Reader) (p' : Parser) (r' : Reader)
    (pc : Piece) (e : error) :
  Read p r = Some (p', r', Some pc, Some e) ->
  e = fail r /\ pending r' = []
  /\ ((exists k v, pc = Field k v) \/ exists c, pc = Comment c)
  /\ forall fuel pieces,
       ParseLoop (S fuel) p r pieces None
         = Some (pieces, if isEOF (Some e) then None else Some e).
Proof.
  intros H. pose proof H as H'. unfold Read in H'.
  apply ReadLoop_piece_with_error in H' as (A & B0 & C).
  repeat split; auto.
  intros fuel pieces. cbn [ParseLoop]. rewrite H. cbn [isNil].
  apply ParseLoop_error.
Qed.

Lemma X15_witness :
  EOF = fail (textReader (B "key value")) /\ pending (textReader []) = []
  /\ ((exists k v, Field (B "key") (B "value") = Field k v)
      \/ exists c, Field (B "key") (B "value") = Comment c)
  /\ forall fuel pieces,
       ParseLoop (S fuel) zeroParser (textReader (B "key value")) pieces None
         = Some (pieces, if isEOF (Some EOF) then None else Some EOF).
Proof.
  apply (X15_piece_with_error zeroParser (textReader (B "key value"))
           (set_next zeroParser (Some eofReader)) (textReader [])
           (Field (B "key") (B "value")) EOF).
  reflexivity.
Defined.

(** ** The end of the stream *)














(** ** A comment after a value *)





(** ** Documents *)

Lemma Read_blank_prefix p ws rs fl :
  next p = None \/ next p = Some readKeyFn ->
  forallb isBlank ws = true ->
  Read p (mkReader (ws ++ rs) fl) = Read p (mkReader rs fl).
Proof.
  intros Hn Hws.
  rewrite <- (Read_fuel p (mkReader rs fl) (S (length (ws ++ rs))))
    by (cbn [pending]; rewrite length_app; lia).
  unfold Read. cbn [pending]. rewrite (set_next_start p Hn).
  cbn [ReadLoop next set_next read].
  now rewrite readKey_blank_prefix.
Qed.

Lemma Read_passes_comment_line p c rest fl :
  next p = None \/ next p = Some readKeyFn ->
  readComments p = false -> ~ In LF c ->
  Read p (mkReader (HASH :: c ++ LF :: rest) fl) = Read p (mkReader rest fl).
Proof.
  intros Hn Hrc Hc.
  rewrite <- (Read_fuel p (mkReader rest fl) (length (c ++ LF :: rest)))
    by (cbn [pending]; rewrite length_app; cbn [length]; lia).
  unfold Read. rewrite (set_next_start p Hn).
  apply ReadLoop_comment_line_off; [reflexivity|exact Hrc|exact Hc].
Qed.

Lemma not_existsb_LF c : existsb (Z.eqb LF) c = false -> ~ In LF c.
Proof.
  intros H Hin.
  assert (E : existsb (Z.eqb LF) c = true)
    by (apply existsb_exists; exists LF; split; [exact Hin|reflexivity]).
  congruence.
Qed.

(** The piece at the head of a document, comments passed over apart: Read
    returns it and leaves the rest of the document behind at most one
    line end. *)
Lemma Read_rendered_piece p pc ws R :
  buf p = [] -> next p = None \/ next p = Some readKeyFn ->
  forallb isBlank ws = true ->
  0 <= depth p < maxInt ->
  readsBackAt (keepSeqWhitespace p) (keepTrailingWhitespace p) (depth p) pc = true ->
  readComments p || negb (isComment pc) = true ->
  exists p' ws',
    Read p (textReader (ws ++ (String_ pc ++ [LF]) ++ R))
      = Some (p', textReader (ws' ++ R), Some pc, None)
    /\ buf p' = [] /\ next p' = Some readKeyFn /\ sameConfig p p'
    /\ depth p' = depthAfter (depth p) pc
    /\ forallb isBlank ws' = true /\ (length ws' <= 1)%nat.
Proof.
  intros Hb Hn Hws Hd Hpc Hrc.
  unfold textReader. rewrite (Read_blank_prefix p ws _ EOF Hn Hws).
  assert (Hq : buf (set_next p (Some readKeyFn)) = []) by exact Hb.
  destruct pc as [k v|c|s|n]; cbn [readsBackAt] in Hpc.
  - apply andb_prop in Hpc as [Hk Hv]. apply andb_prop in Hk as [Hk Hsk].
    destruct v as [|x v].
    + exists (set_next p (Some readKeyFn)), [LF].
      split; [|repeat split; try assumption; cbn [length]; lia].
      rewrite (Read_via_readKey p _ Hn); cbn [String_];
        rewrite <- !app_assoc; cbn [app];
        rewrite readKey_rendered_key
          by (assumption || reflexivity || discriminate).
      * cbn [Z.eqb Pos.eqb orb o_parser o_next o_reader o_piece o_err].
        now rewrite set_next_set_next.
      * cbn [Z.eqb Pos.eqb orb o_piece]. left. discriminate.
    + repeat match goal with
             | H : _ && _ = true |- _ => apply andb_prop in H as [H ?]
             end.
      assert (Hne : k <> []) by (destruct k; [discriminate|discriminate]).
      assert (Hks : keepSeqWhitespace (set_next p (Some readKeyFn)) = true
                    \/ valueSurvives 0 (x :: v) = true).
      { cbn [set_next keepSeqWhitespace].
        destruct (keepSeqWhitespace p); [now left|now right]. }
      assert (Hkt : keepTrailingWhitespace (set_next p (Some readKeyFn)) = true
                    \/ endsTrimmed (x :: v) = false).
      { cbn [set_next keepTrailingWhitespace].
        destruct (keepTrailingWhitespace p); [now left|right].
        now apply negb_true_iff. }
      exists (set_next p (Some readKeyFn)), [].
      split; [|repeat split; try assumption; cbn [length]; lia].
      rewrite (Read_via_readKey p _ Hn); cbn [String_];
        rewrite <- !app_assoc; cbn [app];
        rewrite readKey_rendered_key
          by (assumption || reflexivity || discriminate || (intros; contradiction));
        cbn [Z.eqb Pos.eqb orb];
        rewrite (readValue_rendered_value _ k (x :: v) LF R EOF)
          by (assumption || now left).
      * cbn [o_parser o_next o_reader o_piece o_err].
        now rewrite set_next_set_next.
      * left. discriminate.
  - cbn [isComment negb] in Hrc. rewrite orb_false_r in Hrc.
    apply andb_prop in Hpc as [Ha Hlf]. apply negb_true_iff in Hlf.
    exists (set_next p (Some readKeyFn)), [].
    split; [|repeat split; try assumption; cbn [length]; lia].
    cbn [String_ app]. rewrite <- app_assoc. cbn [app].
    rewrite (Read_comment_line p c R EOF Hrc Hn (not_existsb_LF c Hlf)).
    now rewrite encodeAll_ascii.
  - destruct s; [|discriminate].
    exists (set_next (set_depth p (wrapInt (depth p + 1))) (Some readKeyFn)), [LF].
    split.
    + now rewrite (Read_via_readKey p _ Hn); [|left; discriminate].
    + repeat split; try assumption; try (cbn [length]; lia).
      cbn [set_next set_depth depth depthAfter].
      apply wrapInt_id. unfold maxInt in *. lia.
  - apply andb_prop in Hpc as [H0 Hnd].
    apply Z.ltb_lt in H0. apply Z.eqb_eq in Hnd. subst n.
    assert (Ez : (depth p =? 0) = false) by (apply Z.eqb_neq; lia).
    assert (HL : readKey (set_next p (Some readKeyFn)) (mkReader ([RBRACE] ++ [LF] ++ R) EOF)
                 = mkOut (set_depth (set_next p (Some readKeyFn)) (wrapInt (depth p - 1)))
                         (mkReader ([LF] ++ R) EOF) (Some readKeyFn)
                         (Some (NodeLeave (depth p))) None).
    { unfold readKey. cbn [pending fail app skipBlank isBlank Z.eqb Pos.eqb orb
                           isFailure isNil].
      unfold leave. cbn [set_next depth]. now rewrite Ez. }
    exists (set_next (set_depth p (wrapInt (depth p - 1))) (Some readKeyFn)), [LF].
    split.
    + cbn [String_]. rewrite <- app_assoc.
      rewrite (Read_via_readKey p _ Hn); rewrite HL; [|left; discriminate].
      reflexivity.
    + repeat split; try assumption; try (cbn [length]; lia).
      cbn [set_next set_depth depth depthAfter].
      apply wrapInt_id. unfold maxInt in *. lia.
Qed.

Lemma Read_blank_end p ws :
  buf p = [] -> next p = None \/ next p = Some readKeyFn ->
  forallb isBlank ws = true ->
  exists p' r', Read p (textReader ws) = Some (p', r', None, Some EOF).
Proof.
  intros Hb Hn Hws. unfold textReader.
  assert (E : readKey (set_next p (Some readKeyFn)) (mkReader [] EOF)
              = mkOut (set_buf (set_next p (Some readKeyFn)) []) (mkReader [] EOF)
                      (Some eofReader) None (Some EOF)).
  { unfold readKey. cbn [pending fail skipBlank isFailure isNil set_next buf].
    rewrite Hb. reflexivity. }
  replace ws with (ws ++ []) by apply app_nil_r.
  rewrite (Read_blank_prefix p ws [] EOF Hn Hws).
  rewrite (Read_via_readKey p _ Hn); rewrite E; [|right; discriminate].
  eexists _, _. reflexivity.
Qed.

Lemma ParseLoop_document doc : forall fuel p ws pieces,
  buf p = [] -> next p = None \/ next p = Some readKeyFn ->
  forallb isBlank ws = true ->
  0 <= depth p -> depth p + Z.of_nat (length doc) <= maxInt ->
  readsBackFrom (keepSeqWhitespace p) (keepTrailingWhitespace p) (depth p) doc = true ->
  (length (ws ++ document doc) < fuel)%nat ->
  ParseLoop fuel p (textReader (ws ++ document doc)) pieces None
    = Some (pieces ++ map Some (kept (readComments p) doc), None).
Proof.
  induction doc as [|pc doc IH]; intros fuel p ws pieces Hb Hn Hws Hd0 Hd Hrb Hf.
  - destruct fuel as [|fuel]; [lia|].
    cbn [document flat_map]. rewrite app_nil_r.
    destruct (Read_blank_end p ws Hb Hn Hws) as (p' & r' & E).
    cbn [ParseLoop]. rewrite E. cbn [isNil].
    rewrite ParseLoop_error. cbn [isEOF kept filter map]. now rewrite app_nil_r.
  - cbn [readsBackFrom] in Hrb. apply andb_prop in Hrb as [Hpc Hrb].
    cbn [length] in Hd.
    cbn [document flat_map] in *. fold (document doc) in *.
    destruct (readComments p || negb (isComment pc)) eqn:Hk.
    + destruct fuel as [|fuel]; [lia|].
      destruct (Read_rendered_piece p pc ws (document doc) Hb Hn Hws
                  ltac:(lia) Hpc Hk)
        as (p' & ws' & E & Hb' & Hn' & (Hc1 & Hc2 & Hc3) & Hd' & Hws' & Hl).
      cbn [ParseLoop]. rewrite E. cbn [isNil].
      rewrite (IH fuel p' ws' (pieces ++ [Some pc])); try assumption.
      * rewrite Hc1. cbn [kept filter]. rewrite Hk. cbn [map].
        now rewrite <- app_assoc.
      * now right.
      * rewrite Hd'. destruct pc; cbn [depthAfter]; try lia.
        cbn [readsBackAt] in Hpc. apply andb_prop in Hpc as [H0 _].
        apply Z.ltb_lt in H0. lia.
      * rewrite Hd'. destruct pc; cbn [depthAfter]; lia.
      * now rewrite Hc2, Hc3, Hd'.
      * assert (1 <= length (String_ pc))%nat.
        { destruct pc as [k [|x v]|c|s|n]; cbn [String_];
            rewrite ?length_app; cbn [length]; lia. }
        rewrite !length_app in *. cbn [length] in *. lia.
    + destruct pc as [k v|c|s|n]; try (now rewrite orb_true_r in Hk).
      cbn [isComment negb] in Hk. rewrite orb_false_r in Hk.
      cbn [readsBackAt] in Hpc. apply andb_prop in Hpc as [Ha Hlf].
      apply negb_true_iff in Hlf.
      destruct fuel as [|fuel]; [lia|].
      assert (E : Read p (textReader (ws ++ (String_ (Comment c) ++ [LF]) ++ document doc))
                  = Read p (textReader ([] ++ document doc))).
      { unfold textReader. rewrite (Read_blank_prefix p ws _ EOF Hn Hws).
        cbn [String_ app]. rewrite <- app_assoc. cbn [app].
        now apply Read_passes_comment_line; [| |apply not_existsb_LF]. }
      change (ParseLoop (S fuel) p
                (textReader (ws ++ (String_ (Comment c) ++ [LF]) ++ document doc))
                pieces None)
        with (match Read p (textReader (ws ++ (String_ (Comment c) ++ [LF]) ++ document doc)) with
              | None => None
              | Some (p', r', piece, err') =>
                  ParseLoop fuel p' r'
                    (if isNil err' then pieces ++ [piece] else pieces) err'
              end).
      rewrite E.
      change (match Read p (textReader ([] ++ document doc)) with
              | None => None
              | Some (p', r', piece, err') =>
                  ParseLoop fuel p' r'
                    (if isNil err' then pieces ++ [piece] else pieces) err'
              end)
        with (ParseLoop (S fuel) p (textReader ([] ++ document doc)) pieces None).
      rewrite (IH (S fuel) p [] pieces); try assumption.
      * cbn [kept filter isComment negb]. rewrite Hk. reflexivity.
      * reflexivity.
      * cbn [depthAfter] in Hrb. lia.
      * rewrite !length_app in *. cbn [length] in *. lia.
Qed.

(** X18: a document read back.  The pieces of a list, each rendered by
    String and followed by a line end, are returned by Parse as they were,
    without error, when every Field and Comment is of the kind that reads
    back under the parser's options, every NodeEnter has no label, and
    every NodeLeave carries the depth it stands at; with ReadComments off
    the Comments are left out.  Blocks still open at the end of the text
    are no error. *)
Theorem X18_document_read_back (configs : list Configuration) (doc : list Piece) :
  Z.of_nat (length doc) <= maxInt ->
  readsBackFrom (keepSeqWhitespace (NewParser configs))
                (keepTrailingWhitespace (NewParser configs)) 0 doc = true ->
  Parse (textReader (document doc)) configs
    = Some (map Some (kept (readComments (NewParser configs)) doc), None).
Proof.
  intros Hl Hrb. unfold Parse. fold (NewParser configs).
  assert (Hd : depth (NewParser configs) = 0) by apply Reset_depth.
  apply (ParseLoop_document doc _ (NewParser configs) [] []).
  - apply Reset_buf.
  - left. apply Reset_next.
  - reflexivity.
  - rewrite Hd. lia.
  - rewrite Hd. lia.
  - now rewrite Hd.
  - cbn [pending textReader app]. lia.
Qed.

Lemma X18_witness :
  Parse (textReader (document
           [Comment (B " scene"); NodeEnter []; Field (B "name") (B "a b");
            Field (B "hidden") []; NodeLeave 1; NodeEnter []]))
        []
    = Some ([Some (NodeEnter []); Some (Field (B "name") (B "a b"));
             Some (Field (B "hidden") []); Some (NodeLeave 1); Some (NodeEnter [])],
            None).
Proof.
  apply (X18_document_read_back []
           [Comment (B " scene"); NodeEnter []; Field (B "name") (B "a b");
            Field (B "hidden") []; NodeLeave 1; NodeEnter []]).
  - unfold maxInt. cbn. lia.
  - reflexivity.
Defined.
